(** * The streaming tool-calling agent of [agent.py], [app.py] and
      [lambda_handler.py]: a shallow embedding and its properties.

    The Python objects are records, Python dictionaries used as maps are
    [gmap]s, JSON objects keep their key order as association lists, a
    raised exception is the [Raise] case of [Outcome], and everything the
    program obtains from outside (the model's deltas, the bodies of the
    tools, the JSON routines of the message library, the order in which
    concurrent tool tasks finish) is a field of [World]. *)

From Stdlib Require Import ZArith SpecFloat Ascii.
From stdpp Require Import base option list strings pretty gmap.

Set Warnings "-register-all".
Set Default Proof Using "Type".

(** ** Python values *)

(** The values that travel as tool arguments and tool results: what
    [json.loads] can build. *)
Inductive Value : Type :=
| VNone
| VBool (b : bool)
| VInt (z : Z)
| VFloat (f : spec_float)
| VStr (s : string)
| VList (l : list Value)
| VDict (d : list (string * Value)).

Abbreviation Dict := (list (string * Value)).

(** Python truthiness, as [if v:] tests it. *)
Definition truthy (v : Value) : bool :=
  match v with
  | VNone => false
  | VBool b => b
  | VInt z => negb (z =? 0)%Z
  | VFloat (S754_zero _) => false
  | VFloat _ => true
  | VStr s => negb (String.eqb s "")
  | VList l => negb (bool_decide (l = []))
  | VDict d => negb (bool_decide (d = []))
  end.

(** [d[k]] on a JSON object, [None] standing for the missing key. *)
Fixpoint dict_get (k : string) (d : Dict) : option Value :=
  match d with
  | [] => None
  | (k', v) :: d' => if String.eqb k k' then Some v else dict_get k d'
  end.

Definition dict_keys (d : Dict) : list string := d.*1.

(** Truthiness of an optional string, as in [if tc.get("name"):]. *)
Definition nonempty (o : option string) : bool :=
  match o with
  | Some s => negb (String.eqb s "")
  | None => false
  end.

(** ** Exceptions *)

Inductive Exn : Type :=
| KeyError (key : string)
| IndexError
| TypeError (what : string)
| ToolFailure (what : string).

Inductive Outcome (A : Type) : Type :=
| Ok (a : A)
| Raise (e : Exn).
Arguments Ok {A} a.
Arguments Raise {A} e.

Definition obind {A B} (m : Outcome A) (k : A → Outcome B) : Outcome B :=
  match m with
  | Ok a => k a
  | Raise e => Raise e
  end.

Notation "x ←! m ; k" := (obind m (λ x, k))
  (at level 20, m at level 100, k at level 200, right associativity,
   format "x  ←!  m ;  '/' k").

Definition is_ok {A} (m : Outcome A) : bool :=
  match m with Ok _ => true | Raise _ => false end.

(** ** Messages *)

(** A complete tool call, the dictionary [{"name", "args", "id"}]. *)
Record ToolCall := {
  tc_name : string;
  tc_args : Dict;
  tc_id : option string;
}.

(** A streamed fragment of a tool call, an element of
    [tool_call_chunks]: the argument text arrives in pieces. *)
Record ToolCallChunk := {
  tcc_name : option string;
  tcc_args : option string;
  tcc_id : option string;
}.

(** An element of [additional_kwargs["tool_calls"]], the older shape:
    [{"id", "name"?, "function": {"name", "arguments"}}]. *)
Record KwToolCall := {
  kw_id : option string;
  kw_name : option string;
  kw_function_name : option string;
  kw_function_arguments : option string;
}.

(** A delta of the model's stream (an [AIMessageChunk]), with the
    attributes the program reads. *)
Record AIMessageChunk := {
  content : string;
  tool_call_chunks : list ToolCallChunk;
  kw_tool_calls : list KwToolCall;
}.

Record AIMessage := {
  am_content : Value;
  am_tool_calls : list ToolCall;
  am_tool_call_id : option string;
}.

(** A [ToolMessage]: its [tool_call_id] is a text, the message class
    takes nothing else. *)
Record ToolMessage := {
  tm_content : string;
  tm_tool_call_id : string;
}.

Inductive BaseMessage : Type :=
| Human (text : string)
| AI (m : AIMessage)
| Tool (m : ToolMessage).

(** ** The outside world *)

Record World := {
  (** [parse_partial_json]: the dictionary an argument text stands for,
      [None] when the text does not parse to a dictionary. *)
  parse_args : string → option Dict;
  (** [json.dumps] on a dictionary. *)
  json_dumps : Dict → string;
  (** The text [f"{tool_out}"] of a tool result. *)
  format_out : Value → string;
  (** The deltas of the model call number [turn] of the invocation, for
      the given chat history, input and scratchpad. *)
  llm_astream : nat → list BaseMessage → string → list BaseMessage →
                list AIMessageChunk;
  (** The bodies of the arithmetic tools and of the web search, for the
      call at position [pos] of the batch of turn [turn]. *)
  tool_body : nat → nat → string → Dict → Outcome Value;
  (** The order in which the tasks of the batch of a turn finish, as
      positions in the batch. *)
  completion_order : nat → list nat;
}.

(** ** The message library *)

Definition merge_text (a b : option string) : option string :=
  match a, b with
  | None, _ => b
  | _, None => a
  | Some x, Some y => Some (x +:+ y)
  end.

Definition merge_chunk (l r : ToolCallChunk) : ToolCallChunk :=
  {| tcc_name := merge_text (tcc_name l) (tcc_name r);
     tcc_args := merge_text (tcc_args l) (tcc_args r);
     tcc_id := merge_text (tcc_id l) (tcc_id r) |}.

Definition merge_kw (l r : KwToolCall) : KwToolCall :=
  {| kw_id := merge_text (kw_id l) (kw_id r);
     kw_name := merge_text (kw_name l) (kw_name r);
     kw_function_name := merge_text (kw_function_name l) (kw_function_name r);
     kw_function_arguments :=
       merge_text (kw_function_arguments l) (kw_function_arguments r) |}.

(** A fragment that opens a tool call carries an id or a name. *)
Definition opens_call (c : ToolCallChunk) : bool :=
  nonempty (tcc_id c) || nonempty (tcc_name c).

(** One fragment joins the pending fragments: a continuation extends the
    most recently started one, any other fragment is a new pending call. *)
Definition absorb {A} (opens : A → bool) (merge : A → A → A)
    (pending : list A) (c : A) : list A :=
  if opens c || bool_decide (pending = []) then pending ++ [c]
  else alter (λ last, merge last c) (pred (length pending)) pending.

Definition opens_kw (k : KwToolCall) : bool :=
  nonempty (kw_id k) || nonempty (kw_name k).

(** Modelled from the spec: the addition of message chunks behind
    [outputs[-1] += token], which belongs to the message library and is
    not under src/. "Arguments may arrive incrementally as raw text
    fragments that must be concatenated", and a fragment carrying neither
    id nor name "must be appended to the arguments of the most recently
    started pending ToolCall": the text content is concatenated, and the
    fragments of the right operand join those of the left one by one. *)
Definition chunk_add (l r : AIMessageChunk) : AIMessageChunk :=
  {| content := content l +:+ content r;
     tool_call_chunks :=
       foldl (absorb opens_call merge_chunk)
             (tool_call_chunks l) (tool_call_chunks r);
     kw_tool_calls :=
       foldl (absorb opens_kw merge_kw) (kw_tool_calls l) (kw_tool_calls r) |}.

(** Modelled from the spec: the [tool_calls] attribute of a message
    chunk, computed by the message library and not under src/. "A
    ToolCall is considered complete once both id/name and a parseable
    arguments value are known": the fragments whose argument text parses
    (an empty text standing for the empty dictionary), in order. *)
Definition complete_call (w : World) (c : ToolCallChunk) : option ToolCall :=
  args ← (if nonempty (tcc_args c)
          then parse_args w (default "" (tcc_args c))
          else Some []);
  Some {| tc_name := default "" (tcc_name c);
          tc_args := args;
          tc_id := tcc_id c |}.

Definition tool_calls (w : World) (m : AIMessageChunk) : list ToolCall :=
  omap (complete_call w) (tool_call_chunks m).

(** ** The tools and their registry *)

(** An [async def] tool: its parameter names and its body. The two
    numbers say which call of the invocation runs the body. *)
Record Coroutine := {
  co_params : list string;
  co_body : nat → nat → Dict → Outcome Value;
}.

(** A call that unpacks a dictionary into keyword arguments binds when
    the keys are exactly the parameters: no tool has a default value. *)
Definition binds (params : list string) (kwargs : Dict) : bool :=
  forallb (λ k, bool_decide (k ∈ params)) (dict_keys kwargs)
  && forallb (λ p, bool_decide (p ∈ dict_keys kwargs)) params.

Definition call (f : Coroutine) (turn pos : nat) (kwargs : Dict) : Outcome Value :=
  if binds (co_params f) kwargs then co_body f turn pos kwargs
  else Raise (TypeError "arguments").

(** The tools. The arithmetic on floating-point numbers and the web
    search are left to the world; what is kept of them is their name
    and their parameters. *)
Module Tools.

Definition outside (w : World) (name : string) (params : list string) : Coroutine :=
  {| co_params := params;
     co_body := λ turn pos kwargs, tool_body w turn pos name kwargs |}.

Definition add w := outside w "add" ["x"; "y"].
Definition multiply w := outside w "multiply" ["x"; "y"].
Definition exponentiate w := outside w "exponentiate" ["x"; "y"].
Definition subtract w := outside w "subtract" ["x"; "y"].
Definition serpapi w := outside w "serpapi" ["query"].

Definition final_answer : Coroutine :=
  {| co_params := ["answer"; "tools_used"];
     co_body := λ _ _ kwargs,
       match dict_get "answer" kwargs, dict_get "tools_used" kwargs with
       | Some answer, Some tools_used =>
           Ok (VDict [("answer", answer); ("tools_used", tools_used)])
       | _, _ => Raise (TypeError "arguments")
       end |}.

End Tools.

Definition tools (w : World) : list (string * Coroutine) :=
  [("add", Tools.add w); ("subtract", Tools.subtract w);
   ("multiply", Tools.multiply w); ("exponentiate", Tools.exponentiate w);
   ("final_answer", Tools.final_answer); ("serpapi", Tools.serpapi w)].

(** A dictionary comprehension [{k: v for k, v in items}]: a later item
    replaces an earlier one with the same key. *)
Definition dict_of `{Countable K} {V} (items : list (K * V)) : gmap K V :=
  foldl (λ m kv, <[kv.1 := kv.2]> m) ∅ items.

Definition name2tool (w : World) : gmap string Coroutine := dict_of (tools w).

(** ** The streaming handler *)

Inductive QueueItem : Type :=
| QChunk (chunk : AIMessageChunk)
| QStr (s : string).

Definition is_str (s : string) (item : QueueItem) : bool :=
  match item with
  | QStr s' => String.eqb s' s
  | QChunk _ => false
  end.

Record QueueCallbackHandler := {
  queue : list QueueItem;
  final_answer_seen : bool;
}.

(** The name [on_llm_new_token] reads off a delta. *)
Definition tool_name_of (w : World) (msg : AIMessageChunk) : option string :=
  match tool_calls w msg with
  | tc :: _ => Some (tc_name tc)
  | [] =>
      match tool_call_chunks msg with
      | c :: _ => tcc_name c
      | [] =>
          match kw_tool_calls msg with
          | k :: _ => kw_function_name k
          | [] => None
          end
      end
  end.

Definition on_llm_new_token (w : World) (self : QueueCallbackHandler)
    (chunk : AIMessageChunk) : QueueCallbackHandler :=
  let tool_name := tool_name_of w chunk in
  {| queue := queue self ++ [QChunk chunk];
     final_answer_seen :=
       if bool_decide (tool_name = Some "final_answer") then true
       else final_answer_seen self |}.

Definition on_llm_end (self : QueueCallbackHandler) : QueueCallbackHandler :=
  {| queue := queue self ++
       [QStr (if final_answer_seen self then "<<DONE>>" else "<<STEP_END>>")];
     final_answer_seen := final_answer_seen self |}.

(** How the reading of a queue ends: the generator returned, or the
    queue ran dry and the reader keeps polling it. *)
Inductive Ending : Type := Finished | Polling.

(** [__aiter__], on the items that get published: what it yields, and
    how it ends. *)
Fixpoint aiter (published : list QueueItem) : list QueueItem * Ending :=
  match published with
  | [] => ([], Polling)
  | token_or_done :: rest =>
      if is_str "<<DONE>>" token_or_done then ([], Finished)
      else
        let '(yielded, ending) := aiter rest in
        if is_str "" token_or_done then (yielded, ending)
        else (token_or_done :: yielded, ending)
  end.

(** ** Tool execution *)

(** What one [execute_tool] task did: the coroutine call it made, if it
    got that far, and how it ended. The [ToolMessage] is built once the
    tool has returned, and the message class refuses a call id that is
    not a text. *)
Record Task := {
  invoked : option (string * Dict);
  outcome : Outcome ToolMessage;
}.

Definition execute_tool (w : World) (turn pos : nat) (tool_call : AIMessage) : Task :=
  match am_tool_calls tool_call with
  | [] => {| invoked := None; outcome := Raise IndexError |}
  | tc :: _ =>
      let tool_name := tc_name tc in
      let tool_args := tc_args tc in
      match name2tool w !! tool_name with
      | None => {| invoked := None; outcome := Raise (KeyError tool_name) |}
      | Some f =>
          {| invoked := Some (tool_name, tool_args);
             outcome :=
               tool_out ←! call f turn pos tool_args;
               match tc_id tc with
               | Some id =>
                   Ok {| tm_content := format_out w tool_out;
                         tm_tool_call_id := id |}
               | None => Raise (ToolFailure "ValidationError")
               end |}
      end
  end.

(** [asyncio.gather]: the results in the order of the tasks, whatever
    the order in which they finish; the exception of the first task to
    fail otherwise. *)
Fixpoint first_raise {A} (order : list nat) (results : list (Outcome A)) : option Exn :=
  match order with
  | [] => None
  | i :: order' =>
      match results !! i with
      | Some (Raise e) => Some e
      | _ => first_raise order' results
      end
  end.

Fixpoint all_ok {A} (results : list (Outcome A)) : Outcome (list A) :=
  match results with
  | [] => Ok []
  | r :: results' => a ←! r; l ←! all_ok results'; Ok (a :: l)
  end.

Definition gather {A} (order : list nat) (results : list (Outcome A)) : Outcome (list A) :=
  match first_raise order results with
  | Some e => Raise e
  | None => all_ok results
  end.

(** ** The agent executor *)

Record CustomAgentExecutor := {
  chat_history : list BaseMessage;
  max_iterations : Z;
}.

(** The first fragment of a delta, in whichever shape the delta has. *)
Inductive Fragment : Type :=
| FChunk (c : ToolCallChunk)
| FCall (tc : ToolCall)
| FKw (k : KwToolCall).

(** The fragments of the delta come first, then its complete calls;
    the older shape is looked at only when the delta has neither. *)
Definition chunk_or_call (w : World) (token : AIMessageChunk) : option Fragment :=
  match tool_call_chunks token, tool_calls w token with
  | c :: _, _ => Some (FChunk c)
  | [], tc :: _ => Some (FCall tc)
  | [], [] => FKw <$> head (kw_tool_calls token)
  end.

Definition has_id (fragment : Fragment) : bool :=
  match fragment with
  | FChunk c => nonempty (tcc_id c)
  | FCall tc => nonempty (tc_id tc)
  | FKw k => nonempty (kw_id k)
  end.

Definition has_name (fragment : Fragment) : bool :=
  match fragment with
  | FChunk c => nonempty (tcc_name c)
  | FCall tc => nonempty (Some (tc_name tc))
  | FKw k => nonempty (kw_name k)
  end.

(** One round of the [async for token in response.astream(...)] loop. *)
Definition stream_step (w : World) (outputs : list AIMessageChunk)
    (token : AIMessageChunk) : list AIMessageChunk :=
  match chunk_or_call w token with
  | Some fragment =>
      if has_id fragment || has_name fragment then outputs ++ [token]
      else
        match outputs with
        | [] => outputs
        | _ :: _ =>
            alter (λ last, chunk_add last token) (pred (length outputs)) outputs
        end
  | None => outputs
  end.

(** The [outputs] of [stream] once the deltas of a turn have gone by. *)
Definition collect (w : World) (tokens : list AIMessageChunk) : list AIMessageChunk :=
  foldl (stream_step w) [] tokens.

(** The message built from an output that has tool calls. *)
Definition to_message (w : World) (x : AIMessageChunk) : option AIMessage :=
  match tool_calls w x with
  | [] => None
  | tc :: _ =>
      Some {| am_content := VStr (content x);
              am_tool_calls := tool_calls w x;
              am_tool_call_id := tc_id tc |}
  end.

(** The model call of one turn: the deltas go to the handler one by
    one, then the end of turn is signalled. *)
Definition astream (w : World) (turn : nat) (self : CustomAgentExecutor)
    (streamer : QueueCallbackHandler) (query : string)
    (agent_scratchpad : list BaseMessage)
    : list AIMessageChunk * QueueCallbackHandler :=
  let tokens := llm_astream w turn (chat_history self) query agent_scratchpad in
  (tokens, on_llm_end (foldl (on_llm_new_token w) streamer tokens)).

(** What [stream] returns for the deltas of a turn: one message per
    output that has tool calls. *)
Definition stream (w : World) (tokens : list AIMessageChunk) : list AIMessage :=
  omap (to_message w) (collect w tokens).

(** The local variables of [invoke]. *)
Record Frame := {
  count : nat;
  final_answer : option Value;
  final_answer_call : option ToolCall;
  agent_scratchpad : list BaseMessage;
}.

(** What one iteration did. *)
Record Turn := {
  t_scratchpad : list BaseMessage;
  t_tokens : list AIMessageChunk;
  t_calls : list AIMessage;
  t_tasks : list Task;
  t_obs : Outcome (list ToolMessage);
}.

Record Run (A : Type) := {
  result : Outcome A;
  streamer_after : QueueCallbackHandler;
  turns : list Turn;
}.
Arguments result {A} r.
Arguments streamer_after {A} r.
Arguments turns {A} r.

(** [for tool_call in tool_calls: agent_scratchpad.extend([...])] *)
Fixpoint extend_scratchpad (id2tool_obs : gmap (option string) ToolMessage)
    (tool_calls : list AIMessage) (agent_scratchpad : list BaseMessage)
    : Outcome (list BaseMessage) :=
  match tool_calls with
  | [] => Ok agent_scratchpad
  | tool_call :: rest =>
      match id2tool_obs !! am_tool_call_id tool_call with
      | Some ob =>
          extend_scratchpad id2tool_obs rest
            (agent_scratchpad ++ [AI tool_call; Tool ob])
      | None => Raise (KeyError "tool_call_id")
      end
  end.

(** The scan for the final answer: the first message whose first tool
    call is named [final_answer], with its [answer] argument. *)
Fixpoint find_final_answer (tool_calls : list AIMessage)
    : Outcome (option (ToolCall * Value)) :=
  match tool_calls with
  | [] => Ok None
  | tool_call :: rest =>
      match am_tool_calls tool_call with
      | [] => Raise IndexError
      | tc :: _ =>
          if String.eqb (tc_name tc) "final_answer" then
            match dict_get "answer" (tc_args tc) with
            | Some answer => Ok (Some (tc, answer))
            | None => Raise (KeyError "answer")
            end
          else find_final_answer rest
      end
  end.

(** The body of the [while] loop after the tools have run: the new
    frame, and whether the loop breaks. *)
Definition evaluate (tool_calls : list AIMessage) (tool_obs : list ToolMessage)
    (fr : Frame) : Outcome (Frame * bool) :=
  let id2tool_obs :=
    dict_of (zip (am_tool_call_id <$> tool_calls) tool_obs) in
  scratchpad ←! extend_scratchpad id2tool_obs tool_calls (agent_scratchpad fr);
  found ←! find_final_answer tool_calls;
  Ok match found with
     | Some (final_answer_call', final_answer') =>
         ({| count := S (count fr);
             final_answer := Some final_answer';
             final_answer_call := Some final_answer_call';
             agent_scratchpad := scratchpad |}, true)
     | None =>
         ({| count := S (count fr);
             final_answer := final_answer fr;
             final_answer_call := final_answer_call fr;
             agent_scratchpad := scratchpad |}, false)
     end.

(** The body of the [while] loop: the handler after the model call,
    what the iteration did, the new frame and whether the loop breaks. *)
Definition iteration (w : World) (self : CustomAgentExecutor) (input : string)
    (streamer : QueueCallbackHandler) (fr : Frame)
    : QueueCallbackHandler * Turn * Outcome (Frame * bool) :=
  let '(tokens, streamer') :=
    astream w (count fr) self streamer input (agent_scratchpad fr) in
  let tool_calls := stream w tokens in
  let tasks := imap (execute_tool w (count fr)) tool_calls in
  let tool_obs := gather (completion_order w (count fr)) (outcome <$> tasks) in
  (streamer',
   {| t_scratchpad := agent_scratchpad fr;
      t_tokens := tokens;
      t_calls := tool_calls;
      t_tasks := tasks;
      t_obs := tool_obs |},
   tool_obs ←! tool_obs; evaluate tool_calls tool_obs fr).

(** [while count < self.max_iterations]: the guard is tested before
    every iteration, and [count] grows by one in each, so that
    [max_iterations] iterations are enough fuel. *)
Fixpoint while_loop (w : World) (self : CustomAgentExecutor) (input : string)
    (fuel : nat) (streamer : QueueCallbackHandler) (fr : Frame) : Run Frame :=
  match fuel with
  | 0 => {| result := Ok fr; streamer_after := streamer; turns := [] |}
  | S fuel' =>
      if bool_decide (Z.of_nat (count fr) < max_iterations self)%Z then
        let '(streamer', turn, step) := iteration w self input streamer fr in
        match step with
        | Raise e =>
            {| result := Raise e; streamer_after := streamer'; turns := [turn] |}
        | Ok (fr', true) =>
            {| result := Ok fr'; streamer_after := streamer'; turns := [turn] |}
        | Ok (fr', false) =>
            let run := while_loop w self input fuel' streamer' fr' in
            {| result := result run;
               streamer_after := streamer_after run;
               turns := turn :: turns run |}
        end
      else {| result := Ok fr; streamer_after := streamer; turns := [] |}
  end.

Definition initial_frame : Frame :=
  {| count := 0; final_answer := None; final_answer_call := None;
     agent_scratchpad := [] |}.

(** The loop of an invocation, from the initial values of the local
    variables. *)
Definition run_loop (w : World) (self : CustomAgentExecutor) (input : string)
    (streamer : QueueCallbackHandler) : Run Frame :=
  while_loop w self input (Z.to_nat (max_iterations self)) streamer initial_frame.

(** What [invoke] returns: the tool call of the final answer, or a
    dictionary. *)
Inductive Returned : Type :=
| ReturnedCall (final_answer_call : ToolCall)
| ReturnedDict (d : Dict).

Definition no_answer : Dict :=
  [("answer", VStr "No answer found"); ("tools_used", VList [])].

(** An invocation, with what can be seen of it from outside: what it
    returns or raises, the executor afterwards, what the handler
    published, what each iteration did, and the local variables when
    the loop ended. *)
Record Invocation := {
  returned : Outcome Returned;
  self_after : CustomAgentExecutor;
  published : list QueueItem;
  trace : list Turn;
  locals : Outcome Frame;
}.

(** The content an [AIMessage] takes: a text, or a list of texts and
    dictionaries. *)
Definition valid_content (v : Value) : bool :=
  match v with
  | VStr _ => true
  | VList l =>
      forallb (λ x, match x with VStr _ | VDict _ => true | _ => false end) l
  | _ => false
  end.

(** [invoke]. The model call is taken to deliver its deltas and end.
    After the loop the two messages for the chat history are built
    before anything is added to it, so an answer the message class
    refuses leaves the history as it was. *)
Definition invoke (w : World) (self : CustomAgentExecutor) (input : string)
    (streamer : QueueCallbackHandler) : Invocation :=
  let run := run_loop w self input streamer in
  match result run with
  | Raise e =>
      {| returned := Raise e; self_after := self;
         published := queue (streamer_after run); trace := turns run;
         locals := Raise e |}
  | Ok fr =>
      let answered := from_option truthy false (final_answer fr) in
      let said :=
        if answered then default VNone (final_answer fr)
        else VStr "No answer found" in
      if valid_content said then
        {| returned :=
             if answered then
               match final_answer_call fr with
               | Some final_answer_call => Ok (ReturnedCall final_answer_call)
               | None => Raise (KeyError "final_answer_call")
               end
             else Ok (ReturnedDict no_answer);
           self_after :=
             {| chat_history :=
                  chat_history self ++
                  [Human input;
                   AI {| am_content := said; am_tool_calls := [];
                         am_tool_call_id := None |}];
                max_iterations := max_iterations self |};
           published := queue (streamer_after run);
           trace := turns run;
           locals := Ok fr |}
      else
        {| returned := Raise (ToolFailure "ValidationError");
           self_after := self;
           published := queue (streamer_after run);
           trace := turns run;
           locals := Ok fr |}
  end.

(** ** The stream consumers *)

Definition step_header (tool_name : string) : string :=
  "<step><step_name>" +:+ tool_name +:+ "</step_name>".

(** The tool name and argument text [stream_generator] reads off a
    queued delta. *)
Definition generator_view (w : World) (msg : AIMessageChunk)
    : option string * option string :=
  let '(tool_name, tool_args) :=
    match tool_calls w msg with
    | tc :: _ =>
        (Some (tc_name tc),
         if bool_decide (tc_args tc = []) then None
         else Some (json_dumps w (tc_args tc)))
    | [] => (None, None)
    end in
  let '(tool_name, tool_args) :=
    match tool_call_chunks msg with
    | tc :: _ =>
        (if nonempty (tcc_name tc) then tcc_name tc else tool_name,
         if nonempty (tcc_args tc) then tcc_args tc else tool_args)
    | [] => (tool_name, tool_args)
    end in
  if negb (nonempty tool_name) && negb (nonempty tool_args) then
    match kw_tool_calls msg with
    | tc :: _ => (kw_function_name tc, kw_function_arguments tc)
    | [] => (tool_name, tool_args)
    end
  else (tool_name, tool_args).

(** What a delta makes a consumer yield: the step header when the
    delta names a tool, then the argument text when it carries some. *)
Definition fragments_of (tool_name tool_args : option string) : list string :=
  (if nonempty tool_name then [step_header (default "" tool_name)] else [])
  ++ (if nonempty tool_args then [default "" tool_args] else []).

(** [stream_generator] of [app.py], on the items that get published:
    the loop ends on [<<DONE>>], or on an empty queue once the task is
    done. [stream_response] of [lambda-code/lambda_handler.py] is the
    same loop, its fragments joined at the end. *)
Fixpoint stream_generator (w : World) (published : list QueueItem)
    (final_answer_started final_answer_complete : bool) : list string :=
  match published with
  | [] => []
  | token :: rest =>
      if is_str "<<DONE>>" token then []
      else if is_str "<<STEP_END>>" token then
        if negb final_answer_complete then
          "</step>" ::
          stream_generator w rest final_answer_started final_answer_started
        else stream_generator w rest final_answer_started final_answer_complete
      else if final_answer_complete then
        stream_generator w rest final_answer_started final_answer_complete
      else
        match token with
        | QChunk msg =>
            let '(tool_name, tool_args) := generator_view w msg in
            fragments_of tool_name tool_args ++
            stream_generator w rest
              (if nonempty tool_name
               then final_answer_started
                    || bool_decide (tool_name = Some "final_answer")
               else final_answer_started)
              final_answer_complete
        | QStr _ =>
            stream_generator w rest final_answer_started final_answer_complete
        end
  end.

(** The body of the [async for token in streamer] loop of
    [stream_response] in [application/api/lambda_handler.py]. *)
Definition response_fragments (token : QueueItem) : list string :=
  if is_str "<<STEP_END>>" token then ["</step>"]
  else
    match token with
    | QChunk msg =>
        match kw_tool_calls msg with
        | tc :: _ =>
            fragments_of (kw_function_name tc) (kw_function_arguments tc)
        | [] => []
        end
    | QStr _ => []
    end.

Definition stream_response (published : list QueueItem) : list string * Ending :=
  let '(tokens, ending) := aiter published in
  (tokens ≫= response_fragments, ending).

(** ** Scripted worlds

    Concrete worlds to run the program on: the model replays a script
    of deltas, one list per turn, and the argument texts it uses are
    parsed by table. *)

Definition dq : string := String "034"%char EmptyString.

(** The JSON text of a string literal and of a key with its value. *)
Definition jstr (s : string) : string := dq +:+ s +:+ dq.
Definition jfield (k v : string) : string := jstr k +:+ ": " +:+ v.

Fixpoint assoc {V} (k : string) (table : list (string * V)) : option V :=
  match table with
  | [] => None
  | (k', v) :: table' => if String.eqb k k' then Some v else assoc k table'
  end.

Definition scripted (table : list (string * Dict))
    (script : list (list AIMessageChunk))
    (bodies : string → Dict → Outcome Value) : World :=
  {| parse_args := λ text, assoc text table;
     json_dumps := λ _, "{...}";
     format_out := λ v, match v with VStr s => s | _ => "result" end;
     llm_astream := λ turn _ _ _, default [] (script !! turn);
     tool_body := λ _ _ name kwargs, bodies name kwargs;
     completion_order := λ _, [] |}.

(** ** Vocabulary of the statements *)

(** The text an optional string stands for. *)
Definition text (o : option string) : string := default "" o.

(** A delta whose one fragment continues the argument text of the
    pending call. *)
Definition continuation (piece : string) : AIMessageChunk :=
  {| content := "";
     tool_call_chunks :=
       [{| tcc_name := None; tcc_args := Some piece; tcc_id := None |}];
     kw_tool_calls := [] |}.

(** The pieces of an argument text, put together again. *)
Definition join (pieces : list string) : string := foldr String.append "" pieces.

(** The delta that opens [call], carrying the argument text [args] at
    once. *)
Definition with_args (opening : AIMessageChunk) (call : ToolCallChunk)
    (args : string) : AIMessageChunk :=
  {| content := content opening;
     tool_call_chunks :=
       [{| tcc_name := tcc_name call; tcc_args := Some args; tcc_id := tcc_id call |}];
     kw_tool_calls := kw_tool_calls opening |}.

(** A message as [stream] builds them: it has a first tool call, whose
    id is the id of the message. *)
Definition well_formed (m : AIMessage) : Prop :=
  ∃ tc rest, am_tool_calls m = tc :: rest ∧ am_tool_call_id m = tc_id tc.

(** The first tool call of the message is named [final_answer]. *)
Definition named_final (m : AIMessage) : bool :=
  match am_tool_calls m with
  | tc :: _ => String.eqb (tc_name tc) "final_answer"
  | [] => false
  end.

(** The [final_answer] call of a turn: the first tool call of the first
    message that is named so. *)
Definition first_final (calls : list AIMessage) : option ToolCall :=
  m ← List.find named_final calls; head (am_tool_calls m).

(** Every call followed by its own observation. *)
Definition entries (calls : list AIMessage) (obs : list ToolMessage)
    : list BaseMessage :=
  concat (zip_with (λ c o, [AI c; Tool o]) calls obs).

(** What a turn contributed to the scratchpad. *)
Definition turn_entries (t : Turn) : list BaseMessage :=
  match t_obs t with
  | Ok obs => entries (t_calls t) obs
  | Raise _ => []
  end.

(** The turn number [k] of an invocation: its calls are collected from
    its deltas, each call is run as one task, and the tasks are
    gathered. *)
Definition turn_at (w : World) (k : nat) (t : Turn) : Prop :=
  t_calls t = stream w (t_tokens t)
  ∧ t_tasks t = imap (execute_tool w k) (t_calls t)
  ∧ t_obs t = gather (completion_order w k) (outcome <$> t_tasks t).

Definition guard (self : CustomAgentExecutor) (fr : Frame) : Prop :=
  (Z.of_nat (count fr) < max_iterations self)%Z.

(** The shapes a run of the loop can have, iteration by iteration. *)
Inductive unrolls (w : World) (self : CustomAgentExecutor) (input : string)
    : nat → QueueCallbackHandler → Frame → Run Frame → Prop :=
| unrolls_exit fuel streamer fr :
    fuel = 0 ∨ ¬ guard self fr →
    unrolls w self input fuel streamer fr
      {| result := Ok fr; streamer_after := streamer; turns := [] |}
| unrolls_raise fuel streamer fr streamer' t e :
    guard self fr →
    iteration w self input streamer fr = (streamer', t, Raise e) →
    unrolls w self input (S fuel) streamer fr
      {| result := Raise e; streamer_after := streamer'; turns := [t] |}
| unrolls_break fuel streamer fr streamer' t fr' :
    guard self fr →
    iteration w self input streamer fr = (streamer', t, Ok (fr', true)) →
    unrolls w self input (S fuel) streamer fr
      {| result := Ok fr'; streamer_after := streamer'; turns := [t] |}
| unrolls_continue fuel streamer fr streamer' t fr' run :
    guard self fr →
    iteration w self input streamer fr = (streamer', t, Ok (fr', false)) →
    unrolls w self input fuel streamer' fr' run →
    unrolls w self input (S fuel) streamer fr
      {| result := result run; streamer_after := streamer_after run;
         turns := t :: turns run |}.

(** The frame after an iteration whose tools all returned: [found] is
    the [final_answer] call of the turn, if there is one. *)
Definition advance (fr : Frame) (scratchpad : list BaseMessage)
    (found : option ToolCall) : Frame * bool :=
  match found with
  | Some fc =>
      ({| count := S (count fr);
          final_answer := dict_get "answer" (tc_args fc);
          final_answer_call := Some fc;
          agent_scratchpad := scratchpad |}, true)
  | None =>
      ({| count := S (count fr);
          final_answer := final_answer fr;
          final_answer_call := final_answer_call fr;
          agent_scratchpad := scratchpad |}, false)
  end.

(** The message with its first tool call only. *)
Definition first_only (m : AIMessage) : AIMessage :=
  {| am_content := am_content m;
     am_tool_calls := take 1 (am_tool_calls m);
     am_tool_call_id := am_tool_call_id m |}.

(** A scratchpad made of adjacent pairs: each call of the list, in
    order, immediately followed by the observation that carries its id. *)
Inductive paired : list BaseMessage → list AIMessage → Prop :=
| paired_nil : paired [] []
| paired_cons c o scratchpad calls :
    am_tool_call_id c = Some (tm_tool_call_id o) →
    paired scratchpad calls →
    paired (AI c :: Tool o :: scratchpad) (c :: calls).

(** The delta makes the handler see the final answer. *)
Definition names_final_answer (w : World) (chunk : AIMessageChunk) : bool :=
  bool_decide (tool_name_of w chunk = Some "final_answer").

(** What the handler publishes for the turns of an invocation, given
    their deltas: [seen] says whether the final answer was seen before. *)
Fixpoint published_by (w : World) (seen : bool)
    (turns : list (list AIMessageChunk)) : list QueueItem :=
  match turns with
  | [] => []
  | tokens :: turns' =>
      let seen' := seen || existsb (names_final_answer w) tokens in
      (QChunk <$> tokens)
      ++ QStr (if seen' then "<<DONE>>" else "<<STEP_END>>")
      :: published_by w seen' turns'
  end.

(** The turns from the first one that has a delta naming the final
    answer. *)
Fixpoint from_first_named (w : World) (turns : list (list AIMessageChunk))
    : list (list AIMessageChunk) :=
  match turns with
  | [] => []
  | tokens :: turns' =>
      if existsb (names_final_answer w) tokens then turns
      else from_first_named w turns'
  end.

Definition dones (items : list QueueItem) : list QueueItem :=
  filter (λ item, is_str "<<DONE>>" item = true) items.

(** The items of a queue that come before its first [<<DONE>>]. *)
Fixpoint before_done (items : list QueueItem) : list QueueItem :=
  match items with
  | [] => []
  | item :: items' =>
      if is_str "<<DONE>>" item then [] else item :: before_done items'
  end.

(** The argument texts a consumer can read off a delta. *)
Definition argument_texts (w : World) (msg : AIMessageChunk) : list string :=
  (json_dumps w ∘ tc_args <$> tool_calls w msg)
  ++ omap tcc_args (tool_call_chunks msg)
  ++ omap kw_function_arguments (kw_tool_calls msg).

Definition sentinel (s : string) : Prop := s = "<<STEP_END>>" ∨ s = "<<DONE>>".

(** [QueueCallbackHandler(queue)] on a new queue. *)
Definition new_handler : QueueCallbackHandler :=
  {| queue := []; final_answer_seen := false |}.

(** ** Concrete invocations *)

(** [CustomAgentExecutor()], with the default budget of three. *)
Definition agent_executor : CustomAgentExecutor :=
  {| chat_history := []; max_iterations := 3 |}.

(** The delta that opens a tool call, with its id and name and no
    argument text yet. *)
Definition opening (id name : string) : AIMessageChunk :=
  {| content := "";
     tool_call_chunks :=
       [{| tcc_name := Some name; tcc_args := Some ""; tcc_id := Some id |}];
     kw_tool_calls := [] |}.

(** Addition on integers, for the worlds below. *)
Definition sum_body (name : string) (kwargs : Dict) : Outcome Value :=
  match dict_get "x" kwargs, dict_get "y" kwargs with
  | Some (VInt x), Some (VInt y) => Ok (VInt (x + y))
  | _, _ => Raise (TypeError "operands")
  end.

(** The argument texts of the calls below, and what they parse to. *)
Definition text_add : string :=
  "{" +:+ jfield "x" "2" +:+ ", " +:+ jfield "y" "3" +:+ "}".
Definition text_add_x : string := "{" +:+ jfield "x" "2" +:+ "}".
Definition text_answer (answer : string) : string :=
  "{" +:+ jfield "answer" (jstr answer) +:+ ", "
  +:+ jfield "tools_used" "[]" +:+ "}".
Definition text_answer_open : string := "{" +:+ jstr "answer" +:+ ": " +:+ dq.
Definition text_answer_close : string :=
  dq +:+ ", " +:+ jfield "tools_used" "[]" +:+ "}".

Definition table : list (string * Dict) :=
  [(text_add, [("x", VInt 2); ("y", VInt 3)]);
   (text_add_x, [("x", VInt 2)]);
   (text_answer "5", [("answer", VStr "5"); ("tools_used", VList [])]);
   (text_answer "", [("answer", VStr ""); ("tools_used", VList [])]);
   (text_answer "<<DONE>>",
    [("answer", VStr "<<DONE>>"); ("tools_used", VList [])]);
   (text_answer_open, [("answer", VStr "")])].

Definition add_2_3 (id : string) : list AIMessageChunk :=
  [opening id "add"; continuation text_add].

(** The model adds 2 and 3, then gives the answer 5. *)
Definition world_sum : World :=
  scripted table
    [add_2_3 "call_1";
     [opening "call_2" "final_answer"; continuation (text_answer "5")]]
    sum_body.

(** The model never selects the final answer. *)
Definition world_no_answer : World :=
  scripted table [add_2_3 "call_1"; add_2_3 "call_2"; add_2_3 "call_3";
                  add_2_3 "call_4"] sum_body.

(** The model gives an empty answer at once. *)
Definition world_empty_answer : World :=
  scripted table
    [[opening "call_1" "final_answer"; continuation (text_answer "")]]
    sum_body.

(** The model calls [add] twice in its first turn, the second time
    without [y]. *)
Definition world_failing : World :=
  scripted table
    [add_2_3 "call_1" ++ [opening "call_2" "add"; continuation text_add_x];
     [opening "call_3" "final_answer"; continuation (text_answer "5")]]
    sum_body.

(** The model gives the answer 5 and, in the same turn, calls [add]
    without [y]. *)
Definition world_failing_sibling : World :=
  scripted table
    [[opening "call_1" "final_answer"; continuation (text_answer "5");
      opening "call_2" "add"; continuation text_add_x]]
    sum_body.

(** The answer of the model is the text of a sentinel, and arrives as a
    piece of its own. *)
Definition world_sentinel_text : World :=
  scripted table
    [[opening "call_1" "final_answer"; continuation text_answer_open;
      continuation "<<DONE>>"; continuation text_answer_close]]
    sum_body.

(** One message that carries two tool calls, the second one named
    [final_answer]. *)
Definition two_calls : AIMessage :=
  {| am_content := VStr "";
     am_tool_calls :=
       [{| tc_name := "add"; tc_args := [("x", VInt 2); ("y", VInt 3)];
           tc_id := Some "call_1" |};
        {| tc_name := "final_answer";
           tc_args := [("answer", VStr "5"); ("tools_used", VList [])];
           tc_id := Some "call_2" |}];
     am_tool_call_id := Some "call_1" |}.

(** Case analysis on the members of a list that is given in full. *)
Ltac each_member Hin tac :=
  repeat (apply elem_of_cons in Hin as [->|Hin]; [tac |]);
  by apply elem_of_nil in Hin.

(** * The rest of the program *)

(** ** The search results *)

Record Article := {
  title : string;
  source : string;
  link : string;
  snippet : string;
}.

(** [value[key]] with a text as key: a dictionary gives the entry or
    raises [KeyError], no other value can be subscripted so. *)
Definition subscript (value : Value) (key : string) : Outcome Value :=
  match value with
  | VDict d =>
      match dict_get key d with
      | Some v => Ok v
      | None => Raise (KeyError key)
      end
  | _ => Raise (TypeError "subscript")
  end.

(** [Article.from_serpapi_result]: the four entries are read in the
    order of the call, then the model checks that they are texts. *)
Definition from_serpapi_result (result : Value) : Outcome Article :=
  title ←! subscript result "title";
  source ←! subscript result "source";
  link ←! subscript result "link";
  snippet ←! subscript result "snippet";
  match title, source, link, snippet with
  | VStr title, VStr source, VStr link, VStr snippet =>
      Ok {| title := title; source := source; link := link; snippet := snippet |}
  | _, _, _, _ => Raise (ToolFailure "ValidationError")
  end.

(** What a [for] gets out of a value: the elements of a list, the keys
    of a dictionary, the characters of a text. *)
Definition iterate (value : Value) : Outcome (list Value) :=
  match value with
  | VList l => Ok l
  | VDict d => Ok (VStr <$> dict_keys d)
  | VStr s => Ok ((λ a, VStr (String a EmptyString)) <$> String.list_ascii_of_string s)
  | _ => Raise (TypeError "iterate")
  end.

(** The last line of [serpapi], on the JSON document of the response:
    the articles of its [organic_results], the first failure otherwise. *)
Definition serpapi_return (results : Value) : Outcome (list Article) :=
  organic_results ←! subscript results "organic_results";
  elements ←! iterate organic_results;
  all_ok (from_serpapi_result <$> elements).

(** ** The consumer of [lambda-code/lambda_handler.py] *)

(** The [while True] loop of [stream_response], which appends to
    [result] what [stream_generator] yields. *)
Fixpoint stream_response_loop (w : World) (published : list QueueItem)
    (result : list string) (final_answer_started final_answer_complete : bool)
    : list string :=
  match published with
  | [] => result
  | token :: rest =>
      if is_str "<<DONE>>" token then result
      else if is_str "<<STEP_END>>" token then
        if negb final_answer_complete then
          stream_response_loop w rest (result ++ ["</step>"])
            final_answer_started final_answer_started
        else
          stream_response_loop w rest result
            final_answer_started final_answer_complete
      else if final_answer_complete then
        stream_response_loop w rest result
          final_answer_started final_answer_complete
      else
        match token with
        | QChunk msg =>
            let '(tool_name, tool_args) := generator_view w msg in
            stream_response_loop w rest
              (result ++ fragments_of tool_name tool_args)
              (if nonempty tool_name
               then final_answer_started
                    || bool_decide (tool_name = Some "final_answer")
               else final_answer_started)
              final_answer_complete
        | QStr _ =>
            stream_response_loop w rest result
              final_answer_started final_answer_complete
        end
  end.

(** [''.join(result)] *)
Definition joined (w : World) (published : list QueueItem) : string :=
  join (stream_response_loop w published [] false false).

(** ** The handler of [application/api/lambda_handler.py] *)

(** An entry of a JSON object as the handler meets it: the key is
    missing, or it is there with [null], or with a value of the type the
    event format gives it. *)
Inductive Entry (A : Type) : Type :=
| Missing
| Null
| Present (a : A).
Arguments Missing {A}.
Arguments Null {A}.
Arguments Present {A} a.

(** The event of a function URL, with the entries the handler reads. A
    query parameter is a text or [null]. *)
Record Http := { method : Entry string }.
Record RequestContext := { http : Entry Http }.
Record Event := {
  requestContext : Entry RequestContext;
  rawPath : Entry string;
  queryStringParameters : Entry (list (string * option string));
}.

(** A body is a flat dictionary put through [json.dumps], or a text. *)
Inductive Body : Type :=
| JsonBody (d : list (string * string))
| TextBody (s : string).

Record Response := {
  statusCode : Z;
  headers : list (string * string);
  body : Body;
}.

(** [event.get('requestContext', {}).get('http', {}).get('method', 'GET')]:
    the default stands in for a missing key only, so a [null] on the way
    has no [get], and a [null] method is the result, [None]. *)
Definition http_method (event : Event) : Outcome (option string) :=
  match requestContext event with
  | Missing => Ok (Some "GET")
  | Null => Raise (ToolFailure "AttributeError")
  | Present context =>
      match http context with
      | Missing => Ok (Some "GET")
      | Null => Raise (ToolFailure "AttributeError")
      | Present h =>
          Ok match method h with
             | Missing => Some "GET"
             | Null => None
             | Present m => Some m
             end
      end
  end.

(** [event.get('rawPath', '/')] *)
Definition path (event : Event) : option string :=
  match rawPath event with
  | Missing => Some "/"
  | Null => None
  | Present p => Some p
  end.

(** [query_params.get('content', '')] on
    [event.get('queryStringParameters', {}) or {}], as far as the test
    [if not content] tells the values apart: a missing or [null] content
    counts as the empty text. *)
Definition content_of (event : Event) : string :=
  match queryStringParameters event with
  | Present query_params =>
      match assoc "content" query_params with
      | Some (Some content) => content
      | _ => ""
      end
  | _ => ""
  end.

Definition json_headers : list (string * string) :=
  [("Content-Type", "application/json")].

(** [handler]: what it raises or the response, [None] when the handler
    never comes back because the reading of the queue never ends, and
    the module's executor afterwards. [str_of] is [str] on exceptions. *)
Definition handler (w : World) (str_of : Exn → string)
    (agent_executor : CustomAgentExecutor) (event : Event)
    : Outcome (option Response) * CustomAgentExecutor :=
  match http_method event with
  | Raise e => (Raise e, agent_executor)
  | Ok http_method =>
      if bool_decide (path event = Some "/health" ∧ http_method = Some "GET") then
        (Ok (Some {| statusCode := 200; headers := json_headers;
                     body := JsonBody [("status", "healthy")] |}),
         agent_executor)
      else if bool_decide (path event = Some "/invoke"
                           ∧ http_method = Some "POST") then
        let content := content_of event in
        if bool_decide (content = "") then
          (Ok (Some {| statusCode := 400; headers := json_headers;
                       body := JsonBody [("error", "content parameter required")] |}),
           agent_executor)
        else
          let inv := invoke w agent_executor content new_handler in
          let '(result, ending) := stream_response (published inv) in
          (Ok match ending, returned inv with
              | Polling, _ => None
              | Finished, Ok _ =>
                  Some {| statusCode := 200;
                          headers := [("Content-Type", "text/event-stream");
                                      ("Cache-Control", "no-cache");
                                      ("Access-Control-Allow-Origin", "*");
                                      ("Access-Control-Allow-Methods", "*");
                                      ("Access-Control-Allow-Headers", "*")];
                          body := TextBody (join result) |}
              | Finished, Raise e =>
                  Some {| statusCode := 500; headers := json_headers;
                          body := JsonBody [("error", str_of e)] |}
              end,
           self_after inv)
      else
        (Ok (Some {| statusCode := 404; headers := json_headers;
                     body := JsonBody [("error", "Not found")] |}),
         agent_executor)
  end.

(** ** The handler of [lambda-code/lambda_handler.py] *)

Module LambdaCode.

(** [handler]. Its [stream_response] leaves the loop at [<<DONE>>], or
    on an empty queue once the task is done; only in the first case can
    the task still be running, which [running] says, and only then is
    the task awaited and its exception seen. *)
Definition handler (w : World) (str_of : Exn → string) (running : bool)
    (agent_executor : CustomAgentExecutor) (event : Event)
    : Outcome Response * CustomAgentExecutor :=
  match http_method event with
  | Raise e => (Raise e, agent_executor)
  | Ok http_method =>
      if bool_decide (path event = Some "/health" ∧ http_method = Some "GET") then
        (Ok {| statusCode := 200; headers := json_headers;
               body := JsonBody [("status", "healthy")] |},
         agent_executor)
      else if bool_decide (path event = Some "/invoke"
                           ∧ http_method = Some "POST") then
        let content := content_of event in
        if bool_decide (content = "") then
          (Ok {| statusCode := 400; headers := json_headers;
                 body := JsonBody [("error", "content parameter required")] |},
           agent_executor)
        else
          let inv := invoke w agent_executor content new_handler in
          let awaited := existsb (is_str "<<DONE>>") (published inv) && running in
          (Ok match awaited, returned inv with
              | true, Raise e =>
                  {| statusCode := 500; headers := json_headers;
                     body := JsonBody [("error", str_of e)] |}
              | _, _ =>
                  {| statusCode := 200;
                     headers := [("Content-Type", "text/plain");
                                 ("Cache-Control", "no-cache")];
                     body := TextBody (joined w (published inv)) |}
              end,
           self_after inv)
      else
        (Ok {| statusCode := 404; headers := json_headers;
               body := JsonBody [("error", "Not found")] |},
         agent_executor)
  end.

End LambdaCode.

(** ** The secrets of the parameter store *)

(** [s.split(sep)] for a separator of one character. *)
Fixpoint split_on (sep : ascii) (s : string) : list string :=
  match s with
  | EmptyString => [""]
  | String a rest =>
      if Ascii.eqb a sep then "" :: split_on sep rest
      else
        match split_on sep rest with
        | segment :: segments => String a segment :: segments
        | [] => [String a ""]
        end
  end.

(** [name.split('/')[-1]] *)
Definition last_segment (name : string) : string :=
  default "" (last (split_on "/" name)).

Fixpoint has_char (a : ascii) (s : string) : bool :=
  match s with
  | EmptyString => false
  | String b rest => Ascii.eqb b a || has_char a rest
  end.

(** [os.environ[name] = value]: a name that is empty or holds [=] or a
    null character is refused, and so is a value with a null
    character. *)
Definition legal (name value : string) : bool :=
  negb (String.eqb name "") && negb (has_char "=" name)
  && negb (has_char "000" name) && negb (has_char "000" value).

Definition setenv (environ : gmap string string) (name value : string)
    : Outcome (gmap string string) :=
  if legal name value then Ok (<[name := value]> environ)
  else Raise (ToolFailure "ValueError").

(** The body of the [for] loop of [get_ssm_parameters]. *)
Definition set_parameter (environ : gmap string string) (param : Value)
    : Outcome (gmap string string) :=
  full ←! subscript param "Name";
  match full with
  | VStr full =>
      let name := last_segment full in
      value ←! subscript param "Value";
      match value with
      | VStr value => setenv environ name value
      | _ => Raise (TypeError "str expected")
      end
  | _ => Raise (ToolFailure "AttributeError")
  end.

(** The loop, inside its [try]: the first exception ends it, and what
    was set stays set. *)
Fixpoint set_parameters (environ : gmap string string) (params : list Value)
    : gmap string string :=
  match params with
  | [] => environ
  | param :: rest =>
      match set_parameter environ param with
      | Ok environ' => set_parameters environ' rest
      | Raise _ => environ
      end
  end.

(** [get_ssm_parameters], given how [boto3.client] and
    [ssm.get_parameters] end: the environment afterwards, or the
    exception of the client, which no [try] covers. *)
Definition get_ssm_parameters (environ : gmap string string)
    (client : Outcome ()) (get_parameters : Outcome Value)
    : Outcome (gmap string string) :=
  if nonempty (environ !! "AWS_EXECUTION_ENV") then
    _ ←! client;
    Ok match (response ←! get_parameters;
              parameters ←! subscript response "Parameters";
              iterate parameters) with
       | Ok params => set_parameters environ params
       | Raise _ => environ
       end
  else Ok environ.

(** ** More vocabulary *)

(** [sep.join(segments)] *)
Fixpoint join_with (sep : string) (segments : list string) : string :=
  match segments with
  | [] => ""
  | segment :: rest =>
      match rest with
      | [] => segment
      | _ :: _ => segment +:+ sep +:+ join_with sep rest
      end
  end.

(** What the loop does with parameters that are all accepted. *)
Definition store (environ : gmap string string)
    (params : list (string * string)) : gmap string string :=
  foldl (λ environ p, <[last_segment p.1 := p.2]> environ) environ params.

(** The delta opens an output of the collector. *)
Definition opens (w : World) (token : AIMessageChunk) : bool :=
  match chunk_or_call w token with
  | Some fragment => has_id fragment || has_name fragment
  | None => false
  end.

(** The value of the last item with the key, in a list of items. *)
Definition last_value {K V} `{EqDecision K} (k : K) (items : list (K * V))
    : option V :=
  snd <$> last (filter (λ kv, kv.1 = k) items).

(** The delta with its [additional_kwargs] only. *)
Definition old_format (item : QueueItem) : QueueItem :=
  match item with
  | QChunk msg =>
      QChunk {| content := ""; tool_call_chunks := [];
                kw_tool_calls := kw_tool_calls msg |}
  | QStr s => QStr s
  end.

(** What a client of [stream_generator] is to see for the turns of an
    invocation, given their deltas: the fragments of each turn, closed
    by [</step>] unless the turn names the final answer, which ends the
    stream. *)
Fixpoint streamed (w : World) (turns : list (list AIMessageChunk))
    : list string :=
  match turns with
  | [] => []
  | tokens :: turns' =>
      (tokens ≫= λ msg, fragments_of (generator_view w msg).1
                                      (generator_view w msg).2)
      ++ if existsb (names_final_answer w) tokens then []
         else "</step>" :: streamed w turns'
  end.

(** ** More concrete inputs *)

(** A message with one tool call. *)
Definition one_call (name : string) (args : Dict) (id : option string)
    : AIMessage :=
  {| am_content := VStr "";
     am_tool_calls := [{| tc_name := name; tc_args := args; tc_id := id |}];
     am_tool_call_id := id |}.

(** A call of a tool that does not exist. *)
Definition unknown_call : AIMessage :=
  one_call "divide" [("x", VInt 6); ("y", VInt 3)] (Some "call_1").

(** A call of [final_answer]. *)
Definition answer_call : AIMessage :=
  one_call "final_answer" [("answer", VStr "5"); ("tools_used", VList [])]
    (Some "call_2").

(** The observation of a call. *)
Definition observation (content : string) (id : string) : ToolMessage :=
  {| tm_content := content; tm_tool_call_id := id |}.

(** The deltas of a step that gives the answer 5, as queued. *)
Definition answer_step : list QueueItem :=
  [QChunk (opening "call_2" "final_answer");
   QChunk (continuation (text_answer "5"))].

(** A search response with two results, and one whose second result
    has no snippet. *)
Definition result_of (entries : list (string * string)) : Value :=
  VDict (prod_map id VStr <$> entries).

Definition good_results : Value :=
  VDict [("organic_results",
          VList [result_of [("position", "1"); ("title", "Rocq");
                            ("source", "rocq-prover.org");
                            ("link", "https://rocq-prover.org");
                            ("snippet", "A proof assistant")];
                 result_of [("title", "Python"); ("link", "https://python.org");
                            ("source", "python.org");
                            ("snippet", "A language")]])].

Definition bad_results : Value :=
  VDict [("organic_results",
          VList [result_of [("title", "Rocq"); ("source", "rocq-prover.org");
                            ("link", "https://rocq-prover.org");
                            ("snippet", "A proof assistant")];
                 result_of [("title", "Python"); ("source", "python.org");
                            ("link", "https://python.org")]])].

(** Events of a function URL. *)
Definition event_of (verb route : string) (query : list (string * string))
    : Event :=
  {| requestContext := Present {| http := Present {| method := Present verb |} |};
     rawPath := Present route;
     queryStringParameters := Present (prod_map id Some <$> query) |}.

(** The parameter of a response, and the response. *)
Definition parameter (name value : string) : Value :=
  VDict [("Name", VStr name); ("Value", VStr value)].

Definition response_of (params : list (string * string)) : Value :=
  VDict [("Parameters", VList (uncurry parameter <$> params));
         ("InvalidParameters", VList [])].

Definition lambda_environ : gmap string string :=
  {[ "AWS_EXECUTION_ENV" := "AWS_Lambda_python3.12" ]}.

(** ** Turns with several calls *)

(** The text of a result: [f"{tool_out}"] for a text and for an
    integer. *)
Definition show (v : Value) : string :=
  match v with
  | VStr s => s
  | VInt z => pretty z
  | _ => "result"
  end.

(** The world in which results are shown so, and in which the second
    task of a batch finishes before the first. *)
Definition reordered (w : World) : World :=
  {| parse_args := parse_args w;
     json_dumps := json_dumps w;
     format_out := show;
     llm_astream := llm_astream w;
     tool_body := tool_body w;
     completion_order := λ _, [1; 0] |}.

Definition text_add_4 : string :=
  "{" +:+ jfield "x" "2" +:+ ", " +:+ jfield "y" "4" +:+ "}".

(** The model adds 2 and 3 and, in the same turn, 2 and 4, then gives
    the answer; [id] is the id of the second call. *)
Definition two_adds (id : string) : World :=
  reordered
    (scripted ((text_add_4, [("x", VInt 2); ("y", VInt 4)]) :: table)
       [[opening "call_1" "add"; continuation text_add;
         opening id "add"; continuation text_add_4];
        [opening "call_3" "final_answer"; continuation (text_answer "5")]]
       sum_body).

(** The two calls have ids of their own. *)
Definition world_two_adds : World := two_adds "call_2".

(** The two calls come with the same id. *)
Definition world_same_id : World := two_adds "call_1".

(** The messages of its two calls. *)
Definition same_id_calls : list AIMessage :=
  [one_call "add" [("x", VInt 2); ("y", VInt 3)] (Some "call_1");
   one_call "add" [("x", VInt 2); ("y", VInt 4)] (Some "call_1")].

(** The model calls [final_answer] in its second turn, after a turn in
    which a delta names it with an argument text that is no JSON, so
    that the collected output has no tool call and gives no message. *)
Definition world_named_early : World :=
  scripted table
    [[opening "call_1" "final_answer"; continuation "answer: 5"];
     [opening "call_2" "final_answer"; continuation (text_answer "5")]]
    sum_body.

(** * Properties *)

(** ** Strings and lists *)

Lemma string_app_nil_r (s : string) : s +:+ "" = s.
Proof.
  induction s as [|a s IH]; [done |].
  change (String a (s +:+ "") = String a s). by rewrite IH.
Qed.

Lemma string_app_assoc (a b c : string) : (a +:+ b) +:+ c = a +:+ (b +:+ c).
Proof.
  induction a as [|x a IH]; [done |].
  change (String x ((a +:+ b) +:+ c) = String x (a +:+ (b +:+ c))). by rewrite IH.
Qed.

Lemma alter_last {A} (f : A → A) (before : list A) (x : A) :
  alter f (pred (length (before ++ [x]))) (before ++ [x]) = before ++ [f x].
Proof.
  rewrite length_app. simpl. replace (pred (length before + 1)) with (length before + 0) by lia.
  by rewrite alter_app_r.
Qed.

(** ** The stream collector *)

Lemma collect_snoc w tokens token :
  collect w (tokens ++ [token]) = stream_step w (collect w tokens) token.
Proof. unfold collect. by rewrite foldl_app. Qed.

Lemma merge_text_text a b : text (merge_text a b) = text a +:+ text b.
Proof. destruct a, b; simpl; by rewrite ?string_app_nil_r. Qed.

Lemma nonempty_text o : nonempty o = negb (String.eqb (text o) "").
Proof. by destruct o. Qed.

Lemma merge_text_closed a b : nonempty b = false → text (merge_text a b) = text a.
Proof.
  rewrite merge_text_text, nonempty_text. intros H%negb_false_iff%String.eqb_eq.
  by rewrite H, string_app_nil_r.
Qed.

(** C6. Whatever deltas came before, a delta whose first fragment has a
    nonempty id or a nonempty name is appended as a new output. A delta
    whose first fragment has neither is dropped when there is no output
    yet; otherwise it is added to the last output, the most recently
    started one: the argument text of its fragment is appended to the
    argument text of the pending call, whose name and id stay. *)
Theorem stream_collector_cases w tokens token fragment :
  chunk_or_call w token = Some fragment →
  (has_id fragment || has_name fragment = true →
     collect w (tokens ++ [token]) = collect w tokens ++ [token])
  ∧ (has_id fragment || has_name fragment = false →
     (collect w tokens = [] → collect w (tokens ++ [token]) = [])
     ∧ (∀ before pending, collect w tokens = before ++ [pending] →
          collect w (tokens ++ [token]) = before ++ [chunk_add pending token]
          ∧ ∀ started call c more,
              tool_call_chunks pending = started ++ [call] →
              tool_call_chunks token = c :: more →
              tool_call_chunks (chunk_add pending token)
                = foldl (absorb opens_call merge_chunk)
                        (started ++ [merge_chunk call c]) more
              ∧ text (tcc_args (merge_chunk call c))
                = text (tcc_args call) +:+ text (tcc_args c)
              ∧ text (tcc_name (merge_chunk call c)) = text (tcc_name call)
              ∧ text (tcc_id (merge_chunk call c)) = text (tcc_id call))).
Proof.
  intros Hfrag. rewrite collect_snoc. unfold stream_step. rewrite Hfrag.
  split; [by intros -> |]. intros Hcont. rewrite Hcont. split.
  - by intros ->.
  - intros before pending Hout. rewrite Hout.
    destruct (before ++ [pending]) as [|x l] eqn:E.
    { by destruct before. }
    rewrite <- E, alter_last. split; [done |].
    intros started call c more Hpend Htok.
    assert (fragment = FChunk c) as ->.
    { unfold chunk_or_call in Hfrag. rewrite Htok in Hfrag. congruence. }
    simpl in Hcont. apply orb_false_iff in Hcont as [Hid Hname].
    split; [| split; [apply merge_text_text | split; by apply merge_text_closed]].
    unfold chunk_add. simpl. rewrite Hpend, Htok. simpl.
    replace (absorb opens_call merge_chunk (started ++ [call]) c)
      with (started ++ [merge_chunk call c]); [done |].
    unfold absorb, opens_call. rewrite Hid, Hname. simpl.
    rewrite bool_decide_eq_false_2 by (by destruct started).
    by rewrite alter_last.
Qed.

(** ** Argument text in pieces *)

Lemma merge_text_None a : merge_text a None = a.
Proof. by destruct a. Qed.

Lemma chunk_add_continuation x c piece :
  tool_call_chunks x = [c] →
  chunk_add x (continuation piece) =
  {| content := content x;
     tool_call_chunks :=
       [{| tcc_name := tcc_name c;
           tcc_args := merge_text (tcc_args c) (Some piece);
           tcc_id := tcc_id c |}];
     kw_tool_calls := kw_tool_calls x |}.
Proof.
  intros Hx. unfold chunk_add. rewrite Hx. simpl. rewrite string_app_nil_r.
  unfold absorb, merge_chunk. simpl. by rewrite !merge_text_None.
Qed.

Lemma stream_step_continuation w x outputs piece :
  stream_step w (outputs ++ [x]) (continuation piece)
  = outputs ++ [chunk_add x (continuation piece)].
Proof.
  unfold stream_step, chunk_or_call. simpl.
  destruct (outputs ++ [x]) eqn:E; [by destruct outputs |].
  rewrite <- E. by rewrite alter_last.
Qed.

Lemma collect_continuations w x pieces :
  foldl (stream_step w) [x] (continuation <$> pieces)
  = [foldl chunk_add x (continuation <$> pieces)].
Proof.
  revert x. induction pieces as [|p ps IH]; intros x; [done |].
  simpl. rewrite (stream_step_continuation w x []). apply IH.
Qed.

Lemma complete_call_text w c c' :
  tcc_name c = tcc_name c' → tcc_id c = tcc_id c' →
  text (tcc_args c) = text (tcc_args c') →
  complete_call w c = complete_call w c'.
Proof.
  intros Hn Hi Ha. unfold complete_call.
  rewrite !nonempty_text. fold (text (tcc_args c)). fold (text (tcc_args c')).
  by rewrite Hn, Hi, Ha.
Qed.

Lemma to_message_continuations w x c pieces :
  tool_call_chunks x = [c] →
  to_message w (foldl chunk_add x (continuation <$> pieces))
  = to_message w (with_args x c (text (tcc_args c) +:+ join pieces)).
Proof.
  revert x c. induction pieces as [|p ps IH]; intros x c Hx.
  - simpl. unfold to_message, tool_calls, with_args. rewrite Hx. simpl.
    rewrite (complete_call_text w c
      {| tcc_name := tcc_name c; tcc_args := Some (text (tcc_args c) +:+ "");
         tcc_id := tcc_id c |}); [done | done | done |].
    simpl. by rewrite string_app_nil_r.
  - simpl. rewrite (chunk_add_continuation x c p Hx).
    erewrite IH by done. unfold with_args. simpl.
    by rewrite merge_text_text, string_app_assoc.
Qed.

Lemma chunks_continuations x c pieces :
  tool_call_chunks x = [c] →
  ∃ c', tool_call_chunks (foldl chunk_add x (continuation <$> pieces)) = [c']
        ∧ tcc_name c' = tcc_name c ∧ tcc_id c' = tcc_id c
        ∧ text (tcc_args c') = text (tcc_args c) +:+ join pieces.
Proof.
  revert x c. induction pieces as [|p ps IH]; intros x c Hx.
  - exists c. simpl. by rewrite string_app_nil_r.
  - simpl. rewrite (chunk_add_continuation x c p Hx).
    destruct (IH {| content := content x;
                    tool_call_chunks :=
                      [{| tcc_name := tcc_name c;
                          tcc_args := merge_text (tcc_args c) (Some p);
                          tcc_id := tcc_id c |}];
                    kw_tool_calls := kw_tool_calls x |}
                 {| tcc_name := tcc_name c;
                    tcc_args := merge_text (tcc_args c) (Some p);
                    tcc_id := tcc_id c |} eq_refl) as (c' & Hc' & Hn & Hi & Ha).
    exists c'. simpl in *. split; [exact Hc' |]. split; [done |]. split; [done |].
    by rewrite Ha, merge_text_text, string_app_assoc.
Qed.

(** C8. However the argument text of a tool call is cut into pieces,
    the opening delta followed by one continuation per piece is
    collected into one output, whose one fragment has the name and the
    id of the opening fragment and, as argument text, the text of the
    opening fragment followed by the pieces in order. When this text
    parses, the turn gives one message, with one tool call of that
    name, that id and the arguments the whole text parses to; when it
    does not, the turn gives no message. This is what the opening delta
    followed by the whole text in one continuation gives, and what one
    delta that opens the call with the whole text gives. *)
Theorem fragments_concatenate w opening call pieces :
  tool_call_chunks opening = [call] →
  opens_call call = true →
  (∃ x c, collect w (opening :: (continuation <$> pieces)) = [x]
          ∧ tool_call_chunks x = [c]
          ∧ tcc_name c = tcc_name call ∧ tcc_id c = tcc_id call
          ∧ text (tcc_args c) = text (tcc_args call) +:+ join pieces)
  ∧ stream w (opening :: (continuation <$> pieces))
    = match (if String.eqb (text (tcc_args call) +:+ join pieces) ""
             then Some []
             else parse_args w (text (tcc_args call) +:+ join pieces)) with
      | Some args =>
          [{| am_content := VStr (content opening);
              am_tool_calls :=
                [{| tc_name := text (tcc_name call);
                    tc_args := args;
                    tc_id := tcc_id call |}];
              am_tool_call_id := tcc_id call |}]
      | None => []
      end
  ∧ stream w (opening :: (continuation <$> pieces))
    = stream w [opening; continuation (join pieces)]
  ∧ stream w (opening :: (continuation <$> pieces))
    = stream w [with_args opening call (text (tcc_args call) +:+ join pieces)].
Proof.
  intros Hop Hopens.
  assert (∀ o c, tool_call_chunks o = [c] → opens_call c = true →
            collect w [o] = [o]) as Hone.
  { intros o c Ho Hc. unfold collect. simpl. unfold stream_step, chunk_or_call.
    rewrite Ho. simpl. unfold opens_call in Hc. by rewrite Hc. }
  assert (∀ ps, collect w (opening :: (continuation <$> ps))
                = [foldl chunk_add opening (continuation <$> ps)]) as Hcollect.
  { intros ps.
    change (collect w (opening :: (continuation <$> ps)))
      with (foldl (stream_step w) (collect w [opening]) (continuation <$> ps)).
    by rewrite (Hone opening call Hop Hopens), collect_continuations. }
  assert (∀ ps, stream w (opening :: (continuation <$> ps))
    = stream w [with_args opening call (text (tcc_args call) +:+ join ps)]) as H.
  { intros ps. unfold stream.
    rewrite (Hone (with_args _ _ _) _ eq_refl) by done.
    rewrite Hcollect. simpl.
    by rewrite (to_message_continuations w opening call ps Hop). }
  split; [| split; [| split; [| apply H]]].
  - destruct (chunks_continuations opening call pieces Hop) as (c & Hc & Hrest).
    eexists _, c. split; [apply Hcollect |]. by split.
  - rewrite H. unfold stream.
    rewrite (Hone (with_args _ _ _) _ eq_refl) by done.
    simpl. unfold to_message, tool_calls, with_args. simpl.
    unfold complete_call. simpl.
    destruct (String.eqb _ ""); simpl; [done |].
    by destruct (parse_args w _).
  - rewrite H.
    change [opening; continuation (join pieces)]
      with (opening :: (continuation <$> [join pieces])).
    rewrite H. simpl. by rewrite string_app_nil_r.
Qed.

(** ** Gathering *)

Lemma all_ok_Ok {A} (results : list (Outcome A)) l :
  all_ok results = Ok l ↔ results = Ok <$> l.
Proof.
  revert l. induction results as [|r rs IH]; intros l; simpl.
  - split; [intros [= <-]; done | by destruct l].
  - destruct r as [a|e]; simpl.
    + destruct (all_ok rs) as [l'|e] eqn:E; simpl.
      * split.
        -- intros [= <-]. simpl. f_equal. by apply IH.
        -- destruct l as [|a' l]; [done |]. intros [= -> H]. f_equal. f_equal.
           apply IH in H. congruence.
      * split; [done |]. destruct l as [|a' l]; [done |]. intros [= -> H].
        apply IH in H. done.
    + split; [done | by destruct l].
Qed.

Lemma all_ok_Raise {A} (results : list (Outcome A)) e :
  all_ok results = Raise e → Raise e ∈ results.
Proof.
  induction results as [|r rs IH]; simpl; [done |].
  destruct r as [a|e']; simpl.
  - destruct (all_ok rs) eqn:E; simpl; [done |]. intros [= ->].
    apply elem_of_cons. right. by apply IH.
  - intros [= ->]. apply elem_of_cons. by left.
Qed.

Lemma first_raise_Some {A} order (results : list (Outcome A)) e :
  first_raise order results = Some e → Raise e ∈ results.
Proof.
  induction order as [|i order IH]; simpl; [done |].
  destruct (results !! i) as [[a|e']|] eqn:E; [done | | done].
  intros [= ->]. by eapply list_elem_of_lookup_2.
Qed.

Lemma first_raise_None {A} order (l : list A) :
  first_raise order (Ok <$> l) = None.
Proof.
  induction order as [|i order IH]; simpl; [done |].
  rewrite list_lookup_fmap. by destruct (l !! i).
Qed.

Lemma gather_Ok {A} order (results : list (Outcome A)) l :
  gather order results = Ok l ↔ results = Ok <$> l.
Proof.
  unfold gather. split.
  - destruct (first_raise order results); [done |]. apply all_ok_Ok.
  - intros ->. rewrite first_raise_None. by apply all_ok_Ok.
Qed.

Lemma gather_Raise {A} order (results : list (Outcome A)) e :
  gather order results = Raise e → Raise e ∈ results.
Proof.
  unfold gather. destruct (first_raise order results) as [e'|] eqn:E.
  - intros [= ->]. by eapply first_raise_Some.
  - apply all_ok_Raise.
Qed.

Lemma gather_fails {A} order (results : list (Outcome A)) e :
  Raise e ∈ results → ∃ e', gather order results = Raise e'.
Proof.
  intros Hin. destruct (gather order results) as [l|e'] eqn:E; [| by eexists].
  apply gather_Ok in E. subst. apply list_elem_of_fmap in Hin as (? & ? & ?). done.
Qed.

(** ** Dictionaries *)

Lemma dict_of_snoc `{Countable K} {V} (items : list (K * V)) k v :
  dict_of (items ++ [(k, v)]) = <[k := v]> (dict_of items).
Proof. unfold dict_of. by rewrite foldl_app. Qed.

Lemma dict_of_is_Some `{Countable K} {V} (items : list (K * V)) k :
  k ∈ items.*1 → is_Some (dict_of items !! k).
Proof.
  induction items as [|[k' v] items IH] using rev_ind; [by intros ?%elem_of_nil |].
  rewrite fmap_app, elem_of_app, dict_of_snoc. simpl.
  destruct (decide (k' = k)) as [->|Hne].
  - rewrite lookup_insert_eq. by eexists.
  - rewrite lookup_insert_ne by done. intros [?|Hin]; [by apply IH |].
    apply list_elem_of_singleton in Hin. congruence.
Qed.

Lemma dict_of_lookup `{Countable K} {V} (items : list (K * V)) i k v :
  NoDup items.*1 → items !! i = Some (k, v) → dict_of items !! k = Some v.
Proof.
  revert i. induction items as [|[k' v'] items IH] using rev_ind; intros i; [done |].
  rewrite fmap_app, dict_of_snoc. simpl. intros [Hnd [Hnot _]]%NoDup_app Hi.
  destruct (decide (i < length items)) as [Hlt|Hge].
  - rewrite lookup_app_l in Hi by done.
    assert (k ∈ items.*1).
    { apply list_elem_of_fmap. exists (k, v). split; [done |].
      by eapply list_elem_of_lookup_2. }
    rewrite lookup_insert_ne.
    + by eapply IH.
    + intros ->. eapply Hnot; [done |]. apply elem_of_cons. by left.
  - rewrite lookup_app_r in Hi by lia.
    destruct (i - length items) as [|n]; [| done].
    injection Hi as [= -> ->]. by rewrite lookup_insert_eq.
Qed.

(** ** The registry *)

Lemma name2tool_final_answer w :
  name2tool w !! "final_answer" = Some Tools.final_answer.
Proof. reflexivity. Qed.

Lemma name2tool_lookup w name f :
  name2tool w !! name = Some f →
  (name, f) ∈ tools w.
Proof.
  unfold name2tool, dict_of, tools. simpl.
  repeat (rewrite lookup_insert; case_decide; [intros [= <-]; subst; set_solver |]).
  by rewrite lookup_empty.
Qed.

(** ** Collected messages *)

Lemma to_message_well_formed w x m : to_message w x = Some m → well_formed m.
Proof.
  unfold to_message. destruct (tool_calls w x) as [|tc rest] eqn:E; [done |].
  intros [= <-]. by exists tc, rest.
Qed.

Lemma stream_well_formed w tokens : Forall well_formed (stream w tokens).
Proof.
  apply Forall_forall. intros m (x & _ & Hx)%list_elem_of_omap.
  by eapply to_message_well_formed.
Qed.

Lemma named_final_head m tc rest :
  am_tool_calls m = tc :: rest →
  named_final m = String.eqb (tc_name tc) "final_answer".
Proof. unfold named_final. by intros ->. Qed.

Lemma first_final_None calls :
  first_final calls = None ↔ existsb named_final calls = false.
Proof.
  unfold first_final. induction calls as [|m calls IH]; simpl; [done |].
  destruct (named_final m) eqn:E; simpl; [| done].
  unfold named_final in E. destruct (am_tool_calls m); done.
Qed.

(** ** One task *)

Lemma dict_get_is_Some k (d : Dict) : k ∈ dict_keys d → is_Some (dict_get k d).
Proof.
  unfold dict_keys. induction d as [|[k' v] d IH]; simpl; [by intros ?%elem_of_nil |].
  destruct (String.eqb_spec k k') as [->|Hne]; [by eexists |].
  intros [?|?]%elem_of_cons; [done | by apply IH].
Qed.

Lemma execute_tool_final_answer w k i m tc rest o :
  am_tool_calls m = tc :: rest →
  tc_name tc = "final_answer" →
  outcome (execute_tool w k i m) = Ok o →
  is_Some (dict_get "answer" (tc_args tc)).
Proof.
  intros Hm Hname. unfold execute_tool. rewrite Hm, Hname, name2tool_final_answer.
  simpl. unfold call. destruct (binds _ _); [| done]. simpl.
  destruct (dict_get "answer" (tc_args tc)); [by eexists | done].
Qed.

Lemma execute_tool_id w k i m tc rest o :
  am_tool_calls m = tc :: rest →
  outcome (execute_tool w k i m) = Ok o →
  tc_id tc = Some (tm_tool_call_id o).
Proof.
  intros Hm. unfold execute_tool. rewrite Hm.
  destruct (name2tool w !! tc_name tc); [| done]. simpl.
  destruct (call _ _ _ _); simpl; [| done].
  destruct (tc_id tc); [| done]. by intros [= <-].
Qed.

(** ** The scan and the scratchpad *)

Lemma find_final_answer_spec calls :
  Forall well_formed calls →
  (∀ m tc rest, m ∈ calls → am_tool_calls m = tc :: rest →
     tc_name tc = "final_answer" → is_Some (dict_get "answer" (tc_args tc))) →
  match first_final calls with
  | Some fc =>
      ∃ answer, dict_get "answer" (tc_args fc) = Some answer
                ∧ find_final_answer calls = Ok (Some (fc, answer))
  | None => find_final_answer calls = Ok None
  end.
Proof.
  unfold first_final.
  induction calls as [|m calls IH]; intros Hwf Hans; simpl; [done |].
  apply Forall_cons in Hwf as [(tc & rest & Hm & _) Hwf].
  rewrite (named_final_head m tc rest Hm), Hm.
  destruct (String.eqb_spec (tc_name tc) "final_answer") as [Hname|Hname]; simpl.
  - rewrite Hm. simpl.
    destruct (Hans m tc rest) as [a Ha]; [apply elem_of_cons; by left | done..|].
    rewrite Ha. by exists a.
  - apply IH; [done |]. intros m' tc' rest' Hin. apply Hans.
    apply elem_of_cons. by right.
Qed.

Lemma entries_cons c calls o obs :
  entries (c :: calls) (o :: obs) = [AI c; Tool o] ++ entries calls obs.
Proof. done. Qed.

Lemma extend_scratchpad_entries id2tool_obs calls obs sp :
  length calls ≤ length obs →
  (∀ i c o, calls !! i = Some c → obs !! i = Some o →
     id2tool_obs !! am_tool_call_id c = Some o) →
  extend_scratchpad id2tool_obs calls sp = Ok (sp ++ entries calls obs).
Proof.
  revert obs sp. induction calls as [|c calls IH]; intros obs sp Hlen Hid; simpl.
  - unfold entries. simpl. by rewrite app_nil_r.
  - destruct obs as [|o obs]; simpl in Hlen; [lia |].
    rewrite (Hid 0 c o) by done. rewrite entries_cons, app_assoc.
    apply IH; [lia |]. intros i c' o'. apply (Hid (S i)).
Qed.

Lemma extend_scratchpad_total id2tool_obs calls sp :
  (∀ c, c ∈ calls → is_Some (id2tool_obs !! am_tool_call_id c)) →
  ∃ sp', extend_scratchpad id2tool_obs calls sp = Ok sp'.
Proof.
  revert sp. induction calls as [|c calls IH]; intros sp Hid; simpl; [by eexists |].
  destruct (Hid c) as [o ->]; [apply elem_of_cons; by left |].
  apply IH. intros c' Hin. apply Hid. apply elem_of_cons. by right.
Qed.

(** ** One iteration *)

Lemma tasks_lookup w k calls obs i c :
  outcome <$> imap (execute_tool w k) calls = Ok <$> obs →
  calls !! i = Some c →
  ∃ o, obs !! i = Some o ∧ outcome (execute_tool w k i c) = Ok o.
Proof.
  intros Heq Hc.
  assert ((outcome <$> imap (execute_tool w k) calls) !! i
          = Some (outcome (execute_tool w k i c))) as Hi.
  { by rewrite list_lookup_fmap, list_lookup_imap, Hc. }
  rewrite Heq, list_lookup_fmap in Hi.
  destruct (obs !! i) as [o|]; [| done]. exists o. simpl in Hi. split; congruence.
Qed.

Lemma tasks_length w k calls obs :
  outcome <$> imap (execute_tool w k) calls = Ok <$> obs →
  length obs = length calls.
Proof.
  intros Heq. apply (f_equal length) in Heq.
  by rewrite !length_fmap, length_imap in Heq.
Qed.

Lemma evaluate_spec w k order calls obs fr :
  Forall well_formed calls →
  gather order (outcome <$> imap (execute_tool w k) calls) = Ok obs →
  ∃ sp, evaluate calls obs fr = Ok (advance fr sp (first_final calls))
        ∧ (NoDup (am_tool_call_id <$> calls) →
           sp = agent_scratchpad fr ++ entries calls obs)
        ∧ (∀ fc, first_final calls = Some fc →
           is_Some (dict_get "answer" (tc_args fc))).
Proof.
  intros Hwf Hobs%gather_Ok.
  pose proof (tasks_length _ _ _ _ Hobs) as Hlen.
  unfold evaluate.
  set (id2 := dict_of (zip (am_tool_call_id <$> calls) obs)).
  destruct (extend_scratchpad_total id2 calls (agent_scratchpad fr)) as [sp Hsp].
  { intros c Hin. apply dict_of_is_Some. rewrite fst_zip.
    - by apply list_elem_of_fmap_2.
    - rewrite length_fmap. lia. }
  exists sp. rewrite Hsp. simpl.
  assert (∀ m tc rest, m ∈ calls → am_tool_calls m = tc :: rest →
            tc_name tc = "final_answer" →
            is_Some (dict_get "answer" (tc_args tc))) as Hans.
  { intros m tc rest [i Hi]%list_elem_of_lookup_1 Hm Hname.
    destruct (tasks_lookup _ _ _ _ _ _ Hobs Hi) as (o & _ & Ho).
    by eapply execute_tool_final_answer. }
  pose proof (find_final_answer_spec calls Hwf Hans) as Hfind.
  split; [| split].
  - destruct (first_final calls) as [fc|].
    + destruct Hfind as (a & Ha & ->). simpl. by rewrite Ha.
    + by rewrite Hfind.
  - intros Hnd.
    rewrite (extend_scratchpad_entries id2 calls obs) in Hsp; [congruence | lia |].
    intros i c o Hc Ho. apply (dict_of_lookup _ i); [by rewrite fst_zip, ?length_fmap by (rewrite ?length_fmap; lia) |].
    rewrite lookup_zip_with, list_lookup_fmap, Hc. simpl. by rewrite Ho.
  - intros fc Hfc. rewrite Hfc in Hfind. destruct Hfind as (a & Ha & _). by eexists.
Qed.

Lemma iteration_spec w self input streamer fr streamer' t step :
  iteration w self input streamer fr = (streamer', t, step) →
  t_scratchpad t = agent_scratchpad fr
  ∧ t_tokens t
    = llm_astream w (count fr) (chat_history self) input (agent_scratchpad fr)
  ∧ streamer' = on_llm_end (foldl (on_llm_new_token w) streamer (t_tokens t))
  ∧ turn_at w (count fr) t
  ∧ match t_obs t with
    | Raise e => step = Raise e
    | Ok obs =>
        ∃ sp, step = Ok (advance fr sp (first_final (t_calls t)))
              ∧ (NoDup (am_tool_call_id <$> t_calls t) →
                 sp = agent_scratchpad fr ++ entries (t_calls t) obs)
              ∧ (∀ fc, first_final (t_calls t) = Some fc →
                 is_Some (dict_get "answer" (tc_args fc)))
    end.
Proof.
  unfold iteration, astream. intros [= <- <- <-]. simpl.
  repeat split.
  destruct (gather _ _) as [obs|e] eqn:E; simpl; [| done].
  eapply evaluate_spec; [apply stream_well_formed | done].
Qed.

(** ** The loop, iteration by iteration *)

Lemma while_loop_unrolls w self input fuel streamer fr :
  unrolls w self input fuel streamer fr (while_loop w self input fuel streamer fr).
Proof.
  revert streamer fr. induction fuel as [|fuel IH]; intros streamer fr;
    cbn [while_loop].
  - apply unrolls_exit. by left.
  - case_bool_decide as Hguard; [| apply unrolls_exit; by right].
    destruct (iteration w self input streamer fr) as [[streamer' t] step] eqn:E.
    destruct step as [[fr' [|]]|e].
    + by eapply unrolls_break.
    + by eapply unrolls_continue.
    + by eapply unrolls_raise.
Qed.

Lemma iteration_Raise w self input streamer fr streamer' t e :
  iteration w self input streamer fr = (streamer', t, Raise e) →
  t_obs t = Raise e.
Proof.
  intros (_ & _ & _ & _ & H)%iteration_spec.
  destruct (t_obs t) as [obs|e']; [by destruct H as (? & ? & _) | congruence].
Qed.

Lemma iteration_Ok w self input streamer fr streamer' t fr' found :
  iteration w self input streamer fr = (streamer', t, Ok (fr', found)) →
  ∃ obs, t_obs t = Ok obs
    ∧ count fr' = S (count fr)
    ∧ found = bool_decide (is_Some (first_final (t_calls t)))
    ∧ final_answer fr'
      = match first_final (t_calls t) with
        | Some fc => dict_get "answer" (tc_args fc)
        | None => final_answer fr
        end
    ∧ final_answer_call fr'
      = match first_final (t_calls t) with
        | Some fc => Some fc
        | None => final_answer_call fr
        end
    ∧ (NoDup (am_tool_call_id <$> t_calls t) →
       agent_scratchpad fr' = agent_scratchpad fr ++ entries (t_calls t) obs).
Proof.
  intros (_ & _ & _ & _ & H)%iteration_spec.
  destruct (t_obs t) as [obs|e']; [| done]. exists obs.
  destruct H as (sp & Hstep & Hsp & _). split; [done |].
  destruct (first_final (t_calls t)) as [fc|]; simpl in Hstep; simplify_eq; simpl.
  - done.
  - done.
Qed.

Section loop.
Context (w : World) (self : CustomAgentExecutor) (input : string).

Lemma unrolls_length fuel streamer fr run :
  unrolls w self input fuel streamer fr run →
  length (turns run) ≤ fuel
  ∧ length (turns run) ≤ Z.to_nat (max_iterations self - Z.of_nat (count fr)).
Proof.
  induction 1 as [fuel streamer fr _
                 |fuel streamer fr streamer' t e Hg _
                 |fuel streamer fr streamer' t fr' Hg _
                 |fuel streamer fr streamer' t fr' run Hg Hit _ IH]; simpl.
  - lia.
  - unfold guard in Hg. lia.
  - unfold guard in Hg. lia.
  - apply iteration_Ok in Hit as (_ & _ & Hc & _).
    unfold guard in Hg. lia.
Qed.

Lemma unrolls_turn_at fuel streamer fr run i t :
  unrolls w self input fuel streamer fr run →
  turns run !! i = Some t →
  turn_at w (count fr + i) t.
Proof.
  intros Hrun. revert i.
  induction Hrun as [fuel streamer fr _
                    |fuel streamer fr streamer' t' e Hg Hit
                    |fuel streamer fr streamer' t' fr' Hg Hit
                    |fuel streamer fr streamer' t' fr' run Hg Hit _ IH];
    intros i; simpl; [done |..].
  - destruct i; [| done]. intros [= <-].
    apply iteration_spec in Hit as (_ & _ & _ & Hat & _).
    by rewrite Nat.add_0_r.
  - destruct i; [| done]. intros [= <-].
    apply iteration_spec in Hit as (_ & _ & _ & Hat & _).
    by rewrite Nat.add_0_r.
  - destruct i as [|i].
    + intros [= <-]. apply iteration_spec in Hit as (_ & _ & _ & Hat & _).
      by rewrite Nat.add_0_r.
    + intros Hi. apply IH in Hi.
      apply iteration_Ok in Hit as (_ & _ & Hc & _). rewrite Hc in Hi.
      by replace (count fr + S i) with (S (count fr) + i) by lia.
Qed.

Lemma unrolls_inner fuel streamer fr run i t :
  unrolls w self input fuel streamer fr run →
  turns run !! i = Some t →
  S i < length (turns run) →
  is_ok (t_obs t) = true ∧ first_final (t_calls t) = None.
Proof.
  intros Hrun. revert i.
  induction Hrun as [fuel streamer fr _
                    |fuel streamer fr streamer' t' e Hg Hit
                    |fuel streamer fr streamer' t' fr' Hg Hit
                    |fuel streamer fr streamer' t' fr' run Hg Hit _ IH];
    intros i; simpl; [done | intros; lia | intros; lia |].
  destruct i as [|i].
  - intros [= <-] _.
    apply iteration_Ok in Hit as (obs & -> & _ & Hfound & _). split; [done |].
    destruct (first_final (t_calls t')); [| done].
    by rewrite bool_decide_eq_true_2 in Hfound.
  - intros Hi Hlen. apply (IH i); [done | lia].
Qed.

Lemma unrolls_result fuel streamer fr run :
  unrolls w self input fuel streamer fr run →
  match last (turns run) with
  | None => result run = Ok fr ∧ (fuel = 0 ∨ ¬ guard self fr)
  | Some t =>
      match t_obs t with
      | Raise e => result run = Raise e
      | Ok _ =>
          ∃ fr', result run = Ok fr'
            ∧ count fr' = count fr + length (turns run)
            ∧ final_answer fr'
              = match first_final (t_calls t) with
                | Some fc => dict_get "answer" (tc_args fc)
                | None => final_answer fr
                end
            ∧ final_answer_call fr'
              = match first_final (t_calls t) with
                | Some fc => Some fc
                | None => final_answer_call fr
                end
            ∧ (first_final (t_calls t) = None →
               fuel = length (turns run) ∨ ¬ guard self fr')
      end
  end.
Proof.
  induction 1 as [fuel streamer fr Hexit
                 |fuel streamer fr streamer' t e Hg Hit
                 |fuel streamer fr streamer' t fr' Hg Hit
                 |fuel streamer fr streamer' t fr' run Hg Hit Hrun IH]; simpl.
  - done.
  - by rewrite (iteration_Raise _ _ _ _ _ _ _ _ Hit).
  - apply iteration_Ok in Hit as (obs & -> & Hc & Hfound & Hfa & Hfc & _).
    exists fr'. repeat split; [lia | done | done |].
    intros Hnone. rewrite Hnone in Hfound. done.
  - apply iteration_Ok in Hit as (obs & Hobs & Hc & Hfound & Hfa & Hfc & _).
    assert (first_final (t_calls t) = None) as Hnone.
    { destruct (first_final (t_calls t)); [| done].
      by rewrite bool_decide_eq_true_2 in Hfound. }
    rewrite Hnone in Hfa, Hfc.
    destruct (turns run) as [|t' ts] eqn:Ets; simpl in *.
    + destruct IH as [-> Hexit]. rewrite Hobs. exists fr'.
      repeat split; [lia | by rewrite Hnone | by rewrite Hnone |].
      intros _. destruct Hexit as [->|?]; [by left | by right].
    + change (last (t :: t' :: ts)) with (last (t' :: ts)).
      destruct (last (t' :: ts)) as [tl|] eqn:El.
      * destruct (t_obs tl); [| done].
        destruct IH as (fr'' & -> & Hc' & Hfa' & Hfc' & Hexit).
        exists fr''. rewrite Hfa, Hfc, Hc in *. repeat split; [lia | done | done |].
        intros Hn. destruct (Hexit Hn) as [->|?]; [by left | by right].
      * by apply last_None in El.
Qed.
End loop.


(** ** Invocations *)

Section invocation.
Context (w : World) (self : CustomAgentExecutor) (input : string)
        (streamer : QueueCallbackHandler).

Lemma invoke_trace :
  trace (invoke w self input streamer) = turns (run_loop w self input streamer).
Proof. unfold invoke. destruct (result _); [by destruct (valid_content _) | done]. Qed.

Lemma invoke_published :
  published (invoke w self input streamer)
  = queue (streamer_after (run_loop w self input streamer)).
Proof. unfold invoke. destruct (result _); [by destruct (valid_content _) | done]. Qed.

Lemma invoke_locals :
  locals (invoke w self input streamer) = result (run_loop w self input streamer).
Proof. unfold invoke. destruct (result _); [by destruct (valid_content _) | done]. Qed.

Lemma invoke_unrolls :
  unrolls w self input (Z.to_nat (max_iterations self)) streamer initial_frame
    (run_loop w self input streamer).
Proof. apply while_loop_unrolls. Qed.

Lemma invoke_Raise e :
  result (run_loop w self input streamer) = Raise e →
  returned (invoke w self input streamer) = Raise e
  ∧ self_after (invoke w self input streamer) = self.
Proof. unfold invoke. by intros ->. Qed.

Lemma invoke_Ok fr :
  result (run_loop w self input streamer) = Ok fr →
  returned (invoke w self input streamer)
  = if from_option truthy false (final_answer fr) then
      if valid_content (default VNone (final_answer fr)) then
        match final_answer_call fr with
        | Some fc => Ok (ReturnedCall fc)
        | None => Raise (KeyError "final_answer_call")
        end
      else Raise (ToolFailure "ValidationError")
    else Ok (ReturnedDict no_answer).
Proof.
  unfold invoke. intros ->.
  destruct (from_option truthy false (final_answer fr)); simpl; [| done].
  by destruct (valid_content _).
Qed.

End invocation.

Lemma last_index {A} (l : list A) k x :
  l !! k = Some x → ¬ S k < length l → last l = Some x ∧ length l = S k.
Proof.
  intros Hk Hlen. pose proof (lookup_lt_Some _ _ _ Hk).
  rewrite last_lookup. replace (pred (length l)) with k by lia. split; [done | lia].
Qed.

(** ** Fuel *)

Lemma while_loop_fuel w self input fuel fuel' streamer fr :
  Z.to_nat (max_iterations self - Z.of_nat (count fr)) ≤ fuel →
  Z.to_nat (max_iterations self - Z.of_nat (count fr)) ≤ fuel' →
  while_loop w self input fuel streamer fr
  = while_loop w self input fuel' streamer fr.
Proof.
  revert fuel' streamer fr.
  induction fuel as [|fuel IH]; intros [|fuel'] streamer fr Hf Hf';
    cbn [while_loop]; try done.
  - rewrite bool_decide_eq_false_2; [done | lia].
  - rewrite bool_decide_eq_false_2; [done | lia].
  - case_bool_decide as Hguard; [| done].
    destruct (iteration w self input streamer fr) as [[streamer' t] step] eqn:E.
    destruct step as [[fr' [|]]|e]; try done.
    apply iteration_Ok in E as (_ & _ & Hc & _).
    rewrite (IH fuel' streamer' fr'); [done | lia | lia].
Qed.

Lemma unrolls_model_call w self input fuel streamer fr run i t :
  unrolls w self input fuel streamer fr run →
  turns run !! i = Some t →
  t_tokens t
  = llm_astream w (count fr + i) (chat_history self) input (t_scratchpad t).
Proof.
  intros Hrun. revert i.
  induction Hrun as [fuel streamer fr _
                    |fuel streamer fr streamer' t' e Hg Hit
                    |fuel streamer fr streamer' t' fr' Hg Hit
                    |fuel streamer fr streamer' t' fr' run Hg Hit _ IH];
    intros i; simpl; [done |..].
  - destruct i; [| done]. intros [= <-].
    apply iteration_spec in Hit as (-> & -> & _). by rewrite Nat.add_0_r.
  - destruct i; [| done]. intros [= <-].
    apply iteration_spec in Hit as (-> & -> & _). by rewrite Nat.add_0_r.
  - destruct i as [|i].
    + intros [= <-]. apply iteration_spec in Hit as (-> & -> & _).
      by rewrite Nat.add_0_r.
    + intros Hi. apply IH in Hi.
      apply iteration_Ok in Hit as (_ & _ & Hc & _). rewrite Hc in Hi.
      by replace (count fr + S i) with (S (count fr) + i) by lia.
Qed.

(** ** The budget *)

(** C3. An invocation makes at most [max_iterations] iterations, each
    with one model call and one dispatch of tools, and none when
    [max_iterations] is not positive; the loop then ends by its guard and
    not for lack of fuel: more fuel gives the same run, whether or not a
    turn names [final_answer]. *)
Theorem iterations_bounded w self input streamer :
  (Z.of_nat (length (trace (invoke w self input streamer)))
   ≤ Z.max 0 (max_iterations self))%Z
  ∧ (∀ k t, trace (invoke w self input streamer) !! k = Some t →
       t_tokens t
       = llm_astream w k (chat_history self) input (t_scratchpad t)
       ∧ turn_at w k t)
  ∧ ∀ fuel, Z.to_nat (max_iterations self) ≤ fuel →
      while_loop w self input fuel streamer initial_frame
      = run_loop w self input streamer.
Proof.
  rewrite invoke_trace.
  pose proof (invoke_unrolls w self input streamer) as Hrun.
  split; [| split].
  - destruct (unrolls_length _ _ _ _ _ _ _ Hrun) as [H _]. lia.
  - intros k t Hk. split.
    + apply (unrolls_model_call _ _ _ _ _ _ _ _ _ Hrun Hk).
    + apply (unrolls_turn_at _ _ _ _ _ _ _ _ _ Hrun Hk).
  - intros fuel Hfuel. apply while_loop_fuel; simpl; lia.
Qed.

(** ** The first tool call of a message *)

(** C10. For a message whose first tool call is [tc], the task is
    decided by [tc] alone. When the registry does not have the name of
    [tc] the task raises [KeyError] and calls nothing; otherwise it calls
    the tool of that name with the arguments of [tc], once, and its
    observation is the text of what this call returns, under the id of
    [tc]. A message with the same first tool call and any other tool
    calls after it gives the same task: the others are never executed.
    The scan for the final answer compares the name of [tc] with
    [final_answer]: when it is the same the scan ends there, with [tc]
    and its [answer] argument, and otherwise it goes on to the next
    message, whatever other tool calls the message carries, so these
    cannot end the loop. In every turn of every invocation each
    collected message has a first tool call, and there is one task per
    message, the one of its first tool call. *)
Theorem only_first_tool_call w self input streamer turn pos m tc rest calls :
  am_tool_calls m = tc :: rest →
  (name2tool w !! tc_name tc = None →
   execute_tool w turn pos m
   = {| invoked := None; outcome := Raise (KeyError (tc_name tc)) |})
  ∧ (∀ f, name2tool w !! tc_name tc = Some f →
       invoked (execute_tool w turn pos m) = Some (tc_name tc, tc_args tc)
       ∧ outcome (execute_tool w turn pos m)
         = (tool_out ←! call f turn pos (tc_args tc);
            match tc_id tc with
            | Some id =>
                Ok {| tm_content := format_out w tool_out;
                      tm_tool_call_id := id |}
            | None => Raise (ToolFailure "ValidationError")
            end))
  ∧ (∀ m' rest', am_tool_calls m' = tc :: rest' →
       execute_tool w turn pos m' = execute_tool w turn pos m)
  ∧ find_final_answer (m :: calls)
    = (if String.eqb (tc_name tc) "final_answer" then
         match dict_get "answer" (tc_args tc) with
         | Some answer => Ok (Some (tc, answer))
         | None => Raise (KeyError "answer")
         end
       else find_final_answer calls)
  ∧ find_final_answer calls = find_final_answer (first_only <$> calls)
  ∧ (∀ k t, trace (invoke w self input streamer) !! k = Some t →
       Forall (λ c, ∃ tc' rest', am_tool_calls c = tc' :: rest') (t_calls t)
       ∧ t_tasks t = imap (λ i c, execute_tool w k i (first_only c)) (t_calls t)).
Proof.
  intros Hm.
  assert (∀ k i c, execute_tool w k i c = execute_tool w k i (first_only c)) as H.
  { intros k i c. unfold execute_tool, first_only. simpl.
    by destruct (am_tool_calls c). }
  split; [| split; [| split; [| split; [| split]]]].
  - intros Hnone. unfold execute_tool. by rewrite Hm, Hnone.
  - intros f Hf. unfold execute_tool. by rewrite Hm, Hf.
  - intros m' rest' Hm'. unfold execute_tool. by rewrite Hm, Hm'.
  - simpl. by rewrite Hm.
  - clear Hm. induction calls as [|c calls IH]; [done |]. simpl.
    destruct (am_tool_calls c) as [|tc' rest']; [done |]. simpl.
    by rewrite IH.
  - intros k t Hk. rewrite invoke_trace in Hk.
    destruct (unrolls_turn_at _ _ _ _ _ _ _ _ _
                (invoke_unrolls w self input streamer) Hk) as (Hcalls & -> & _).
    split.
    + rewrite Hcalls. eapply Forall_impl; [apply stream_well_formed |].
      intros c (tc' & rest' & Hc & _). by exists tc', rest'.
    + simpl. apply imap_ext. intros i c _. apply H.
Qed.

(** ** How the loop ends *)

Lemma first_final_is_Some calls :
  existsb named_final calls = true → is_Some (first_final calls).
Proof.
  intros H. destruct (first_final calls) eqn:E; [by eexists |].
  apply first_final_None in E. congruence.
Qed.

(** C1, as the code has it. When a turn's collected tool calls contain
    one named [final_answer], that turn is the last: no model call and
    no dispatch follows, whatever the budget left. When moreover the
    dispatch of that turn raised nothing, the call has an [answer]
    argument, and when this answer is a non-empty string, [invoke]
    returns that [final_answer] call, with this answer. *)
Theorem final_answer_exits w self input streamer k t :
  trace (invoke w self input streamer) !! k = Some t →
  existsb named_final (t_calls t) = true →
  length (trace (invoke w self input streamer)) = S k
  ∧ ∃ fc, first_final (t_calls t) = Some fc
      ∧ (is_ok (t_obs t) = true →
         ∃ answer, dict_get "answer" (tc_args fc) = Some answer
           ∧ (∀ s, answer = VStr s → s ≠ "" →
              returned (invoke w self input streamer) = Ok (ReturnedCall fc))).
Proof.
  intros Hk Hex. destruct (first_final_is_Some _ Hex) as [fc Hfc].
  pose proof (invoke_unrolls w self input streamer) as Hrun.
  rewrite invoke_trace in *.
  assert (¬ S k < length (turns (run_loop w self input streamer))) as Hlast.
  { intros Hlt. destruct (unrolls_inner _ _ _ _ _ _ _ _ _ Hrun Hk Hlt). congruence. }
  destruct (last_index _ _ _ Hk Hlast) as [Hl Hlen]. split; [done |].
  exists fc. split; [done |]. intros Hok.
  pose proof (unrolls_result _ _ _ _ _ _ _ Hrun) as Hres. rewrite Hl in Hres.
  destruct (t_obs t) as [obs|e] eqn:Hobs; [| done].
  destruct Hres as (fr' & Hr & _ & Hfa & Hfcall & _). rewrite Hfc in Hfa, Hfcall.
  destruct (unrolls_turn_at _ _ _ _ _ _ _ _ _ Hrun Hk) as (Hcalls & Htasks & Hg).
  rewrite Hobs, Htasks in Hg. symmetry in Hg.
  assert (Forall well_formed (t_calls t)) as Hwf.
  { rewrite Hcalls. apply stream_well_formed. }
  destruct (evaluate_spec w _ _ (t_calls t) _ initial_frame Hwf Hg)
    as (_ & _ & _ & Hans).
  destruct (Hans fc Hfc) as [answer Ha]. exists answer. split; [done |].
  intros s -> Hs. rewrite (invoke_Ok _ _ _ _ _ Hr), Hfa, Ha, Hfcall. simpl.
  by destruct (String.eqb_spec s "").
Qed.

(** C2, as the code has it. When no turn of the invocation produces a
    tool call named [final_answer] and no dispatch of tools raises,
    [invoke] makes [max_iterations] iterations and returns exactly
    [{"answer": "No answer found", "tools_used": []}]. *)
Theorem budget_exhausted w self input streamer :
  (∀ t, t ∈ trace (invoke w self input streamer) →
     existsb named_final (t_calls t) = false) →
  (∀ t, t ∈ trace (invoke w self input streamer) → is_ok (t_obs t) = true) →
  returned (invoke w self input streamer) = Ok (ReturnedDict no_answer)
  ∧ length (trace (invoke w self input streamer))
    = Z.to_nat (max_iterations self).
Proof.
  intros Hnone Hok.
  pose proof (invoke_unrolls w self input streamer) as Hrun.
  rewrite invoke_trace in *.
  pose proof (unrolls_result _ _ _ _ _ _ _ Hrun) as Hres.
  destruct (unrolls_length _ _ _ _ _ _ _ Hrun) as [Hlen _].
  destruct (last (turns (run_loop w self input streamer))) as [t|] eqn:Hl.
  - assert (t ∈ turns (run_loop w self input streamer)) as Hin.
    { rewrite last_lookup in Hl. by eapply list_elem_of_lookup_2. }
    specialize (Hnone t Hin). specialize (Hok t Hin).
    apply first_final_None in Hnone.
    destruct (t_obs t); [| done]. rewrite Hnone in Hres.
    destruct Hres as (fr' & Hr & Hc & Hfa & _ & Hexit).
    rewrite (invoke_Ok _ _ _ _ _ Hr), Hfa. simpl. split; [done |].
    destruct (Hexit eq_refl) as [?|Hg]; [done |].
    unfold guard in Hg. rewrite Hc in Hg. simpl in Hg. lia.
  - destruct Hres as [Hr Hexit]. rewrite (invoke_Ok _ _ _ _ _ Hr). simpl.
    split; [done |]. apply last_None in Hl. rewrite Hl. simpl.
    destruct Hexit as [?|Hg]; [done |]. unfold guard in Hg. simpl in Hg. lia.
Qed.

(** C4, as the code has it. When a tool invocation of a turn raises,
    its task raises and builds no message; every call of the batch was
    still run as a task, but gathering them raises the exception of a
    task that failed, nothing is appended to the scratchpad, the
    iteration is the last one, and [invoke] ends with that exception,
    leaving the chat history as it was. *)
Theorem tool_failure_aborts w self input streamer k t :
  trace (invoke w self input streamer) !! k = Some t →
  (∃ task e, task ∈ t_tasks t ∧ outcome task = Raise e) →
  length (t_tasks t) = length (t_calls t)
  ∧ ∃ e, (∃ task, task ∈ t_tasks t ∧ outcome task = Raise e)
      ∧ t_obs t = Raise e
      ∧ turn_entries t = []
      ∧ length (trace (invoke w self input streamer)) = S k
      ∧ returned (invoke w self input streamer) = Raise e
      ∧ self_after (invoke w self input streamer) = self.
Proof.
  intros Hk (task & e0 & Hin & Hraise).
  pose proof (invoke_unrolls w self input streamer) as Hrun.
  rewrite invoke_trace in *.
  destruct (unrolls_turn_at _ _ _ _ _ _ _ _ _ Hrun Hk) as (Hcalls & Htasks & Hg).
  split; [by rewrite Htasks, length_imap |].
  destruct (gather_fails (completion_order w (count initial_frame + k))
              (outcome <$> t_tasks t) e0) as [e He].
  { rewrite <- Hraise. by apply list_elem_of_fmap_2. }
  rewrite He in Hg. exists e. split; [| split; [done | split]].
  - apply gather_Raise, list_elem_of_fmap in He as (task' & ? & ?). by exists task'.
  - unfold turn_entries. by rewrite Hg.
  - assert (¬ S k < length (turns (run_loop w self input streamer))) as Hlast.
    { intros Hlt. destruct (unrolls_inner _ _ _ _ _ _ _ _ _ Hrun Hk Hlt) as [Hok _].
      by rewrite Hg in Hok. }
    destruct (last_index _ _ _ Hk Hlast) as [Hl Hlen]. split; [done |].
    pose proof (unrolls_result _ _ _ _ _ _ _ Hrun) as Hres.
    rewrite Hl, Hg in Hres. by apply invoke_Raise.
Qed.


(** ** The scratchpad *)

Lemma paired_app sp1 calls1 sp2 calls2 :
  paired sp1 calls1 → paired sp2 calls2 → paired (sp1 ++ sp2) (calls1 ++ calls2).
Proof. induction 1; simpl; [done |]. intros. by constructor; auto. Qed.

Lemma entries_paired calls obs :
  length calls ≤ length obs →
  (∀ i c o, calls !! i = Some c → obs !! i = Some o →
     am_tool_call_id c = Some (tm_tool_call_id o)) →
  paired (entries calls obs) calls.
Proof.
  revert obs. induction calls as [|c calls IH]; intros obs Hlen Hid.
  - constructor.
  - destruct obs as [|o obs]; simpl in Hlen; [lia |]. rewrite entries_cons. simpl.
    constructor; [by apply (Hid 0) |]. apply IH; [lia |].
    intros i c' o'. apply (Hid (S i)).
Qed.

Lemma turn_observations w k t obs :
  turn_at w k t → t_obs t = Ok obs →
  outcome <$> t_tasks t = Ok <$> obs
  ∧ length obs = length (t_calls t)
  ∧ ∀ i c o, t_calls t !! i = Some c → obs !! i = Some o →
      outcome (execute_tool w k i c) = Ok o
      ∧ am_tool_call_id c = Some (tm_tool_call_id o).
Proof.
  intros (Hcalls & Htasks & Hg) Hobs. rewrite Hobs in Hg. symmetry in Hg.
  apply gather_Ok in Hg. split; [done |]. rewrite Htasks in Hg.
  split; [by eapply tasks_length |]. intros i c o Hc Ho.
  destruct (tasks_lookup _ _ _ _ _ _ Hg Hc) as (o' & Ho' & Hout).
  assert (o' = o) as -> by congruence. split; [done |].
  assert (well_formed c) as (tc & rest & Htc & ->).
  { eapply Forall_lookup_1; [| done]. rewrite Hcalls. apply stream_well_formed. }
  by eapply execute_tool_id.
Qed.

Lemma turn_entries_paired w k t :
  turn_at w k t → is_ok (t_obs t) = true →
  paired (turn_entries t) (t_calls t).
Proof.
  intros Hat Hok. unfold turn_entries.
  destruct (t_obs t) as [obs|] eqn:Hobs; [| done].
  destruct (turn_observations _ _ _ _ Hat Hobs) as (_ & Hlen & Hid).
  apply entries_paired; [lia |]. intros i c o Hc Ho. by apply (Hid i).
Qed.

Lemma turns_paired w (ts : list Turn) k0 :
  (∀ i t, ts !! i = Some t → turn_at w (k0 + i) t ∧ is_ok (t_obs t) = true) →
  paired (concat (turn_entries <$> ts)) (concat (t_calls <$> ts)).
Proof.
  revert k0. induction ts as [|t ts IH]; intros k0 H; simpl; [constructor |].
  apply paired_app.
  - destruct (H 0 t eq_refl). by eapply turn_entries_paired.
  - apply (IH (S k0)). intros i t' Hi.
    replace (S k0 + i) with (k0 + S i) by lia. by apply H.
Qed.

Lemma unrolls_scratchpad w self input fuel streamer fr run :
  unrolls w self input fuel streamer fr run →
  (∀ t, t ∈ turns run → NoDup (am_tool_call_id <$> t_calls t)) →
  (∀ i t, turns run !! i = Some t →
     t_scratchpad t
     = agent_scratchpad fr ++ concat (turn_entries <$> take i (turns run)))
  ∧ (∀ fr', result run = Ok fr' →
       agent_scratchpad fr'
       = agent_scratchpad fr ++ concat (turn_entries <$> turns run)).
Proof.
  induction 1 as [fuel streamer fr _
                 |fuel streamer fr streamer' t e Hg Hit
                 |fuel streamer fr streamer' t fr' Hg Hit
                 |fuel streamer fr streamer' t fr' run Hg Hit _ IH];
    simpl; intros Hnd.
  - split; [done |]. intros fr' [= <-]. by rewrite app_nil_r.
  - split; [| done]. intros [|i] t'; [| done]. intros [= <-]. simpl.
    apply iteration_spec in Hit as (-> & _). by rewrite app_nil_r.
  - pose proof Hit as (Hsp & _)%iteration_spec.
    apply iteration_Ok in Hit as (obs & Hobs & _ & _ & _ & _ & Hnew).
    split.
    + intros [|i] t'; [| done]. intros [= <-]. simpl. by rewrite app_nil_r.
    + intros fr'' [= <-]. unfold turn_entries. rewrite Hobs, app_nil_r.
      apply Hnew, Hnd. apply elem_of_cons. by left.
  - pose proof Hit as (Hsp & _)%iteration_spec.
    apply iteration_Ok in Hit as (obs & Hobs & _ & _ & _ & _ & Hnew).
    destruct IH as [IH1 IH2].
    { intros t' Hin. apply Hnd. apply elem_of_cons. by right. }
    assert (agent_scratchpad fr' = agent_scratchpad fr ++ turn_entries t) as Hfr'.
    { unfold turn_entries. rewrite Hobs. apply Hnew, Hnd. apply elem_of_cons. by left. }
    split.
    + intros [|i] t'.
      * intros [= <-]. simpl. by rewrite app_nil_r.
      * intros Hi. simpl. rewrite (IH1 i t' Hi), Hfr'. by rewrite app_assoc.
    + intros fr'' Hr. rewrite (IH2 fr'' Hr), Hfr'. by rewrite app_assoc.
Qed.

Lemma unrolls_all_ok w self input fuel streamer fr run fr' :
  unrolls w self input fuel streamer fr run →
  result run = Ok fr' →
  ∀ t, t ∈ turns run → is_ok (t_obs t) = true.
Proof.
  intros Hrun Hr t [i Hi]%list_elem_of_lookup_1.
  destruct (decide (S i < length (turns run))) as [Hlt|Hlast].
  - by destruct (unrolls_inner _ _ _ _ _ _ _ _ _ Hrun Hi Hlt).
  - destruct (last_index _ _ _ Hi Hlast) as [Hl _].
    pose proof (unrolls_result _ _ _ _ _ _ _ Hrun) as Hres. rewrite Hl in Hres.
    destruct (t_obs t); [done | congruence].
Qed.

(** C5. When the ids of the tool calls of each turn are distinct, the
    scratchpad is, at the model call of every turn, at every step of the
    loop that appends to it and when the loop ends, a sequence of
    adjacent pairs: the calls collected in the turns so far, turn after
    turn and in the order of each turn, each call immediately followed by
    the observation of its own task, which carries its id. The
    observations are those of the tasks in the order of the calls,
    whatever the order in which the tasks finish. *)
Theorem scratchpad_pairs w self input streamer :
  (∀ t, t ∈ trace (invoke w self input streamer) →
     NoDup (am_tool_call_id <$> t_calls t)) →
  (∀ k t, trace (invoke w self input streamer) !! k = Some t →
     t_scratchpad t
     = concat (turn_entries <$> take k (trace (invoke w self input streamer)))
     ∧ paired (t_scratchpad t)
         (concat (t_calls <$> take k (trace (invoke w self input streamer))))
     ∧ ∀ obs, t_obs t = Ok obs →
         outcome <$> t_tasks t = Ok <$> obs
         ∧ (∀ order, gather order (outcome <$> t_tasks t) = Ok obs)
         ∧ ∀ j,
             extend_scratchpad
               (dict_of (zip (am_tool_call_id <$> t_calls t) obs))
               (take j (t_calls t)) (t_scratchpad t)
             = Ok (t_scratchpad t ++ entries (take j (t_calls t)) obs)
             ∧ paired (t_scratchpad t ++ entries (take j (t_calls t)) obs)
                 (concat (t_calls <$>
                            take k (trace (invoke w self input streamer)))
                  ++ take j (t_calls t)))
  ∧ (∀ fr, locals (invoke w self input streamer) = Ok fr →
       agent_scratchpad fr
       = concat (turn_entries <$> trace (invoke w self input streamer))
       ∧ paired (agent_scratchpad fr)
           (concat (t_calls <$> trace (invoke w self input streamer)))).
Proof.
  intros Hnd. pose proof (invoke_unrolls w self input streamer) as Hrun.
  rewrite invoke_locals. rewrite invoke_trace in *.
  destruct (unrolls_scratchpad _ _ _ _ _ _ _ Hrun Hnd) as [Hsp Hend].
  set (ts := turns (run_loop w self input streamer)) in *.
  assert (∀ k, k ≤ length ts → (∀ i t, i < k → ts !! i = Some t → is_ok (t_obs t) = true) →
            paired (concat (turn_entries <$> take k ts))
                   (concat (t_calls <$> take k ts))) as Hpaired.
  { intros k Hk Hoks. apply (turns_paired w _ 0). intros i t Hi.
    apply lookup_take_Some in Hi as [Hi Hlt]. split.
    - by apply (unrolls_turn_at _ _ _ _ _ _ _ _ _ Hrun Hi).
    - by eapply Hoks. }
  split.
  - intros k t Hk. pose proof (lookup_lt_Some _ _ _ Hk) as Hklen.
    assert (paired (t_scratchpad t) (concat (t_calls <$> take k ts))) as Hp.
    { rewrite (Hsp k t Hk). simpl. apply Hpaired; [lia |].
      intros i t' Hi Hi'.
      destruct (unrolls_inner _ _ _ _ _ _ _ _ _ Hrun Hi') as [Hok _]; [| done].
      fold ts. lia. }
    split; [apply (Hsp k t Hk) | split; [done |]].
    intros obs Hobs.
    pose proof (unrolls_turn_at _ _ _ _ _ _ _ _ _ Hrun Hk) as Hat.
    destruct (turn_observations _ _ _ _ Hat Hobs) as (Hout & Hlen & Hid).
    split; [done | split; [intros order; by apply gather_Ok |]].
    intros j.
    assert (∀ i c o, take j (t_calls t) !! i = Some c → obs !! i = Some o →
              t_calls t !! i = Some c) as Htake.
    { intros i c o [? _]%lookup_take_Some _. done. }
    split.
    + apply extend_scratchpad_entries.
      * rewrite length_take. lia.
      * intros i c o Hc Ho. apply (dict_of_lookup _ i).
        -- rewrite fst_zip by (rewrite length_fmap; lia). apply Hnd.
           by eapply list_elem_of_lookup_2.
        -- rewrite lookup_zip_with, list_lookup_fmap, (Htake i c o Hc Ho). simpl.
           by rewrite Ho.
    + apply paired_app; [done |]. apply entries_paired.
      * rewrite length_take. lia.
      * intros i c o Hc Ho. by apply (Hid i c o (Htake i c o Hc Ho) Ho).
  - intros fr Hr. rewrite (Hend fr Hr). simpl. split; [done |].
    rewrite <- (take_ge ts (length ts)) by lia. apply Hpaired; [lia |].
    intros i t _ Hi. eapply unrolls_all_ok; [done.. |].
    by eapply list_elem_of_lookup_2.
Qed.


(** ** The handler and its queue *)

Lemma handler_tokens w streamer tokens :
  queue (foldl (on_llm_new_token w) streamer tokens)
  = queue streamer ++ (QChunk <$> tokens)
  ∧ final_answer_seen (foldl (on_llm_new_token w) streamer tokens)
    = final_answer_seen streamer || existsb (names_final_answer w) tokens.
Proof.
  revert streamer. induction tokens as [|token tokens IH]; intros streamer; simpl.
  - by rewrite app_nil_r, orb_false_r.
  - destruct (IH (on_llm_new_token w streamer token)) as [-> ->]. simpl.
    rewrite <- app_assoc. split; [done |]. unfold names_final_answer.
    case_bool_decide; simpl; [by rewrite orb_true_r | done].
Qed.

Lemma unrolls_published w self input fuel streamer fr run :
  unrolls w self input fuel streamer fr run →
  queue (streamer_after run)
  = queue streamer
    ++ published_by w (final_answer_seen streamer) (t_tokens <$> turns run).
Proof.
  assert (∀ streamer fr streamer' t step,
            iteration w self input streamer fr = (streamer', t, step) →
            queue streamer'
            = queue streamer ++ (QChunk <$> t_tokens t)
              ++ [QStr (if final_answer_seen streamer
                           || existsb (names_final_answer w) (t_tokens t)
                        then "<<DONE>>" else "<<STEP_END>>")]
            ∧ final_answer_seen streamer'
              = final_answer_seen streamer
                || existsb (names_final_answer w) (t_tokens t)) as Hstep.
  { intros streamer0 fr0 streamer' t step (_ & _ & -> & _)%iteration_spec.
    unfold on_llm_end. simpl.
    destruct (handler_tokens w streamer0 (t_tokens t)) as [-> ->].
    by rewrite <- app_assoc. }
  induction 1 as [fuel streamer fr _
                 |fuel streamer fr streamer' t e Hg Hit
                 |fuel streamer fr streamer' t fr' Hg Hit
                 |fuel streamer fr streamer' t fr' run Hg Hit _ IH]; simpl.
  - by rewrite app_nil_r.
  - by destruct (Hstep _ _ _ _ _ Hit) as [-> _].
  - by destruct (Hstep _ _ _ _ _ Hit) as [-> _].
  - destruct (Hstep _ _ _ _ _ Hit) as [Hq Hseen]. rewrite IH, Hq, Hseen.
    by rewrite <- !app_assoc.
Qed.

Lemma dones_app l k : dones (l ++ k) = dones l ++ dones k.
Proof. apply filter_app. Qed.

Lemma dones_chunks tokens : dones (QChunk <$> tokens) = [].
Proof. induction tokens as [|token tokens IH]; [done |]. simpl. apply IH. Qed.

Lemma dones_cons item items :
  dones (item :: items)
  = if is_str "<<DONE>>" item then item :: dones items else dones items.
Proof.
  unfold dones. destruct (is_str "<<DONE>>" item) eqn:E.
  - by rewrite filter_cons_True.
  - rewrite filter_cons_False; [done | by rewrite E].
Qed.

Lemma dones_published w seen turns :
  length (dones (published_by w seen turns))
  = length (if seen then turns else from_first_named w turns).
Proof.
  revert seen. induction turns as [|tokens turns IH]; intros seen.
  - by destruct seen.
  - cbn [published_by from_first_named].
    rewrite dones_app, dones_chunks, dones_cons. simpl.
    destruct seen; simpl.
    + by rewrite (IH true).
    + destruct (existsb (names_final_answer w) tokens); simpl.
      * by rewrite (IH true).
      * apply (IH false).
Qed.

Lemma aiter_spec q :
  (aiter q).1 = filter (λ item, is_str "" item = false) (before_done q)
  ∧ ((aiter q).2 = Finished ↔ QStr "<<DONE>>" ∈ q).
Proof.
  induction q as [|item q [IH1 IH2]]; simpl.
  - split; [done |]. split; [done | by intros ?%elem_of_nil].
  - destruct (is_str "<<DONE>>" item) eqn:Hd; simpl.
    + split; [done |]. split; [| done]. intros _. apply elem_of_cons. left.
      destruct item as [|s]; [done |]. simpl in Hd.
      by apply String.eqb_eq in Hd as ->.
    + destruct (aiter q) as [yielded ending]. simpl in *.
      assert (QStr "<<DONE>>" ∈ item :: q ↔ QStr "<<DONE>>" ∈ q) as Hin.
      { rewrite elem_of_cons. split; [| by right]. intros [<-|?]; done. }
      destruct (is_str "" item) eqn:He; simpl.
      * rewrite filter_cons_False by (by rewrite He). by rewrite Hin.
      * rewrite filter_cons_True by done. rewrite IH1. by rewrite Hin.
Qed.

Lemma before_done_no_done q item :
  item ∈ before_done q → is_str "<<DONE>>" item = false.
Proof.
  induction q as [|item' q IH]; simpl; [by intros ?%elem_of_nil |].
  destruct (is_str "<<DONE>>" item') eqn:Hd; [by intros ?%elem_of_nil |].
  intros [->|?]%elem_of_cons; [done | by apply IH].
Qed.

(** ** The consumers *)

Lemma step_header_not_sentinel name : ¬ sentinel (step_header name).
Proof. unfold step_header. by intros [H|H]. Qed.

Lemma nonempty_Some o : nonempty o = true → o = Some (text o).
Proof. by destruct o. Qed.

Lemma generator_view_args w msg tool_name tool_args :
  generator_view w msg = (tool_name, tool_args) →
  nonempty tool_args = true →
  text tool_args ∈ argument_texts w msg.
Proof.
  unfold generator_view, argument_texts. intros Hview Hne.
  set (first := match tool_calls w msg with
                | tc :: _ =>
                    (Some (tc_name tc),
                     if bool_decide (tc_args tc = []) then None
                     else Some (json_dumps w (tc_args tc)))
                | [] => (None, None)
                end) in Hview.
  assert (∀ a, first.2 = Some a → a ∈ json_dumps w ∘ tc_args <$> tool_calls w msg)
    as Hfirst.
  { subst first. destruct (tool_calls w msg) as [|tc ?]; simpl; [done |].
    case_bool_decide; [done |]. intros a [= <-]. apply elem_of_cons. by left. }
  destruct first as [n1 a1]. simpl in Hfirst.
  set (second := match tool_call_chunks msg with
                 | tc :: _ =>
                     (if nonempty (tcc_name tc) then tcc_name tc else n1,
                      if nonempty (tcc_args tc) then tcc_args tc else a1)
                 | [] => (n1, a1)
                 end) in Hview.
  assert (∀ a, second.2 = Some a →
            a ∈ (json_dumps w ∘ tc_args <$> tool_calls w msg)
                ++ omap tcc_args (tool_call_chunks msg)) as Hsecond.
  { subst second. destruct (tool_call_chunks msg) as [|tc ?]; simpl.
    - intros a Ha. rewrite app_nil_r. by apply Hfirst.
    - intros a. destruct (nonempty (tcc_args tc)) eqn:E.
      + intros Ha. apply elem_of_app. right. rewrite Ha. simpl.
        apply elem_of_cons. by left.
      + intros Ha. apply elem_of_app. left. by apply Hfirst. }
  destruct second as [n2 a2]. simpl in Hsecond.
  rewrite app_assoc.
  destruct (negb (nonempty n2) && negb (nonempty a2)) eqn:E.
  - destruct (kw_tool_calls msg) as [|tc ?] eqn:Ekw.
    + injection Hview as <- <-. rewrite app_nil_r. apply Hsecond.
      by apply nonempty_Some.
    + injection Hview as <- <-. apply elem_of_app. right. simpl.
      rewrite (nonempty_Some _ Hne). simpl. apply elem_of_cons. by left.
  - injection Hview as <- <-. apply elem_of_app. left. apply Hsecond.
    by apply nonempty_Some.
Qed.

Lemma fragments_of_cases tool_name tool_args f :
  f ∈ fragments_of tool_name tool_args →
  (∃ name, f = step_header name)
  ∨ (nonempty tool_args = true ∧ f = text tool_args).
Proof.
  unfold fragments_of. intros [Hin|Hin]%elem_of_app.
  - destruct (nonempty tool_name); [| by apply elem_of_nil in Hin].
    apply list_elem_of_singleton in Hin. left. by eexists.
  - destruct (nonempty tool_args); [| by apply elem_of_nil in Hin].
    apply list_elem_of_singleton in Hin. by right.
Qed.

Lemma stream_generator_fragments w q started complete f :
  f ∈ stream_generator w q started complete →
  f = "</step>"
  ∨ (∃ name, f = step_header name)
  ∨ (∃ msg, QChunk msg ∈ before_done q ∧ f ∈ argument_texts w msg).
Proof.
  revert started complete.
  induction q as [|token q IH]; intros started complete; simpl;
    [by intros ?%elem_of_nil |].
  assert (∀ s c, f ∈ stream_generator w q s c →
            f = "</step>" ∨ (∃ name, f = step_header name)
            ∨ (∃ msg, QChunk msg ∈ token :: before_done q
                      ∧ f ∈ argument_texts w msg)) as IH'.
  { intros s c Hin. destruct (IH s c Hin) as [?|[?|(msg & ? & ?)]]; auto.
    right. right. exists msg. split; [| done]. apply elem_of_cons. by right. }
  destruct (is_str "<<DONE>>" token) eqn:Hd; [by intros ?%elem_of_nil |].
  destruct (is_str "<<STEP_END>>" token).
  { destruct complete; simpl; [by apply IH' |].
    intros [->|Hin]%elem_of_cons; [by left | by eapply IH']. }
  destruct complete; [by apply IH' |].
  destruct token as [msg|s]; [| by apply IH'].
  destruct (generator_view w msg) as [tool_name tool_args] eqn:Hview.
  intros [Hin|Hin]%elem_of_app; [| by eapply IH'].
  destruct (fragments_of_cases _ _ _ Hin) as [?|[Hne ->]]; [auto |].
  right. right. exists msg. split; [apply elem_of_cons; by left |].
  by eapply generator_view_args.
Qed.

Lemma stream_response_fragments w q f :
  f ∈ (stream_response q).1 →
  f = "</step>"
  ∨ (∃ name, f = step_header name)
  ∨ (∃ msg, QChunk msg ∈ before_done q ∧ f ∈ argument_texts w msg).
Proof.
  unfold stream_response. destruct (aiter_spec q) as [Hy _].
  destruct (aiter q) as [tokens ending]. simpl in *. subst tokens.
  intros (token & Hin & [_ Htoken]%list_elem_of_filter)%list_elem_of_bind.
  unfold response_fragments in Hin.
  destruct (is_str "<<STEP_END>>" token).
  { apply list_elem_of_singleton in Hin. by left. }
  destruct token as [msg|s]; [| by apply elem_of_nil in Hin].
  destruct (kw_tool_calls msg) as [|tc rest] eqn:Ekw; [by apply elem_of_nil in Hin |].
  destruct (fragments_of_cases _ _ _ Hin) as [?|[Hne ->]]; [auto |].
  right. right. exists msg. split; [done |].
  unfold argument_texts. rewrite Ekw. apply elem_of_app. right.
  apply elem_of_app. right. simpl. rewrite (nonempty_Some _ Hne). simpl.
  apply elem_of_cons. by left.
Qed.

Lemma before_done_idemp q : before_done (before_done q) = before_done q.
Proof.
  induction q as [|token q IH]; [done |]. simpl.
  destruct (is_str "<<DONE>>" token) eqn:Hd; [done |]. simpl. by rewrite Hd, IH.
Qed.

(** C9, as the code has it. Neither consumer forwards a sentinel of the
    queue: [<<STEP_END>>] becomes ["</step>"] or nothing, nothing is
    read past [<<DONE>>], and every other fragment that is yielded is a
    step header or the argument text of a queued delta. So a fragment is
    one of the sentinel texts only when it is the argument text of a
    delta, which the consumers yield as it is. *)
Theorem no_sentinel_forwarded w q started complete f :
  f ∈ stream_generator w q started complete ∨ f ∈ (stream_response q).1 →
  (f = "</step>"
   ∨ (∃ name, f = step_header name)
   ∨ (∃ msg, QChunk msg ∈ before_done q ∧ f ∈ argument_texts w msg))
  ∧ (sentinel f →
     ∃ msg, QChunk msg ∈ before_done q ∧ f ∈ argument_texts w msg)
  ∧ stream_generator w q started complete
    = stream_generator w (before_done q) started complete
  ∧ stream_response q = ((stream_response (before_done q)).1, (aiter q).2).
Proof.
  intros Hin.
  assert (f = "</step>" ∨ (∃ name, f = step_header name)
          ∨ (∃ msg, QChunk msg ∈ before_done q ∧ f ∈ argument_texts w msg)) as H.
  { destruct Hin; [by eapply stream_generator_fragments
                  | by eapply stream_response_fragments]. }
  split; [done |]. split; [| split].
  - intros Hs. destruct H as [->|[[name ->]|?]]; [| | done].
    + by destruct Hs.
    + by apply step_header_not_sentinel in Hs.
  - clear. revert started complete. induction q as [|token q IH]; [done |].
    intros started complete. simpl.
    destruct (is_str "<<DONE>>" token) eqn:Hd; [done |]. simpl. rewrite Hd.
    destruct (is_str "<<STEP_END>>" token); [by rewrite !IH |].
    destruct complete; [apply IH |].
    destruct token as [msg|s]; [| apply IH].
    destruct (generator_view w msg). by rewrite IH.
  - clear. unfold stream_response.
    destruct (aiter_spec q) as [Hy _]. destruct (aiter_spec (before_done q)) as [Hy' _].
    destruct (aiter q) as [tokens ending], (aiter (before_done q)) as [tokens' ?].
    simpl in *. subst. by rewrite before_done_idemp.
Qed.


(** ** The claims on concrete invocations *)

Lemma stream_collector_cases_witness :
  collect world_sum ([opening "call_1" "add"] ++ [continuation text_add])
  = [chunk_add (opening "call_1" "add") (continuation text_add)]
  ∧ collect world_sum ([] ++ [continuation text_add]) = []
  ∧ collect world_sum ([opening "call_1" "add"] ++ [opening "call_2" "add"])
    = [opening "call_1" "add"; opening "call_2" "add"].
Proof.
  split; [| split].
  - destruct (stream_collector_cases world_sum [opening "call_1" "add"]
                (continuation text_add) _ eq_refl) as [_ H].
    destruct (H eq_refl) as [_ H'].
    exact (proj1 (H' [] (opening "call_1" "add") eq_refl)).
  - destruct (stream_collector_cases world_sum [] (continuation text_add)
                _ eq_refl) as [_ H].
    destruct (H eq_refl) as [H' _]. exact (H' eq_refl).
  - destruct (stream_collector_cases world_sum [opening "call_1" "add"]
                (opening "call_2" "add") _ eq_refl) as [H _].
    exact (H eq_refl).
Defined.

Lemma fragments_concatenate_witness :
  stream world_sum
    (opening "call_1" "add"
     :: (continuation <$> ["{" +:+ jfield "x" "2"; ", " +:+ jfield "y" "3" +:+ "}"]))
  = [one_call "add" [("x", VInt 2); ("y", VInt 3)] (Some "call_1")]
  ∧ stream world_sum [opening "call_1" "add"; continuation text_add]
    = [one_call "add" [("x", VInt 2); ("y", VInt 3)] (Some "call_1")].
Proof.
  destruct (fragments_concatenate world_sum (opening "call_1" "add") _
              ["{" +:+ jfield "x" "2"; ", " +:+ jfield "y" "3" +:+ "}"]
              eq_refl eq_refl) as (_ & Hstream & Hwhole & _).
  split; [rewrite Hstream; vm_compute; reflexivity |].
  etransitivity; [symmetry; exact Hwhole |].
  rewrite Hstream. vm_compute. reflexivity.
Defined.

(** C10 on a message that carries a call of [add] and, after it, a call
    of [final_answer]: the task calls [add] on 2 and 3 and files the sum
    under the id of that call, exactly as for the message with the call
    of [add] alone, and the scan finds no final answer. *)
Lemma only_first_tool_call_witness :
  execute_tool world_sum 0 0 two_calls
  = {| invoked := Some ("add", [("x", VInt 2); ("y", VInt 3)]);
       outcome := Ok (observation (format_out world_sum (VInt 5)) "call_1") |}
  ∧ execute_tool world_sum 0 0
      (one_call "add" [("x", VInt 2); ("y", VInt 3)] (Some "call_1"))
    = execute_tool world_sum 0 0 two_calls
  ∧ find_final_answer [two_calls] = Ok None.
Proof.
  destruct (only_first_tool_call world_sum agent_executor "What is 2+3?"
              new_handler 0 0 two_calls _ _ [] eq_refl)
    as (_ & Hcall & Hsame & Hscan & _).
  destruct (Hcall (Tools.add world_sum) eq_refl) as [Hinvoked Houtcome].
  split; [| split].
  - destruct (execute_tool world_sum 0 0 two_calls) as [called out].
    simpl in Hinvoked, Houtcome. by rewrite Hinvoked, Houtcome.
  - apply Hsame with (rest' := []). reflexivity.
  - rewrite Hscan. reflexivity.
Defined.

Lemma final_answer_exits_witness :
  length (trace (invoke world_sum agent_executor "What is 2+3?" new_handler)) = 2
  ∧ ∃ fc, dict_get "answer" (tc_args fc) = Some (VStr "5")
      ∧ returned (invoke world_sum agent_executor "What is 2+3?" new_handler)
        = Ok (ReturnedCall fc).
Proof.
  edestruct (final_answer_exits world_sum agent_executor "What is 2+3?"
               new_handler 1) as [Hlen (fc & Hfc & Hret)].
  { vm_compute. reflexivity. }
  { vm_compute. reflexivity. }
  split; [exact Hlen |]. exists fc.
  destruct Hret as (answer & Ha & Hr); [vm_compute; reflexivity |].
  vm_compute in Hfc. injection Hfc as <-.
  vm_compute in Ha. injection Ha as <-.
  split; [vm_compute; reflexivity |]. by apply (Hr "5").
Defined.

(** C1 fails as stated. With an empty answer, the turn has a call named
    [final_answer] and [invoke] returns the answer "No answer found",
    which is not the [answer] argument of that call; and when another
    call of the same turn raises, [invoke] returns nothing. *)
Lemma final_answer_exits_counterexample :
  (∃ t fc,
     trace (invoke world_empty_answer agent_executor "Say nothing" new_handler) !! 0
     = Some t
     ∧ first_final (t_calls t) = Some fc
     ∧ dict_get "answer" (tc_args fc) = Some (VStr "")
     ∧ returned (invoke world_empty_answer agent_executor "Say nothing" new_handler)
       = Ok (ReturnedDict no_answer)
     ∧ dict_get "answer" no_answer = Some (VStr "No answer found"))
  ∧ (∃ t fc,
       trace (invoke world_failing_sibling agent_executor "What is 2+3?"
                new_handler) !! 0 = Some t
       ∧ first_final (t_calls t) = Some fc
       ∧ dict_get "answer" (tc_args fc) = Some (VStr "5")
       ∧ returned (invoke world_failing_sibling agent_executor "What is 2+3?"
                     new_handler)
         = Raise (TypeError "arguments")).
Proof.
  split.
  - eexists _, _. split; [vm_compute; reflexivity |].
    split; [vm_compute; reflexivity |]. repeat split; vm_compute; reflexivity.
  - eexists _, _. split; [vm_compute; reflexivity |].
    split; [vm_compute; reflexivity |]. repeat split; vm_compute; reflexivity.
Qed.

Lemma budget_exhausted_witness :
  returned (invoke world_no_answer agent_executor "What is 2+3?" new_handler)
  = Ok (ReturnedDict no_answer)
  ∧ length (trace (invoke world_no_answer agent_executor "What is 2+3?"
                     new_handler)) = 3.
Proof.
  apply (budget_exhausted world_no_answer agent_executor "What is 2+3?" new_handler).
  - intros t Hin. vm_compute in Hin.
    each_member Hin ltac:(vm_compute; reflexivity).
  - intros t Hin. vm_compute in Hin.
    each_member Hin ltac:(vm_compute; reflexivity).
Defined.

(** C2 fails as stated. No turn produces a call named [final_answer],
    and [invoke] raises instead of returning the dictionary: the second
    [add] of the first turn lacks an argument. *)
Lemma budget_exhausted_counterexample :
  (∀ t, t ∈ trace (invoke world_failing agent_executor "What is 2+3?" new_handler) →
     existsb named_final (t_calls t) = false)
  ∧ returned (invoke world_failing agent_executor "What is 2+3?" new_handler)
    = Raise (TypeError "arguments").
Proof.
  split; [| vm_compute; reflexivity].
  intros t Hin. vm_compute in Hin.
  each_member Hin ltac:(vm_compute; reflexivity).
Qed.

Lemma tool_failure_aborts_witness :
  length (trace (invoke world_failing agent_executor "What is 2+3?" new_handler)) = 1
  ∧ returned (invoke world_failing agent_executor "What is 2+3?" new_handler)
    = Raise (TypeError "arguments")
  ∧ self_after (invoke world_failing agent_executor "What is 2+3?" new_handler)
    = agent_executor.
Proof.
  edestruct (tool_failure_aborts world_failing agent_executor "What is 2+3?"
               new_handler 0)
    as (_ & e & (task & Hin & He) & _ & _ & Hlen & Hret & Hself).
  { vm_compute. reflexivity. }
  { eexists _, _. split.
    - vm_compute. apply elem_of_cons. right. apply elem_of_cons. left. reflexivity.
    - vm_compute. reflexivity. }
  assert (e = TypeError "arguments") as ->.
  { vm_compute in Hin.
    apply elem_of_cons in Hin as [->|Hin]; [discriminate He |].
    apply elem_of_cons in Hin as [->|Hin]; [by injection He |].
    by apply elem_of_nil in Hin. }
  done.
Defined.

(** C4 fails as stated. The second [add] of the first turn raises: no
    message is built for it, the gathering of the batch raises although
    the first [add] succeeded, and with a budget of three the invocation
    stops after this one turn with the exception, nothing having reached
    the scratchpad or the chat history. *)
Lemma tool_failure_aborts_counterexample :
  ∃ t ok failed,
    trace (invoke world_failing agent_executor "What is 2+3?" new_handler) = [t]
    ∧ t_tasks t = [ok; failed]
    ∧ is_ok (outcome ok) = true
    ∧ outcome failed = Raise (TypeError "arguments")
    ∧ t_obs t = Raise (TypeError "arguments")
    ∧ max_iterations agent_executor = 3%Z
    ∧ locals (invoke world_failing agent_executor "What is 2+3?" new_handler)
      = Raise (TypeError "arguments")
    ∧ returned (invoke world_failing agent_executor "What is 2+3?" new_handler)
      = Raise (TypeError "arguments")
    ∧ chat_history
        (self_after (invoke world_failing agent_executor "What is 2+3?"
                       new_handler)) = [].
Proof.
  eexists _, _, _. split; [vm_compute; reflexivity |].
  repeat split; vm_compute; reflexivity.
Qed.

(** C5 on a turn with two calls whose tasks finish in the other order:
    each call is followed by its own observation. *)
Lemma scratchpad_pairs_witness :
  completion_order world_two_adds 0 = [1; 0]
  ∧ ∃ add add' final_answer obs,
      locals (invoke world_two_adds agent_executor "What is 2+3?" new_handler)
      = Ok {| count := 2;
              final_answer := Some (VStr "5");
              final_answer_call := head (am_tool_calls final_answer);
              agent_scratchpad :=
                [AI add; Tool (observation "5" "call_1");
                 AI add'; Tool (observation "6" "call_2");
                 AI final_answer; Tool obs] |}
      ∧ am_tool_call_id add = Some "call_1"
      ∧ am_tool_call_id add' = Some "call_2"
      ∧ paired [AI add; Tool (observation "5" "call_1");
                AI add'; Tool (observation "6" "call_2");
                AI final_answer; Tool obs]
               [add; add'; final_answer].
Proof.
  split; [reflexivity |].
  edestruct (scratchpad_pairs world_two_adds agent_executor "What is 2+3?"
               new_handler) as [_ Hend].
  { intros t Hin. vm_compute in Hin.
    each_member Hin ltac:(apply (bool_decide_unpack _); vm_compute; exact I). }
  edestruct Hend as [_ Hpaired]; [vm_compute; reflexivity |].
  vm_compute in Hpaired.
  eexists _, _, _, _.
  refine (conj _ (conj _ (conj _ Hpaired)));
    [vm_compute; reflexivity | reflexivity | reflexivity].
Defined.

(** C7 on the invocations in which the code does not publish exactly
    one [<<DONE>>]. When the budget runs out without the final answer,
    [invoke] returns its fallback after three turns that each end with
    [<<STEP_END>>]: no [<<DONE>>] is published, and [__aiter__] has not
    returned when the queue is empty. When a delta names [final_answer]
    in a turn that gives no message, the loop goes on, and that turn
    and the next both end with [<<DONE>>]: two are published, and the
    second stays in the queue when [__aiter__] has returned. *)
Lemma done_sentinels_fails :
  returned (invoke world_no_answer agent_executor "What is 2+3?" new_handler)
  = Ok (ReturnedDict no_answer)
  ∧ length (trace (invoke world_no_answer agent_executor "What is 2+3?"
                     new_handler)) = 3
  ∧ filter (λ item, is_str "<<STEP_END>>" item = true)
      (published (invoke world_no_answer agent_executor "What is 2+3?"
                    new_handler))
    = [QStr "<<STEP_END>>"; QStr "<<STEP_END>>"; QStr "<<STEP_END>>"]
  ∧ dones (published (invoke world_no_answer agent_executor "What is 2+3?"
                        new_handler)) = []
  ∧ (aiter (published (invoke world_no_answer agent_executor "What is 2+3?"
                         new_handler))).2 = Polling
  ∧ length (trace (invoke world_named_early agent_executor "What is 2+3?"
                     new_handler)) = 2
  ∧ dones (published (invoke world_named_early agent_executor "What is 2+3?"
                        new_handler))
    = [QStr "<<DONE>>"; QStr "<<DONE>>"]
  ∧ (aiter (published (invoke world_named_early agent_executor "What is 2+3?"
                         new_handler))).2 = Finished.
Proof. repeat split; vm_compute; reflexivity. Qed.

Lemma no_sentinel_forwarded_witness :
  ∃ msg,
    QChunk msg
    ∈ before_done (published (invoke world_sentinel_text agent_executor
                                "Repeat" new_handler))
    ∧ "<<DONE>>" ∈ argument_texts world_sentinel_text msg.
Proof.
  edestruct (no_sentinel_forwarded world_sentinel_text
               (published (invoke world_sentinel_text agent_executor
                             "Repeat" new_handler))
               false false "<<DONE>>") as (_ & H & _).
  { left. vm_compute. do 2 (apply elem_of_cons; right).
    apply elem_of_cons. left. reflexivity. }
  apply H. by right.
Defined.

(** C9 fails as stated. The model's answer is the text [<<DONE>>], which
    arrives as a piece of the argument text: [stream_generator] yields
    it as it is, among the visible fragments. *)
Lemma no_sentinel_forwarded_counterexample :
  stream_generator world_sentinel_text
    (published (invoke world_sentinel_text agent_executor "Repeat" new_handler))
    false false
  = [step_header "final_answer"; text_answer_open; "<<DONE>>"; text_answer_close].
Proof. vm_compute. reflexivity. Qed.

(** ** The scenarios of the specification *)

(** Scenario A: the model adds, then answers; two steps are streamed and
    the loop ends after two iterations with the answer 5. *)
Example scenario_a :
  length (trace (invoke world_sum agent_executor "What is 2+3?" new_handler)) = 2
  ∧ stream_generator world_sum
      (published (invoke world_sum agent_executor "What is 2+3?" new_handler))
      false false
    = [step_header "add"; text_add; "</step>";
       step_header "final_answer"; text_answer "5"].
Proof. split; vm_compute; reflexivity. Qed.


(** * More properties *)

(** ** The registry and the tasks *)

Lemma tools_names w : (tools w).*1
  = ["add"; "subtract"; "multiply"; "exponentiate"; "final_answer"; "serpapi"].
Proof. reflexivity. Qed.

Lemma name2tool_is_Some w name :
  is_Some (name2tool w !! name) ↔ name ∈ (tools w).*1.
Proof.
  split.
  - intros [f Hf]. apply name2tool_lookup in Hf.
    apply list_elem_of_fmap. by exists (name, f).
  - apply dict_of_is_Some.
Qed.

(** X1. The registry knows the six tools and no other name. A task
    whose first tool call names a tool outside the registry raises
    [KeyError] with that name and calls nothing; for a name of the
    registry the task calls that tool, with the arguments of the first
    tool call. *)
Theorem unknown_tool_raises w turn pos m tc rest :
  am_tool_calls m = tc :: rest →
  (is_Some (name2tool w !! tc_name tc)
   ↔ tc_name tc ∈ ["add"; "subtract"; "multiply"; "exponentiate";
                   "final_answer"; "serpapi"])
  ∧ (name2tool w !! tc_name tc = None →
     execute_tool w turn pos m
     = {| invoked := None; outcome := Raise (KeyError (tc_name tc)) |})
  ∧ (is_Some (name2tool w !! tc_name tc) →
     invoked (execute_tool w turn pos m) = Some (tc_name tc, tc_args tc)).
Proof.
  intros Hm. split; [| split].
  - by rewrite name2tool_is_Some, tools_names.
  - intros Hnone. unfold execute_tool. by rewrite Hm, Hnone.
  - intros [f Hf]. unfold execute_tool. by rewrite Hm, Hf.
Qed.

Lemma binds_keys params (kwargs : Dict) :
  binds params kwargs = true ↔ (∀ k, k ∈ dict_keys kwargs ↔ k ∈ params).
Proof.
  unfold binds. rewrite andb_true_iff, !forallb_forall.
  setoid_rewrite <- list_elem_of_In. setoid_rewrite bool_decide_eq_true.
  split; [intros [H1 H2] k; split; auto | intros H; split; intros k; apply H].
Qed.

Lemma dict_get_Some_keys k (d : Dict) v : dict_get k d = Some v → k ∈ dict_keys d.
Proof.
  unfold dict_keys. induction d as [|[k' v'] d IH]; simpl; [done |].
  destruct (String.eqb_spec k k') as [->|Hne].
  - intros _. apply elem_of_cons. by left.
  - intros H. apply elem_of_cons. right. by apply IH.
Qed.

(** X2. The [final_answer] tool does nothing but hand its arguments
    back. A task for it raises [TypeError] unless the arguments of the
    call are [answer] and [tools_used] and nothing else. When they are,
    the tool returns the dictionary of these two arguments, and the task
    succeeds exactly when the call also has an id: its observation is
    then the text of that dictionary under that id, whatever the turn,
    the position and the rest of the world, and without an id the
    message class refuses the observation. *)
Theorem final_answer_identity w turn pos m tc rest :
  am_tool_calls m = tc :: rest →
  tc_name tc = "final_answer" →
  (if binds ["answer"; "tools_used"] (tc_args tc) then
     ∃ answer tools_used,
       dict_get "answer" (tc_args tc) = Some answer
       ∧ dict_get "tools_used" (tc_args tc) = Some tools_used
       ∧ outcome (execute_tool w turn pos m)
         = match tc_id tc with
           | Some id =>
               Ok {| tm_content :=
                       format_out w (VDict [("answer", answer);
                                            ("tools_used", tools_used)]);
                     tm_tool_call_id := id |}
           | None => Raise (ToolFailure "ValidationError")
           end
   else outcome (execute_tool w turn pos m) = Raise (TypeError "arguments"))
  ∧ (binds ["answer"; "tools_used"] (tc_args tc) = true
     ↔ ∀ k, k ∈ dict_keys (tc_args tc) ↔ k = "answer" ∨ k = "tools_used")
  ∧ (is_ok (outcome (execute_tool w turn pos m)) = true
     ↔ binds ["answer"; "tools_used"] (tc_args tc) = true ∧ is_Some (tc_id tc)).
Proof.
  intros Hm Hname.
  assert (if binds ["answer"; "tools_used"] (tc_args tc) then
            ∃ answer tools_used,
              dict_get "answer" (tc_args tc) = Some answer
              ∧ dict_get "tools_used" (tc_args tc) = Some tools_used
              ∧ outcome (execute_tool w turn pos m)
                = match tc_id tc with
                  | Some id =>
                      Ok {| tm_content :=
                              format_out w (VDict [("answer", answer);
                                                   ("tools_used", tools_used)]);
                            tm_tool_call_id := id |}
                  | None => Raise (ToolFailure "ValidationError")
                  end
          else outcome (execute_tool w turn pos m) = Raise (TypeError "arguments"))
    as Hout.
  { unfold execute_tool. rewrite Hm, Hname, name2tool_final_answer. simpl.
    unfold call. simpl.
    destruct (binds _ _) eqn:Hb; [| done].
    pose proof (proj1 (binds_keys _ _) Hb) as Hk.
    destruct (dict_get_is_Some "answer" (tc_args tc)) as [a Ha].
    { apply Hk, elem_of_cons. by left. }
    destruct (dict_get_is_Some "tools_used" (tc_args tc)) as [t Ht].
    { apply Hk, elem_of_cons. right. apply elem_of_cons. by left. }
    exists a, t. by rewrite Ha, Ht. }
  split; [done |]. split.
  - rewrite binds_keys. apply forall_proper. intros k.
    rewrite !elem_of_cons, elem_of_nil. tauto.
  - destruct (binds _ _).
    + destruct Hout as (a & t & _ & _ & ->).
      destruct (tc_id tc) as [id|]; simpl.
      * split; [intros _; split; [done | by eexists] | done].
      * split; [done | intros [_ [? ?]]; done].
    + rewrite Hout. simpl. split; [done | by intros [? _]].
Qed.

(** ** The chat history *)

Lemma unrolls_answer w self input fuel streamer fr run fr' :
  unrolls w self input fuel streamer fr run →
  final_answer fr = None →
  result run = Ok fr' →
  match final_answer fr' with
  | Some answer =>
      ∃ fc, final_answer_call fr' = Some fc
            ∧ dict_get "answer" (tc_args fc) = Some answer
  | None => True
  end.
Proof.
  intros Hrun Hnone Hr.
  pose proof (unrolls_result _ _ _ _ _ _ _ Hrun) as Hres.
  destruct (last (turns run)) as [t|].
  - destruct (t_obs t); [| congruence].
    destruct Hres as (fr'' & Hr' & _ & Hfa & Hfc & _).
    assert (fr'' = fr') as -> by congruence.
    rewrite Hfa, Hfc. destruct (first_final (t_calls t)) as [fc|].
    + destruct (dict_get "answer" (tc_args fc)) eqn:E; [| done]. by exists fc.
    + by rewrite Hnone.
  - destruct Hres as [Hr' _]. assert (fr' = fr) as -> by congruence.
    by rewrite Hnone.
Qed.

(** X4. [max_iterations] never changes, and an invocation that raises
    leaves the executor as it was, whether the loop raised or the
    message for the chat history was refused. The latter happens
    exactly when the loop ends with a truthy answer that is neither a
    text nor a list of texts and dictionaries. An invocation that
    returns the fallback dictionary, which is the only dictionary it
    returns, appends exactly two messages to the chat history: the
    input and an assistant message "No answer found". An invocation
    that returns a call returns one whose [answer] argument is truthy,
    and appends the input and an assistant message with that answer. *)
Theorem history_update w self input streamer :
  max_iterations (self_after (invoke w self input streamer))
  = max_iterations self
  ∧ match returned (invoke w self input streamer) with
    | Raise _ => self_after (invoke w self input streamer) = self
    | Ok (ReturnedDict d) =>
        d = no_answer
        ∧ chat_history (self_after (invoke w self input streamer))
          = chat_history self
            ++ [Human input;
                AI {| am_content := VStr "No answer found";
                      am_tool_calls := []; am_tool_call_id := None |}]
    | Ok (ReturnedCall fc) =>
        ∃ said,
          dict_get "answer" (tc_args fc) = Some said
          ∧ truthy said = true
          ∧ valid_content said = true
          ∧ chat_history (self_after (invoke w self input streamer))
            = chat_history self
              ++ [Human input;
                  AI {| am_content := said;
                        am_tool_calls := []; am_tool_call_id := None |}]
    end
  ∧ ∀ fr, locals (invoke w self input streamer) = Ok fr →
      is_ok (returned (invoke w self input streamer)) = false
      ↔ ∃ answer, final_answer fr = Some answer
                  ∧ truthy answer = true ∧ valid_content answer = false.
Proof.
  pose proof (invoke_unrolls w self input streamer) as Hrun.
  unfold invoke.
  destruct (result (run_loop w self input streamer)) as [fr|e] eqn:Hr; simpl;
    [| done].
  pose proof (unrolls_answer _ _ _ _ _ _ _ _ Hrun eq_refl Hr) as Hans.
  destruct (final_answer fr) as [answer|] eqn:Hfa; simpl.
  - destruct Hans as (fc & Hfc & Ha).
    destruct (truthy answer) eqn:Htruthy; simpl.
    + destruct (valid_content answer) eqn:Hvalid; simpl.
      * rewrite Hfc. split; [done |]. split; [by exists answer |].
        intros fr' [= <-]. rewrite Hfa. split; [done |].
        intros (a & [= <-] & _ & ?). congruence.
      * split; [done |]. split; [done |]. intros fr' [= <-]. split; [| done].
        intros _. by exists answer.
    + split; [done |]. split; [done |]. intros fr' [= <-]. rewrite Hfa.
      split; [done |]. intros (a & [= <-] & ? & _). congruence.
  - split; [done |]. split; [done |]. intros fr' [= <-]. rewrite Hfa.
    split; [done |]. by intros (a & ? & _).
Qed.

(** ** Observations by id *)

Lemma filter_none {A} (P : A → Prop) `{∀ x, Decision (P x)} (l : list A) :
  (∀ x, x ∈ l → ¬ P x) → filter P l = [].
Proof.
  induction l as [|x l IH]; intros Hl; [done |].
  rewrite filter_cons_False.
  - apply IH. intros y Hy. apply Hl, elem_of_cons. by right.
  - apply Hl, elem_of_cons. by left.
Qed.

Lemma last_value_snoc {K V} `{EqDecision K} (k k' : K) (v : V) items :
  last_value k (items ++ [(k', v)])
  = if decide (k' = k) then Some v else last_value k items.
Proof.
  unfold last_value. rewrite filter_app.
  destruct (decide (k' = k)) as [->|Hne].
  - rewrite (filter_cons_True _ (k, v)) by done.
    by rewrite filter_nil, last_snoc.
  - rewrite (filter_cons_False _ (k', v)) by done.
    by rewrite filter_nil, app_nil_r.
Qed.

Lemma dict_of_last `{Countable K} {V} (items : list (K * V)) k :
  dict_of items !! k = last_value k items.
Proof.
  induction items as [|[k' v] items IH] using rev_ind; [done |].
  rewrite dict_of_snoc, last_value_snoc, lookup_insert.
  by destruct (decide (k' = k)).
Qed.

Lemma last_value_lookup {K V} `{EqDecision K} (k : K) (v : V) items j :
  items !! j = Some (k, v) →
  (∀ j' kv, j < j' → items !! j' = Some kv → kv.1 ≠ k) →
  last_value k items = Some v.
Proof.
  intros Hj Hlater. unfold last_value.
  rewrite <- (take_drop_middle _ _ _ Hj), filter_app.
  rewrite (filter_cons_True _ (k, v)) by done.
  rewrite (filter_none _ (drop (S j) items)); [by rewrite last_snoc |].
  intros kv [i Hi]%list_elem_of_lookup_1. rewrite lookup_drop in Hi.
  apply (Hlater (S j + i)); [lia | done].
Qed.

Lemma extend_scratchpad_lookup id2tool_obs calls sp :
  (∀ c, c ∈ calls → is_Some (id2tool_obs !! am_tool_call_id c)) →
  ∃ obs, extend_scratchpad id2tool_obs calls sp = Ok (sp ++ entries calls obs)
    ∧ length obs = length calls
    ∧ ∀ i c, calls !! i = Some c →
        obs !! i = id2tool_obs !! am_tool_call_id c.
Proof.
  revert sp. induction calls as [|c calls IH]; intros sp Hin.
  - exists []. simpl. by rewrite app_nil_r.
  - destruct (Hin c) as [o Ho]; [apply elem_of_cons; by left |].
    destruct (IH (sp ++ [AI c; Tool o])) as (obs & Hext & Hlen & Hobs).
    { intros c' Hc'. apply Hin, elem_of_cons. by right. }
    exists (o :: obs). simpl. rewrite Ho, Hext, entries_cons, <- app_assoc.
    split; [done |]. split; [by rewrite Hlen |].
    intros [|i] c'; simpl; [by intros [= <-] | apply Hobs].
Qed.

(** X5. The observations are filed by the id of their call, so among
    calls that share an id the last observation wins: when a batch of
    calls is added to the scratchpad with its observations, every call
    is followed by the observation of the last call of the batch that
    has its id. The two lists are still interleaved one to one, and
    nothing is raised. *)
Theorem last_observation_wins calls obs sp :
  length obs = length calls →
  ∃ filed,
    extend_scratchpad (dict_of (zip (am_tool_call_id <$> calls) obs)) calls sp
    = Ok (sp ++ entries calls filed)
    ∧ length filed = length calls
    ∧ ∀ i j c c' o,
        calls !! i = Some c →
        calls !! j = Some c' →
        obs !! j = Some o →
        am_tool_call_id c' = am_tool_call_id c →
        (∀ j' c'', j < j' → calls !! j' = Some c'' →
           am_tool_call_id c'' ≠ am_tool_call_id c) →
        filed !! i = Some o.
Proof.
  intros Hlen.
  destruct (extend_scratchpad_lookup
              (dict_of (zip (am_tool_call_id <$> calls) obs)) calls sp)
    as (filed & Hext & Hflen & Hfiled).
  { intros c Hc. apply dict_of_is_Some. rewrite fst_zip.
    - by apply list_elem_of_fmap_2.
    - rewrite length_fmap. lia. }
  exists filed. split; [done |]. split; [done |].
  intros i j c c' o Hi Hj Ho Hid Hlater.
  rewrite (Hfiled i c Hi), dict_of_last.
  apply (last_value_lookup _ _ _ j).
  - rewrite lookup_zip_with, list_lookup_fmap, Hj. simpl. by rewrite Ho, Hid.
  - intros j' [k o'] Hlt Hj'. simpl.
    rewrite lookup_zip_with, list_lookup_fmap in Hj'.
    destruct (calls !! j') as [c''|] eqn:Ec; [| done]. simpl in Hj'.
    destruct (obs !! j'); [| done]. simpl in Hj'. injection Hj' as <- <-.
    by apply (Hlater j' c'').
Qed.

(** ** What the collector keeps *)

Lemma stream_step_length w outputs token :
  length (stream_step w outputs token)
  = length outputs + (if opens w token then 1 else 0).
Proof.
  unfold stream_step, opens. destruct (chunk_or_call w token) as [fragment|].
  - destruct (has_id fragment || has_name fragment).
    + rewrite length_app. simpl. lia.
    + destruct outputs; [simpl; lia |]. rewrite length_alter. lia.
  - lia.
Qed.

Lemma foldl_stream_step_length w tokens outputs :
  length (foldl (stream_step w) outputs tokens)
  = length outputs + length (filter (λ token, opens w token = true) tokens).
Proof.
  revert outputs. induction tokens as [|token tokens IH]; intros outputs; simpl.
  - lia.
  - rewrite IH, stream_step_length. destruct (opens w token) eqn:E.
    + rewrite filter_cons_True by done. simpl. lia.
    + rewrite filter_cons_False by (by rewrite E). lia.
Qed.

Lemma foldl_stream_step_skip w tokens outputs :
  foldl (stream_step w) outputs
    (filter (λ token, is_Some (chunk_or_call w token)) tokens)
  = foldl (stream_step w) outputs tokens.
Proof.
  revert outputs. induction tokens as [|token tokens IH]; intros outputs; [done |].
  destruct (chunk_or_call w token) as [fragment|] eqn:E.
  - rewrite filter_cons_True by (cbv beta; rewrite E; by eexists). simpl. apply IH.
  - rewrite filter_cons_False by (cbv beta; rewrite E; by intros [? ?]).
    cbn [foldl]. replace (stream_step w outputs token) with outputs; [apply IH |].
    unfold stream_step. by rewrite E.
Qed.

Lemma collect_leading w before tokens :
  Forall (λ token, opens w token = false) before →
  collect w (before ++ tokens) = collect w tokens.
Proof.
  intros Hbefore. unfold collect. rewrite foldl_app. f_equal.
  induction Hbefore as [|token before Hopen _ IH]; [done |]. cbn [foldl].
  replace (stream_step w [] token) with (@nil AIMessageChunk); [exact IH |].
  unfold stream_step, opens in *.
  destruct (chunk_or_call w token) as [fragment|]; [| done]. by rewrite Hopen.
Qed.

Lemma omap_length_le {A B} (f : A → option B) (l : list A) :
  length (omap f l) ≤ length l.
Proof.
  unfold omap. induction l as [|x l IH]; simpl; [lia |].
  destruct (f x); simpl; lia.
Qed.

(** X6. The collector has one output for each delta that opens a call,
    one whose first fragment has an id or a name, and so at most one
    message for each of them. A delta without any fragment changes
    nothing wherever it comes, and so do the deltas that come before the
    first opening one: continuations with no call to continue are
    dropped. *)
Theorem collector_outputs w before tokens :
  length (collect w tokens)
  = length (filter (λ token, opens w token = true) tokens)
  ∧ length (stream w tokens) ≤ length (collect w tokens)
  ∧ collect w (filter (λ token, is_Some (chunk_or_call w token)) tokens)
    = collect w tokens
  ∧ (Forall (λ token, opens w token = false) before →
     collect w (before ++ tokens) = collect w tokens
     ∧ stream w (before ++ tokens) = stream w tokens).
Proof.
  split; [| split; [| split]].
  - unfold collect. by rewrite foldl_stream_step_length.
  - unfold stream. apply omap_length_le.
  - apply foldl_stream_step_skip.
  - intros Hbefore. unfold stream. by rewrite collect_leading.
Qed.

(** ** Where an exception comes from *)

(** X7. Where the model call of every turn delivers its deltas and
    ends, as [invoke] is modelled, the loop raises only what a task
    raises. When the loop of an invocation ends with an exception, the
    exception is the one of a task of its last turn, the task of a
    collected message with first tool call [tc], and one of three things
    happened: the registry does not have the name of [tc], which is a
    [KeyError] with the name; or the tool was called with the arguments
    of [tc] and raised; or the tool returned but [tc] has no id, so that
    the message class refused the observation. The scan for the final
    answer, the filing of the observations and the reading of the first
    tool call of a message never raise. The invocation then raises this
    exception. *)
Theorem raises_from_a_task w self input streamer e :
  locals (invoke w self input streamer) = Raise e →
  returned (invoke w self input streamer) = Raise e
  ∧ ∃ t pos c tc rest,
      last (trace (invoke w self input streamer)) = Some t
      ∧ t_calls t !! pos = Some c
      ∧ am_tool_calls c = tc :: rest
      ∧ t_tasks t !! pos
        = Some (execute_tool w (pred (length (trace (invoke w self input streamer))))
                  pos c)
      ∧ outcome (execute_tool w (pred (length (trace (invoke w self input streamer))))
                   pos c) = Raise e
      ∧ ((name2tool w !! tc_name tc = None ∧ e = KeyError (tc_name tc))
         ∨ (∃ f, name2tool w !! tc_name tc = Some f
                 ∧ call f (pred (length (trace (invoke w self input streamer))))
                      pos (tc_args tc) = Raise e)
         ∨ (∃ f tool_out,
              name2tool w !! tc_name tc = Some f
              ∧ call f (pred (length (trace (invoke w self input streamer))))
                   pos (tc_args tc) = Ok tool_out
              ∧ tc_id tc = None
              ∧ e = ToolFailure "ValidationError")).
Proof.
  rewrite invoke_locals. intros Hraise.
  split; [by apply invoke_Raise |].
  pose proof (invoke_unrolls w self input streamer) as Hrun.
  pose proof (unrolls_result _ _ _ _ _ _ _ Hrun) as Hres.
  rewrite invoke_trace.
  destruct (last (turns (run_loop w self input streamer))) as [t|] eqn:Hl.
  - pose proof Hl as Hk. rewrite last_lookup in Hk.
    destruct (unrolls_turn_at _ _ _ _ _ _ _ _ _ Hrun Hk) as (Hcalls & Htasks & Hg).
    simpl in Htasks, Hg.
    destruct (t_obs t) as [obs|e'] eqn:Hobs.
    + destruct Hres as (fr' & Hr & _). congruence.
    + assert (e' = e) as -> by congruence.
      symmetry in Hg.
      apply gather_Raise, list_elem_of_fmap in Hg as (task & Hout & Hin).
      rewrite Htasks in Hin.
      apply list_elem_of_lookup_1 in Hin as [i Hi].
      pose proof Hi as Hi'. rewrite list_lookup_imap in Hi'.
      destruct (t_calls t !! i) as [c|] eqn:Hc; [| done].
      injection Hi' as <-.
      assert (well_formed c) as (tc & rest & Hm & _).
      { eapply Forall_lookup_1; [| exact Hc]. rewrite Hcalls.
        apply stream_well_formed. }
      exists t, i, c, tc, rest. split; [done |]. split; [done |]. split; [done |].
      split; [by rewrite Htasks, list_lookup_imap, Hc |]. split; [done |].
      revert Hout. unfold execute_tool. rewrite Hm.
      destruct (name2tool w !! tc_name tc) as [f|] eqn:Hf; simpl.
      * destruct (call f _ i (tc_args tc)) as [v|e''] eqn:Hcall; simpl.
        -- destruct (tc_id tc); [done |]. intros [= <-]. right. right.
           by exists f, v.
        -- intros [= <-]. right. left. by exists f.
      * intros [= ->]. by left.
  - destruct Hres as [Hr _]. congruence.
Qed.

(** ** The sentinels *)

(** X18. The sentinels of an invocation. The handler publishes the
    deltas of each turn and then, at the end of the turn, one sentinel:
    [<<DONE>>] when [final_answer_seen] is set, which a delta of that
    turn or of an earlier one does by naming [final_answer] and nothing
    undoes, and [<<STEP_END>>] otherwise. So the number of [<<DONE>>]
    published by a new handler is the number of turns made from the
    first one with such a delta on, none when there is no such delta.
    Reading the queue, [__aiter__] yields the non-empty items that come
    before the first [<<DONE>>], never a [<<DONE>>], and it returns
    exactly when a [<<DONE>>] is published. *)
Theorem sentinels_published w self input streamer :
  published (invoke w self input streamer)
  = queue streamer
    ++ published_by w (final_answer_seen streamer)
         (t_tokens <$> trace (invoke w self input streamer))
  ∧ length (dones (published_by w (final_answer_seen streamer)
                     (t_tokens <$> trace (invoke w self input streamer))))
    = length (if final_answer_seen streamer
              then t_tokens <$> trace (invoke w self input streamer)
              else from_first_named w
                     (t_tokens <$> trace (invoke w self input streamer)))
  ∧ ∀ q,
      (aiter q).1 = filter (λ item, is_str "" item = false) (before_done q)
      ∧ (∀ item, item ∈ (aiter q).1 → is_str "<<DONE>>" item = false)
      ∧ ((aiter q).2 = Finished ↔ QStr "<<DONE>>" ∈ q).
Proof.
  split; [| split].
  - rewrite invoke_published, invoke_trace.
    apply (unrolls_published _ _ _ _ _ _ _ (invoke_unrolls w self input streamer)).
  - apply dones_published.
  - intros q. destruct (aiter_spec q) as [Hy He]. split; [done | split; [| done]].
    intros item. rewrite Hy. intros [_ Hin]%list_elem_of_filter.
    by eapply before_done_no_done.
Qed.

(** ** The consumers, as the queue fills *)

Lemma stream_generator_complete w q started :
  stream_generator w q started true = [].
Proof.
  induction q as [|token q IH]; [done |]. simpl.
  destruct (is_str "<<DONE>>" token); [done |].
  by destruct (is_str "<<STEP_END>>" token).
Qed.

Lemma stream_response_loop_spec w q result started complete :
  stream_response_loop w q result started complete
  = result ++ stream_generator w q started complete.
Proof.
  revert result started complete.
  induction q as [|token q IH]; intros result started complete; simpl.
  - by rewrite app_nil_r.
  - destruct (is_str "<<DONE>>" token); [by rewrite app_nil_r |].
    destruct (is_str "<<STEP_END>>" token).
    + destruct complete; simpl; [apply IH |].
      rewrite IH. by rewrite <- app_assoc.
    + destruct complete; [apply IH |].
      destruct token as [msg|s]; [| apply IH].
      destruct (generator_view w msg) as [tool_name tool_args].
      rewrite IH. by rewrite <- app_assoc.
Qed.

(** X8. The buffering consumer of [lambda-code/lambda_handler.py] is
    the streaming one of [app.py] with its fragments joined: the text
    [stream_response] has built when it is through with the queue is the
    concatenation, in order, of what [stream_generator] yields on the
    same queue, and at any moment its [result] is what it was given
    followed by what [stream_generator] yields from there. *)
Theorem buffered_is_streamed w q result started complete :
  joined w q = join (stream_generator w q false false)
  ∧ stream_response_loop w q result started complete
    = result ++ stream_generator w q started complete.
Proof.
  split; [| apply stream_response_loop_spec].
  unfold joined. by rewrite stream_response_loop_spec.
Qed.

Lemma stream_generator_step w step started :
  Forall (λ item, is_str "<<DONE>>" item = false
                  ∧ is_str "<<STEP_END>>" item = false) step →
  ∃ started',
    (started' = true
     ↔ started = true
       ∨ ∃ msg, QChunk msg ∈ step
                ∧ (generator_view w msg).1 = Some "final_answer")
    ∧ ∀ rest,
        stream_generator w (step ++ rest) started false
        = stream_generator w step started false
          ++ stream_generator w rest started' false.
Proof.
  intros Hstep. revert started.
  induction Hstep as [|item step [Hd Hs] _ IH]; intros started.
  - exists started. split; [| done]. split; [by left |].
    intros [?|(msg & ?%elem_of_nil & _)]; done.
  - destruct item as [msg|s].
    + destruct (generator_view w msg) as [tool_name tool_args] eqn:Hview.
      destruct (IH (if nonempty tool_name
                    then started || bool_decide (tool_name = Some "final_answer")
                    else started)) as (started' & Hstarted & Happ).
      exists started'. split.
      * rewrite Hstarted. split.
        -- intros [Hnow|(msg' & Hin & Hname)].
           ++ destruct (nonempty tool_name); [| by left].
              apply orb_true_iff in Hnow as [?|Hnow]; [by left |].
              apply bool_decide_eq_true in Hnow. right. exists msg.
              split; [apply elem_of_cons; by left |]. by rewrite Hview.
           ++ right. exists msg'. split; [apply elem_of_cons; by right | done].
        -- intros [->|(msg' & Hin & Hname)].
           ++ left. by destruct (nonempty tool_name).
           ++ apply elem_of_cons in Hin as [[= <-]|Hin].
              ** left. rewrite Hview in Hname. simpl in Hname. subst tool_name.
                 by destruct started; vm_compute.
              ** right. by exists msg'.
      * intros rest. simpl. rewrite Hview, Happ. by rewrite <- app_assoc.
    + destruct (IH started) as (started' & Hstarted & Happ).
      exists started'. split.
      * rewrite Hstarted. split.
        -- intros [?|(msg' & Hin & Hname)]; [by left |].
           right. exists msg'. split; [apply elem_of_cons; by right | done].
        -- intros [?|(msg' & Hin & Hname)]; [by left |].
           apply elem_of_cons in Hin as [[=]|Hin]. right. by exists msg'.
      * intros rest. simpl in Hd, Hs. simpl. rewrite Hd, Hs. apply Happ.
Qed.

(** X9. The stream ends with the step of the final answer. When the
    deltas of a step are followed by [<<STEP_END>>], and [final_answer]
    was named by one of them or before, [stream_generator] yields the
    fragments of these deltas, then [</step>], and nothing of what is
    published afterwards; and once the final answer is complete it
    yields nothing at all. *)
Theorem nothing_after_final_answer w step rest started :
  Forall (λ item, is_str "<<DONE>>" item = false
                  ∧ is_str "<<STEP_END>>" item = false) step →
  (started = true
   ∨ ∃ msg, QChunk msg ∈ step
            ∧ (generator_view w msg).1 = Some "final_answer") →
  stream_generator w (step ++ QStr "<<STEP_END>>" :: rest) started false
  = stream_generator w step started false ++ ["</step>"]
  ∧ ∀ q started', stream_generator w q started' true = [].
Proof.
  intros Hstep Hnamed. split; [| intros; apply stream_generator_complete].
  destruct (stream_generator_step w step started Hstep)
    as (started' & Hstarted & ->).
  apply Hstarted in Hnamed as ->.
  simpl. by rewrite stream_generator_complete.
Qed.

Lemma aiter_app q1 q2 :
  aiter (q1 ++ q2)
  = if existsb (is_str "<<DONE>>") q1 then aiter q1
    else ((aiter q1).1 ++ (aiter q2).1, (aiter q2).2).
Proof.
  induction q1 as [|item q1 IH]; simpl.
  - by destruct (aiter q2).
  - destruct (is_str "<<DONE>>" item) eqn:Hd; simpl; [done |].
    rewrite IH. destruct (existsb (is_str "<<DONE>>") q1); [done |].
    destruct (aiter q1) as [y1 e1], (aiter q2) as [y2 e2]. simpl.
    by destruct (is_str "" item).
Qed.

Lemma stream_generator_prefix w q1 q2 started complete :
  stream_generator w q1 started complete
  `prefix_of` stream_generator w (q1 ++ q2) started complete.
Proof.
  revert started complete.
  induction q1 as [|item q1 IH]; intros started complete; simpl.
  - apply prefix_nil.
  - destruct (is_str "<<DONE>>" item); [done |].
    destruct (is_str "<<STEP_END>>" item).
    + destruct complete; simpl; [apply IH |]. apply prefix_cons, IH.
    + destruct complete; [apply IH |].
      destruct item as [msg|s]; [| apply IH].
      destruct (generator_view w msg) as [tool_name tool_args].
      apply prefix_app, IH.
Qed.

(** X10. What has been streamed is never taken back. Reading a queue
    to which more items are published later, [__aiter__] yields first
    what it yields on the items published so far; it stops at the first
    [<<DONE>>], so nothing published after it is ever read. The same
    holds for what [stream_generator] and [stream_response] yield: the
    fragments for the items published so far are a prefix of the
    fragments for all of them. *)
Theorem streams_grow w q1 q2 started complete :
  aiter (q1 ++ q2)
  = (if existsb (is_str "<<DONE>>") q1 then aiter q1
     else ((aiter q1).1 ++ (aiter q2).1, (aiter q2).2))
  ∧ (aiter q1).1 `prefix_of` (aiter (q1 ++ q2)).1
  ∧ stream_generator w q1 started complete
    `prefix_of` stream_generator w (q1 ++ q2) started complete
  ∧ (stream_response q1).1 `prefix_of` (stream_response (q1 ++ q2)).1.
Proof.
  assert ((aiter q1).1 `prefix_of` (aiter (q1 ++ q2)).1) as Hprefix.
  { rewrite aiter_app. destruct (existsb _ q1); [done |]. simpl.
    by apply prefix_app_r. }
  split; [apply aiter_app |]. split; [done |].
  split; [apply stream_generator_prefix |].
  unfold stream_response.
  destruct Hprefix as [more Hmore].
  destruct (aiter q1) as [y1 e1], (aiter (q1 ++ q2)) as [y e]. simpl in *.
  subst y. rewrite bind_app. by apply prefix_app_r.
Qed.

(** ** The consumer of [application/api] *)

Lemma aiter_old_format q :
  aiter (old_format <$> q) = ((old_format <$> (aiter q).1), (aiter q).2).
Proof.
  induction q as [|item q IH]; [done |].
  rewrite fmap_cons. cbn [aiter]. rewrite IH.
  destruct item as [msg|s]; simpl.
  - by destruct (aiter q).
  - destruct (String.eqb s "<<DONE>>"); [done |].
    destruct (aiter q). by destruct (String.eqb s "").
Qed.

Lemma response_fragments_old_format item :
  response_fragments (old_format item) = response_fragments item.
Proof. by destruct item. Qed.

Lemma bind_old_format tokens :
  (old_format <$> tokens) ≫= response_fragments = tokens ≫= response_fragments.
Proof.
  induction tokens as [|token tokens IH]; [done |].
  rewrite fmap_cons, !bind_cons, response_fragments_old_format. by rewrite IH.
Qed.

(** X11. The consumer of [application/api/lambda_handler.py] reads the
    older shape of a delta only: what it yields, and whether its reading
    ends, depend on the [additional_kwargs] of the deltas and on nothing
    else in them. On deltas that carry their tool calls in the newer
    shapes only, it yields [</step>] for each [<<STEP_END>>] and no
    step header and no argument text. *)
Theorem api_reads_old_format q :
  stream_response (old_format <$> q) = stream_response q
  ∧ ((∀ msg, QChunk msg ∈ q → kw_tool_calls msg = []) →
     ∀ f, f ∈ (stream_response q).1 → f = "</step>").
Proof.
  split.
  - unfold stream_response. rewrite aiter_old_format.
    destruct (aiter q) as [tokens ending]. simpl. by rewrite bind_old_format.
  - intros Hnew f. unfold stream_response.
    destruct (aiter_spec q) as [Hy _].
    destruct (aiter q) as [tokens ending]. simpl in *.
    intros (token & Hf & Hin)%list_elem_of_bind.
    rewrite Hy in Hin. apply list_elem_of_filter in Hin as [_ Hin].
    assert (token ∈ q) as Hq.
    { clear -Hin. induction q as [|item q IH]; simpl in Hin; [done |].
      destruct (is_str "<<DONE>>" item); [by apply elem_of_nil in Hin |].
      apply elem_of_cons in Hin as [->|Hin]; apply elem_of_cons; auto. }
    unfold response_fragments in Hf.
    destruct (is_str "<<STEP_END>>" token).
    + by apply list_elem_of_singleton in Hf.
    + destruct token as [msg|s]; [| by apply elem_of_nil in Hf].
      rewrite (Hnew msg Hq) in Hf. by apply elem_of_nil in Hf.
Qed.

(** ** From the model to the client *)

Lemma chunks_no_sentinel (tokens : list AIMessageChunk) :
  Forall (λ item, is_str "<<DONE>>" item = false
                  ∧ is_str "<<STEP_END>>" item = false) (QChunk <$> tokens).
Proof. apply Forall_fmap, Forall_forall. by intros. Qed.

Lemma stream_generator_chunks w tokens started :
  stream_generator w (QChunk <$> tokens) started false
  = tokens ≫= λ msg, fragments_of (generator_view w msg).1
                                   (generator_view w msg).2.
Proof.
  revert started. induction tokens as [|msg tokens IH]; intros started; [done |].
  rewrite fmap_cons, bind_cons. cbn [stream_generator is_str].
  destruct (generator_view w msg) as [tool_name tool_args]. simpl.
  by rewrite IH.
Qed.

Lemma stream_generator_published w turns :
  (∀ tokens msg, tokens ∈ turns → msg ∈ tokens →
     (generator_view w msg).1 = Some "final_answer" →
     names_final_answer w msg = true) →
  stream_generator w (published_by w false turns) false false = streamed w turns.
Proof.
  induction turns as [|tokens turns IH]; intros Hagree; [done |].
  cbn [published_by streamed]. simpl.
  destruct (stream_generator_step w (QChunk <$> tokens) false
              (chunks_no_sentinel tokens)) as (started' & Hstarted & ->).
  rewrite stream_generator_chunks. f_equal.
  destruct (existsb (names_final_answer w) tokens) eqn:Hex; [done |].
  assert (started' = false) as ->.
  { destruct started'; [| done]. destruct (proj1 Hstarted eq_refl)
      as [?|(msg & Hin & Hname)]; [done |].
    apply list_elem_of_fmap in Hin as (msg' & [= <-] & Hin).
    assert (existsb (names_final_answer w) tokens = true); [| congruence].
    apply existsb_exists. exists msg. split; [by apply list_elem_of_In |].
    apply (Hagree tokens msg); [apply elem_of_cons; by left | done | done]. }
  simpl. f_equal. apply IH. intros tokens' msg Hin. apply Hagree.
  apply elem_of_cons. by right.
Qed.

(** X15. From the model to the client. When the handler and
    [stream_generator] agree on the deltas that name [final_answer],
    what [stream_generator] yields for an invocation, reading the queue
    of a new handler, is this: for each turn the step headers and the
    argument texts of its deltas, in order, then [</step>]; the turn
    that names [final_answer] is not closed by [</step>] and ends the
    stream, and when no turn names it the stream covers all the turns
    made. *)
Theorem client_sees_steps w self input :
  (∀ t msg, t ∈ trace (invoke w self input new_handler) →
     msg ∈ t_tokens t →
     (generator_view w msg).1 = Some "final_answer" →
     names_final_answer w msg = true) →
  stream_generator w (published (invoke w self input new_handler)) false false
  = streamed w (t_tokens <$> trace (invoke w self input new_handler)).
Proof.
  intros Hagree. rewrite invoke_published.
  rewrite (unrolls_published _ _ _ _ _ _ _ (invoke_unrolls w self input new_handler)).
  rewrite <- invoke_trace. simpl. apply stream_generator_published.
  intros tokens msg (t & -> & Ht)%list_elem_of_fmap Hin. by apply (Hagree t).
Qed.

(** ** The handler of [application/api] *)

Lemma done_published w seen turns :
  QStr "<<DONE>>" ∈ published_by w seen turns
  ↔ (seen = true ∧ turns ≠ [])
    ∨ ∃ tokens, tokens ∈ turns ∧ existsb (names_final_answer w) tokens = true.
Proof.
  revert seen. induction turns as [|tokens turns IH]; intros seen.
  - simpl. split; [by intros ?%elem_of_nil |].
    intros [[_ ?]|(tokens & ?%elem_of_nil & _)]; done.
  - cbn [published_by]. rewrite elem_of_app, elem_of_cons, IH.
    destruct seen; simpl.
    + split; [by left |]. intros _. right. by left.
    + destruct (existsb (names_final_answer w) tokens) eqn:Hex.
      * split; [| intros _; right; by left].
        intros _. right. exists tokens. split; [apply elem_of_cons; by left | done].
      * split.
        -- intros [Hin|[Heq|[[? _]|(tokens' & Hin & Hex')]]]; try done.
           ++ apply list_elem_of_fmap in Hin as (? & ? & _). done.
           ++ right. exists tokens'. split; [apply elem_of_cons; by right | done].
        -- intros [[? _]|(tokens' & Hin & Hex')]; [done |].
           apply elem_of_cons in Hin as [->|Hin]; [congruence |].
           right. right. right. by exists tokens'.
Qed.

Lemma invoke_done w self input :
  QStr "<<DONE>>" ∈ published (invoke w self input new_handler)
  ↔ ∃ t token, t ∈ trace (invoke w self input new_handler)
               ∧ token ∈ t_tokens t
               ∧ names_final_answer w token = true.
Proof.
  rewrite invoke_published, invoke_trace.
  rewrite (unrolls_published _ _ _ _ _ _ _ (invoke_unrolls w self input new_handler)).
  simpl. rewrite done_published. split.
  - intros [[? _]|(tokens & Hin & Hex)]; [done |].
    apply list_elem_of_fmap in Hin as (t & -> & Ht).
    apply existsb_exists in Hex as (token & Hin%list_elem_of_In & Hname).
    by exists t, token.
  - intros (t & token & Ht & Hin & Hname). right. exists (t_tokens t).
    split; [by apply list_elem_of_fmap_2 |].
    apply existsb_exists. exists token. by rewrite <- list_elem_of_In.
Qed.

Lemma returned_Raise w self input streamer e :
  returned (invoke w self input streamer) = Raise e →
  self_after (invoke w self input streamer) = self.
Proof.
  pose proof (invoke_unrolls w self input streamer) as Hrun.
  unfold invoke.
  destruct (result (run_loop w self input streamer)) as [fr|e'] eqn:Hr; simpl;
    [| done].
  pose proof (unrolls_answer _ _ _ _ _ _ _ _ Hrun eq_refl Hr) as Hans.
  destruct (final_answer fr) as [answer|]; simpl; [| done].
  destruct Hans as (fc & -> & _).
  destruct (truthy answer); simpl; [| done].
  by destruct (valid_content answer).
Qed.

Lemma http_method_Raise event e :
  http_method event = Raise e
  ↔ e = ToolFailure "AttributeError"
    ∧ (requestContext event = Null
       ∨ ∃ context, requestContext event = Present context ∧ http context = Null).
Proof.
  unfold http_method.
  destruct (requestContext event) as [| |context]; [| |destruct (http context) eqn:Hh].
  - split; [done | by intros [_ [?|(? & ? & _)]]].
  - split; [intros [= <-]; split; [done | by left] | by intros [-> _]].
  - split; [done |]. intros [_ [?|(? & [= <-] & ?)]]; congruence.
  - split; [| by intros [-> _]]. intros [= <-]. split; [done |]. right. by exists context.
  - split; [done |]. intros [_ [?|(? & [= <-] & ?)]]; congruence.
Qed.

(** X12. A [null] for [requestContext], or for its [http] entry, makes
    the handler raise [AttributeError]; it answers every other event, or
    hangs. It runs the agent for [POST /invoke] with a non-empty
    [content] and for nothing else: the other events get a JSON
    response, 200 for [GET /health], 400 for [POST /invoke] without
    content and 404 otherwise, and leave the executor as it was. When
    it runs the agent, it comes back only if some delta of the
    invocation names [final_answer]: with 500 and the text of the
    exception if the invocation raised, the executor being as it was,
    and with 200 and the joined fragments if it returned. When no delta
    names [final_answer], as when the budget runs out, the handler never
    comes back, whatever the invocation returned or raised. *)
Theorem handler_outcome w str_of ex event :
  match http_method event with
  | Raise e =>
      handler w str_of ex event = (Raise e, ex)
      ∧ e = ToolFailure "AttributeError"
      ∧ (requestContext event = Null
         ∨ ∃ context, requestContext event = Present context
                      ∧ http context = Null)
  | Ok verb =>
      if bool_decide (path event = Some "/invoke" ∧ verb = Some "POST"
                      ∧ content_of event ≠ "") then
        match (handler w str_of ex event).1 with
        | Raise _ => False
        | Ok None =>
            ∀ t token,
              t ∈ trace (invoke w ex (content_of event) new_handler) →
              token ∈ t_tokens t → names_final_answer w token = false
        | Ok (Some r) =>
            (∃ t token,
               t ∈ trace (invoke w ex (content_of event) new_handler)
               ∧ token ∈ t_tokens t ∧ names_final_answer w token = true)
            ∧ match returned (invoke w ex (content_of event) new_handler) with
              | Raise e =>
                  statusCode r = 500%Z
                  ∧ body r = JsonBody [("error", str_of e)]
                  ∧ (handler w str_of ex event).2 = ex
              | Ok _ =>
                  statusCode r = 200%Z
                  ∧ body r
                    = TextBody
                        (join (stream_response
                                 (published (invoke w ex (content_of event)
                                               new_handler))).1)
                  ∧ (handler w str_of ex event).2
                    = self_after (invoke w ex (content_of event) new_handler)
              end
        end
      else
        (handler w str_of ex event).2 = ex
        ∧ ∃ r, (handler w str_of ex event).1 = Ok (Some r)
            ∧ headers r = json_headers
            ∧ statusCode r
              = if bool_decide (path event = Some "/health" ∧ verb = Some "GET")
                then 200%Z
                else if bool_decide (path event = Some "/invoke"
                                     ∧ verb = Some "POST")
                     then 400%Z else 404%Z
  end.
Proof.
  unfold handler.
  destruct (http_method event) as [verb|e] eqn:Hverb.
  2:{ split; [done |]. by apply http_method_Raise. }
  case_bool_decide as Hrun.
  - destruct Hrun as (Hpath & Hmethod & Hcontent).
    rewrite bool_decide_eq_false_2 by (rewrite Hpath; intros [? _]; done).
    rewrite bool_decide_eq_true_2 by done.
    rewrite bool_decide_eq_false_2 by done.
    pose proof (invoke_done w ex (content_of event)) as Hdone.
    pose proof (returned_Raise w ex (content_of event) new_handler) as Hself.
    unfold stream_response.
    destruct (aiter_spec (published (invoke w ex (content_of event) new_handler)))
      as [_ Hend].
    destruct (aiter _) as [tokens ending]. simpl in Hend. simpl.
    destruct ending.
    + assert (∃ t token,
                t ∈ trace (invoke w ex (content_of event) new_handler)
                ∧ token ∈ t_tokens t ∧ names_final_answer w token = true) as Hnamed.
      { apply Hdone, Hend. done. }
      destruct (returned _) as [answered|e]; simpl; [done |].
      split; [done |]. split; [done |]. split; [done |]. by apply (Hself e).
    + intros t token Ht Hin.
      destruct (names_final_answer w token) eqn:Hname; [| done].
      assert (Polling = Finished) as Hno; [| done].
      apply Hend, Hdone. by exists t, token.
  - case_bool_decide as Hhealth.
    + split; [done |]. eexists. split; [done |]. done.
    + case_bool_decide as Hinvoke.
      * rewrite bool_decide_eq_true_2.
        -- split; [done |]. eexists. split; [done |]. done.
        -- destruct (decide (content_of event = "")); [done |].
           destruct Hrun. tauto.
      * split; [done |]. eexists. split; [done |]. done.
Qed.

(** ** The search results *)

Lemma all_ok_first {A} (results : list (Outcome A)) e :
  all_ok results = Raise e
  ↔ ∃ i, results !! i = Some (Raise e)
         ∧ ∀ j r, j < i → results !! j = Some r → is_ok r = true.
Proof.
  induction results as [|r results IH]; simpl.
  - split; [done |]. by intros (i & ? & _).
  - destruct r as [a|e']; simpl.
    + destruct (all_ok results) as [l|e''] eqn:E; simpl.
      * split; [done |]. intros ([|i] & Hi & Hbefore); [done |].
        simpl in Hi. assert (Ok l = Raise e) as Hno; [| done].
        apply IH. exists i. split; [done |].
        intros j r Hj. apply (Hbefore (S j)). lia.
      * split.
        -- intros [= ->]. destruct (proj1 IH eq_refl) as (i & Hi & Hbefore).
           exists (S i). split; [done |].
           intros [|j] r Hj; simpl; [by intros [= <-] |].
           apply Hbefore. lia.
        -- intros ([|i] & Hi & Hbefore); [done |]. simpl in Hi. f_equal.
           assert (Raise e'' = Raise e :> Outcome (list A)) as Heq; [| congruence].
           apply IH. exists i. split; [done |].
           intros j r Hj. apply (Hbefore (S j)). lia.
    + split.
      * intros [= ->]. exists 0. split; [done |]. intros; lia.
      * intros ([|i] & Hi & Hbefore); [by injection Hi as -> |].
        specialize (Hbefore 0 (Raise e')). simpl in Hbefore.
        assert (false = true); [apply Hbefore; [lia | done] | done].
Qed.

(** X13. An article is made of the four entries [title], [source],
    [link] and [snippet] of a result, whatever else the result holds:
    when they are texts, the article has exactly these texts. A result
    that lacks one of them gives no article but a [KeyError], for the
    first of the four keys, in this order, that is missing. *)
Theorem article_of_result d :
  (∀ t s l n,
     dict_get "title" d = Some (VStr t) →
     dict_get "source" d = Some (VStr s) →
     dict_get "link" d = Some (VStr l) →
     dict_get "snippet" d = Some (VStr n) →
     from_serpapi_result (VDict d)
     = Ok {| title := t; source := s; link := l; snippet := n |})
  ∧ (∀ a, from_serpapi_result (VDict d) = Ok a →
       Forall (λ key, is_Some (dict_get key d))
         ["title"; "source"; "link"; "snippet"])
  ∧ ∀ k, from_serpapi_result (VDict d) = Raise (KeyError k)
         ↔ head (filter (λ key, dict_get key d = None)
                   ["title"; "source"; "link"; "snippet"]) = Some k.
Proof.
  unfold from_serpapi_result, subscript.
  split; [| split].
  - by intros t s l n -> -> -> ->.
  - intros a.
    destruct (dict_get "title" d) as [t|] eqn:Ht; simpl; [| done].
    destruct (dict_get "source" d) as [s|] eqn:Hs; simpl; [| done].
    destruct (dict_get "link" d) as [l|] eqn:Hl; simpl; [| done].
    destruct (dict_get "snippet" d) as [n|] eqn:Hn; simpl; [| done].
    intros _.
    repeat (apply Forall_cons; split; [by eexists |]).
    apply Forall_nil_2.
  - intros k.
    destruct (dict_get "title" d) as [t|] eqn:Ht; simpl.
    2:{ rewrite filter_cons_True by done. simpl. split; congruence. }
    rewrite filter_cons_False by (by rewrite Ht).
    destruct (dict_get "source" d) as [s|] eqn:Hs; simpl.
    2:{ rewrite filter_cons_True by done. simpl. split; congruence. }
    rewrite filter_cons_False by (by rewrite Hs).
    destruct (dict_get "link" d) as [l|] eqn:Hl; simpl.
    2:{ rewrite filter_cons_True by done. simpl. split; congruence. }
    rewrite filter_cons_False by (by rewrite Hl).
    destruct (dict_get "snippet" d) as [n|] eqn:Hn; simpl.
    2:{ rewrite filter_cons_True by done. simpl. split; congruence. }
    rewrite filter_cons_False by (by rewrite Hn). simpl.
    split; [| done].
    by destruct t, s, l, n.
Qed.

(** X14. The search gives the articles of [organic_results], one for
    each result and in the same order, or no article at all: a document
    without [organic_results] raises [KeyError], and when some result
    gives no article the search raises what the first such result
    raises, however many good results there are. *)
Theorem search_results d :
  match dict_get "organic_results" d with
  | None => serpapi_return (VDict d) = Raise (KeyError "organic_results")
  | Some (VList results) =>
      (∀ articles,
         serpapi_return (VDict d) = Ok articles
         ↔ from_serpapi_result <$> results = Ok <$> articles)
      ∧ (∀ articles, serpapi_return (VDict d) = Ok articles →
           length articles = length results)
      ∧ ∀ e, serpapi_return (VDict d) = Raise e
             ↔ ∃ i result,
                 results !! i = Some result
                 ∧ from_serpapi_result result = Raise e
                 ∧ ∀ j earlier, j < i → results !! j = Some earlier →
                     is_ok (from_serpapi_result earlier) = true
  | Some _ => True
  end.
Proof.
  unfold serpapi_return, subscript.
  destruct (dict_get "organic_results" d) as [[| | | | |results|]|]; simpl; try done.
  split; [| split].
  - intros articles. apply all_ok_Ok.
  - intros articles Hok%all_ok_Ok. apply (f_equal length) in Hok.
    by rewrite !length_fmap in Hok.
  - intros e. rewrite all_ok_first. split.
    + intros (i & Hi & Hbefore). rewrite list_lookup_fmap in Hi.
      destruct (results !! i) as [result|] eqn:Hr; [| done].
      injection Hi as Hi. exists i, result. split; [done |]. split; [done |].
      intros j earlier Hj Hearlier. apply (Hbefore j); [done |].
      by rewrite list_lookup_fmap, Hearlier.
    + intros (i & result & Hr & Hraise & Hbefore). exists i.
      rewrite list_lookup_fmap, Hr. simpl. rewrite Hraise. split; [done |].
      intros j r Hj Hlook. rewrite list_lookup_fmap in Hlook.
      destruct (results !! j) as [earlier|] eqn:He; [| done].
      injection Hlook as <-. by apply (Hbefore j).
Qed.

(** ** The handler of [lambda-code] *)

Lemma existsb_done q :
  existsb (is_str "<<DONE>>") q = true ↔ QStr "<<DONE>>" ∈ q.
Proof.
  rewrite existsb_exists. setoid_rewrite <- list_elem_of_In. split.
  - intros ([msg|s] & Hin & His); [done |]. simpl in His.
    by apply String.eqb_eq in His as ->.
  - intros Hin. by exists (QStr "<<DONE>>").
Qed.

(** X16. The handler of [lambda-code] always answers a request it runs
    the agent for, and mostly with 200. It answers 500, with the text of
    the exception, exactly when the invocation raised, some delta of it
    named [final_answer], and the task was still running when
    [<<DONE>>] was read. An invocation that raises otherwise, as one in
    which no delta names [final_answer], gets 200 and the text streamed
    so far: the exception is lost. Whenever the invocation raised the
    executor is as it was. The text of a 200 is the concatenation of
    what [stream_generator] yields. *)
Theorem errors_swallowed w str_of running ex event :
  path event = Some "/invoke" → http_method event = Ok (Some "POST") →
  content_of event ≠ "" →
  ∃ r,
    (LambdaCode.handler w str_of running ex event).1 = Ok r
    ∧ (statusCode r = 500%Z
       ↔ running = true
         ∧ (∃ t token,
              t ∈ trace (invoke w ex (content_of event) new_handler)
              ∧ token ∈ t_tokens t ∧ names_final_answer w token = true)
         ∧ ∃ e, returned (invoke w ex (content_of event) new_handler) = Raise e)
    ∧ (∀ e, returned (invoke w ex (content_of event) new_handler) = Raise e →
         (LambdaCode.handler w str_of running ex event).2 = ex
         ∧ if bool_decide (statusCode r = 500%Z)
           then body r = JsonBody [("error", str_of e)]
           else statusCode r = 200%Z
                ∧ body r
                  = TextBody
                      (join (stream_generator w
                               (published (invoke w ex (content_of event)
                                             new_handler))
                               false false)))
    ∧ (∀ answered,
         returned (invoke w ex (content_of event) new_handler) = Ok answered →
         statusCode r = 200%Z
         ∧ body r
           = TextBody
               (join (stream_generator w
                        (published (invoke w ex (content_of event) new_handler))
                        false false))
         ∧ (LambdaCode.handler w str_of running ex event).2
           = self_after (invoke w ex (content_of event) new_handler)).
Proof.
  intros Hpath Hmethod Hcontent.
  unfold LambdaCode.handler. rewrite Hmethod.
  rewrite bool_decide_eq_false_2 by (rewrite Hpath; intros [? _]; done).
  rewrite bool_decide_eq_true_2 by done.
  rewrite bool_decide_eq_false_2 by done.
  cbn [fst snd]. eexists. split; [reflexivity |].
  set (inv := invoke w ex (content_of event) new_handler).
  pose proof (invoke_done w ex (content_of event)) as Hdone. fold inv in Hdone.
  pose proof (existsb_done (published inv)) as Hex.
  pose proof (returned_Raise w ex (content_of event) new_handler) as Hself.
  fold inv in Hself.
  assert (joined w (published inv)
          = join (stream_generator w (published inv) false false)) as Hjoin.
  { unfold joined. by rewrite stream_response_loop_spec. }
  rewrite Hjoin.
  destruct (existsb (is_str "<<DONE>>") (published inv)) eqn:Hd;
    destruct running; simpl;
    destruct (returned inv) as [answered|e] eqn:Hret; simpl.
  all: split; [| split].
  all: try (intros e' [= <-]; split; [by apply (Hself e) |]; done).
  all: try (intros e' [=]; done).
  all: try (intros answered' [= <-]; done).
  all: try (intros answered' [=]; done).
  all: try (split; [done |]; intros (? & ? & ? & ?); done).
  all: try (split; [done |]; intros (? & _); done).
  - split; [intros _ | done]. split; [done |]. split; [| by eexists].
    apply Hdone, Hex. done.
  - split; [done |]. intros (_ & Hnamed & _). apply Hdone, Hex in Hnamed. done.
Qed.

(** ** The secrets of the parameter store *)

Lemma split_on_cons sep s : ∃ segment segments, split_on sep s = segment :: segments.
Proof.
  induction s as [|a s (segment & segments & IH)]; simpl; [by eexists _, _ |].
  destruct (Ascii.eqb a sep); [by eexists _, _ |]. rewrite IH. by eexists _, _.
Qed.

Lemma split_on_no_sep sep s :
  Forall (λ segment, has_char sep segment = false) (split_on sep s).
Proof.
  induction s as [|a s IH]; simpl; [by repeat constructor |].
  destruct (Ascii.eqb a sep) eqn:E; [by constructor |].
  destruct (split_on sep s) as [|segment segments]; [by repeat constructor; simpl; rewrite E |].
  apply Forall_cons in IH as [Hseg Hsegs]. constructor; [| done].
  simpl. by rewrite E.
Qed.

Lemma last_segment_no_slash name : has_char "/" (last_segment name) = false.
Proof.
  unfold last_segment.
  destruct (last (split_on "/" name)) as [segment|] eqn:E; [| done]. simpl.
  apply last_Some_elem_of in E.
  by apply (proj1 (Forall_forall _ _) (split_on_no_sep "/" name)).
Qed.

Lemma split_on_join sep s :
  join_with (String sep "") (split_on sep s) = s.
Proof.
  induction s as [|a s IH]; [done |]. cbn [split_on].
  destruct (split_on_cons sep s) as (segment & segments & E). rewrite E in *.
  destruct (Ascii.eqb_spec a sep) as [->|Hne].
  - change (join_with (String sep "") ("" :: segment :: segments))
      with ("" +:+ String sep "" +:+ join_with (String sep "") (segment :: segments)).
    rewrite IH. reflexivity.
  - rewrite <- IH. destruct segments; reflexivity.
Qed.

Lemma join_with_snoc sep segments segment :
  join_with sep (segments ++ [segment])
  = match segments with
    | [] => segment
    | _ :: _ => join_with sep segments +:+ sep +:+ segment
    end.
Proof.
  induction segments as [|x segments IH]; [done |].
  change ((x :: segments) ++ [segment]) with (x :: (segments ++ [segment])).
  cbn [join_with]. rewrite IH.
  destruct segments as [|y segments]; [done |].
  change ((y :: segments) ++ [segment]) with (y :: (segments ++ [segment])).
  cbn iota. by rewrite !string_app_assoc.
Qed.

Lemma last_segment_spec name :
  has_char "/" (last_segment name) = false
  ∧ (name = last_segment name
     ∨ ∃ before, name = before +:+ "/" +:+ last_segment name).
Proof.
  split; [apply last_segment_no_slash |].
  unfold last_segment.
  destruct (split_on_cons "/" name) as (segment & segments & E).
  destruct (last (split_on "/" name)) as [l|] eqn:El.
  2:{ apply last_None in El. congruence. }
  apply last_Some in El as [init El]. simpl.
  pose proof (split_on_join "/" name) as Hjoin. rewrite El, join_with_snoc in Hjoin.
  destruct init; [by left |]. right. by eexists.
Qed.

Lemma set_parameter_good environ name value :
  legal (last_segment name) value = true →
  set_parameter environ (parameter name value)
  = Ok (<[last_segment name := value]> environ).
Proof. intros Hlegal. unfold set_parameter, parameter, setenv. simpl. by rewrite Hlegal. Qed.

Lemma set_parameters_good environ good rest :
  Forall (λ p, legal (last_segment p.1) p.2 = true) good →
  set_parameters environ ((uncurry parameter <$> good) ++ rest)
  = set_parameters (store environ good) rest.
Proof.
  intros Hgood. revert environ.
  induction Hgood as [|[name value] good Hlegal _ IH]; intros environ; [done |].
  rewrite fmap_cons. cbn [app set_parameters uncurry]. simpl in Hlegal.
  rewrite set_parameter_good by done. apply IH.
Qed.

Lemma set_parameter_key environ param environ' :
  set_parameter environ param = Ok environ' →
  ∃ full value,
    subscript param "Name" = Ok (VStr full)
    ∧ subscript param "Value" = Ok (VStr value)
    ∧ environ' = <[last_segment full := value]> environ.
Proof.
  unfold set_parameter, setenv.
  destruct (subscript param "Name") as [[| | | |full| |]|]; simpl; try done.
  destruct (subscript param "Value") as [[| | | |value| |]|]; simpl; try done.
  destruct (legal _ _); [| done]. intros [= <-]. by exists full, value.
Qed.

Lemma set_parameters_slash environ params k :
  has_char "/" k = true →
  set_parameters environ params !! k = environ !! k.
Proof.
  intros Hk. revert environ.
  induction params as [|param params IH]; intros environ; [done |]. simpl.
  destruct (set_parameter environ param) as [environ'|] eqn:E; [| done].
  apply set_parameter_key in E as (full & value & _ & _ & ->).
  rewrite IH, lookup_insert_ne; [done |].
  intros <-. by rewrite last_segment_no_slash in Hk.
Qed.

(** X17. The secrets are stored under the last segment of their
    names. Outside Lambda, when [AWS_EXECUTION_ENV] is unset or empty,
    [get_ssm_parameters] leaves the environment as it is; on Lambda it
    raises only what the creation of the client raises, every failure
    after that being caught. It never touches a variable whose name has
    a slash. When the response lists parameters that are all accepted,
    each is stored under what follows the last slash of its name, a
    later one replacing an earlier one; and when a parameter is refused,
    those before it stay stored and those after it are not looked at. *)
Theorem secrets_by_last_segment environ client get_parameters :
  (nonempty (environ !! "AWS_EXECUTION_ENV") = false →
   get_ssm_parameters environ client get_parameters = Ok environ)
  ∧ (∀ e, get_ssm_parameters environ client get_parameters = Raise e
          ↔ nonempty (environ !! "AWS_EXECUTION_ENV") = true ∧ client = Raise e)
  ∧ (∀ environ' k,
       get_ssm_parameters environ client get_parameters = Ok environ' →
       has_char "/" k = true → environ' !! k = environ !! k)
  ∧ (∀ response good rest,
       nonempty (environ !! "AWS_EXECUTION_ENV") = true →
       client = Ok () →
       get_parameters = Ok response →
       subscript response "Parameters"
       = Ok (VList ((uncurry parameter <$> good) ++ rest)) →
       Forall (λ p, legal (last_segment p.1) p.2 = true) good →
       (∀ bad, head rest = Some bad →
          ∀ environ', is_ok (set_parameter environ' bad) = false) →
       get_ssm_parameters environ client get_parameters
       = Ok (store environ good))
  ∧ ∀ name,
      has_char "/" (last_segment name) = false
      ∧ (name = last_segment name
         ∨ ∃ before, name = before +:+ "/" +:+ last_segment name).
Proof.
  unfold get_ssm_parameters.
  split; [by intros -> |]. split; [| split; [| split]].
  - intros e. destruct (nonempty _); [| by split; [| intros [? _]]].
    destruct client as [[]|e']; simpl; split; try done.
    + by intros [_ ?].
    + by intros [= ->].
    + by intros [_ [= ->]].
  - intros environ' k. destruct (nonempty _); [| by intros [= <-]].
    destruct client as [[]|e']; simpl; [| done].
    destruct (_ ←! get_parameters; _) as [params|]; intros [= <-] Hk; [| done].
    by apply set_parameters_slash.
  - intros response good rest -> -> -> Hparams Hgood Hbad. simpl.
    rewrite Hparams. simpl. f_equal. rewrite set_parameters_good by done.
    destruct rest as [|bad rest]; [done |]. simpl.
    specialize (Hbad bad eq_refl (store environ good)).
    by destruct (set_parameter _ bad).
  - apply last_segment_spec.
Qed.

(** ** The further properties on concrete inputs *)

(** A call of [divide], which is no tool, raises [KeyError] and calls
    nothing. *)
Lemma unknown_tool_raises_witness :
  execute_tool world_sum 0 0 unknown_call
  = {| invoked := None; outcome := Raise (KeyError "divide") |}.
Proof.
  edestruct (unknown_tool_raises world_sum 0 0 unknown_call) as (_ & Hnone & _).
  { reflexivity. }
  apply Hnone. vm_compute. reflexivity.
Defined.

(** The observation of a [final_answer] call is the text of its two
    arguments, under the id of the call. *)
Lemma final_answer_identity_witness :
  outcome (execute_tool world_sum 1 0 answer_call)
  = Ok (observation
          (format_out world_sum
             (VDict [("answer", VStr "5"); ("tools_used", VList [])]))
          "call_2").
Proof.
  edestruct (final_answer_identity world_sum 1 0 answer_call) as [Hout _].
  { reflexivity. }
  { reflexivity. }
  change (binds _ _) with true in Hout. cbv iota in Hout.
  destruct Hout as (answer & tools_used & Ha & Ht & Hout).
  injection Ha as <-. injection Ht as <-. exact Hout.
Defined.

(** The model adds twice in one turn and gives both calls the id
    [call_1]: the two calls are then both followed by the observation
    of the second, 6, and the observation of the first, 5, is lost. *)
Lemma last_observation_wins_witness :
  ∃ t,
    trace (invoke world_same_id agent_executor "What is 2+3?" new_handler) !! 0
    = Some t
    ∧ t_calls t = same_id_calls
    ∧ t_obs t = Ok [observation "5" "call_1"; observation "6" "call_1"]
    ∧ extend_scratchpad
        (dict_of (zip (am_tool_call_id <$> t_calls t)
                    [observation "5" "call_1"; observation "6" "call_1"]))
        (t_calls t) []
      = Ok (entries same_id_calls
              [observation "6" "call_1"; observation "6" "call_1"]).
Proof.
  eexists. split; [vm_compute; reflexivity |].
  split; [vm_compute; reflexivity |]. split; [vm_compute; reflexivity |].
  change (t_calls _) with same_id_calls.
  destruct (last_observation_wins same_id_calls
              [observation "5" "call_1"; observation "6" "call_1"] [] eq_refl)
    as (filed & Hext & Hlen & Hlast).
  rewrite Hext. simpl. f_equal. f_equal.
  assert (∀ i c, same_id_calls !! i = Some c →
            filed !! i = Some (observation "6" "call_1")) as Hfiled.
  { intros i c Hi.
    apply (Hlast i 1 c (one_call "add" [("x", VInt 2); ("y", VInt 4)]
                          (Some "call_1")));
      [done | reflexivity | reflexivity | |].
    - destruct i as [|[|i]]; [| | done]; by injection Hi as <-.
    - intros [|[|[|j']]] c' Hlt Hj'; [lia | lia | done | done]. }
  destruct filed as [|o1 [|o2 [|o3 filed]]]; try done.
  pose proof (Hfiled 0 _ eq_refl) as H0. pose proof (Hfiled 1 _ eq_refl) as H1.
  simpl in H0, H1. by injection H0 as ->; injection H1 as ->.
Defined.

(** The exception of the invocation that calls [add] without [y] is
    the one of a task of its last turn. *)
Lemma raises_from_a_task_witness :
  ∃ t c tc rest,
    last (trace (invoke world_failing agent_executor "What is 2+3?" new_handler))
    = Some t
    ∧ t_calls t !! 1 = Some c
    ∧ am_tool_calls c = tc :: rest
    ∧ tc_name tc = "add" ∧ tc_args tc = [("x", VInt 2)]
    ∧ outcome (execute_tool world_failing 0 1 c) = Raise (TypeError "arguments")
    ∧ call (Tools.add world_failing) 0 1 (tc_args tc) = Raise (TypeError "arguments").
Proof.
  destruct (raises_from_a_task world_failing agent_executor "What is 2+3?"
              new_handler (TypeError "arguments"))
    as (_ & t & pos & c & tc & rest & Hl & Hc & Hm & _ & Hout & _).
  { vm_compute. reflexivity. }
  vm_compute in Hl. injection Hl as <-.
  destruct pos as [|[|pos]]; [| | done].
  - vm_compute in Hc. injection Hc as <-. discriminate Hout.
  - eexists _, c, tc, rest. split; [reflexivity |].
    split; [exact Hc |]. split; [exact Hm |].
    vm_compute in Hc. injection Hc as <-. vm_compute in Hm. injection Hm as <- <-.
    repeat split; vm_compute; reflexivity.
Defined.

(** What is published after the step of the final answer is closed
    does not reach the client. *)
Lemma nothing_after_final_answer_witness :
  stream_generator world_sum
    (answer_step ++ QStr "<<STEP_END>>"
       :: [QChunk (opening "call_3" "add"); QChunk (continuation text_add);
           QStr "<<STEP_END>>"])
    false false
  = [step_header "final_answer"; text_answer "5"; "</step>"].
Proof.
  edestruct (nothing_after_final_answer world_sum answer_step) as [-> _].
  { repeat (apply Forall_cons; split; [by split |]). apply Forall_nil_2. }
  { right. exists (opening "call_2" "final_answer"). split.
    - apply elem_of_cons. by left.
    - vm_compute. reflexivity. }
  vm_compute. reflexivity.
Defined.

(** Scenario A as the client sees it. *)
Lemma client_sees_steps_witness :
  stream_generator world_sum
    (published (invoke world_sum agent_executor "What is 2+3?" new_handler))
    false false
  = [step_header "add"; text_add; "</step>";
     step_header "final_answer"; text_answer "5"].
Proof.
  rewrite (client_sees_steps world_sum agent_executor "What is 2+3?").
  - vm_compute. reflexivity.
  - intros t msg Ht Hmsg. vm_compute in Ht.
    each_member Ht ltac:(vm_compute in Hmsg;
                         each_member Hmsg ltac:(vm_compute; try done)).
Defined.

(** ** The handler and the search on concrete inputs *)

(** With the model that never gives a final answer the handler does not
    come back; with the one of scenario A it answers 200, and the next
    request finds the exchange in the chat history. An event without
    any of the three entries is a [GET /], which gets 404; one whose
    [requestContext] is null makes the handler raise. *)
Example handler_scenarios :
  (handler world_no_answer (λ _, "error") agent_executor
     (event_of "POST" "/invoke" [("content", "What is 2+3?")])).1 = Ok None
  ∧ (∃ r, (handler world_sum (λ _, "error") agent_executor
             (event_of "POST" "/invoke" [("content", "What is 2+3?")])).1
          = Ok (Some r)
          ∧ statusCode r = 200%Z)
  ∧ length (chat_history
              (handler world_sum (λ _, "error") agent_executor
                 (event_of "POST" "/invoke" [("content", "What is 2+3?")])).2)
    = 2
  ∧ (∃ r, (handler world_sum (λ _, "error") agent_executor
             {| requestContext := Missing; rawPath := Missing;
                queryStringParameters := Missing |}).1
          = Ok (Some r)
          ∧ statusCode r = 404%Z)
  ∧ (handler world_sum (λ _, "error") agent_executor
       {| requestContext := Null; rawPath := Present "/health";
          queryStringParameters := Missing |}).1
    = Raise (ToolFailure "AttributeError").
Proof.
  split; [vm_compute; reflexivity |].
  split; [eexists; split; vm_compute; reflexivity |].
  split; [vm_compute; reflexivity |].
  split; [eexists; split; vm_compute; reflexivity |].
  vm_compute; reflexivity.
Qed.

(** Two results give two articles; a result without snippet makes the
    search fail although the first result is good. *)
Example search_scenarios :
  (length <$> match serpapi_return good_results with
              | Ok articles => Some articles
              | Raise _ => None
              end) = Some 2
  ∧ serpapi_return bad_results = Raise (KeyError "snippet").
Proof. split; vm_compute; reflexivity. Qed.

(** The invocation that calls [add] without [y] raises, and the client
    gets 200 with the two steps opened so far. *)
Lemma errors_swallowed_witness :
  returned (invoke world_failing agent_executor "What is 2+3?" new_handler)
  = Raise (TypeError "arguments")
  ∧ (LambdaCode.handler world_failing (λ _, "error") true agent_executor
       (event_of "POST" "/invoke" [("content", "What is 2+3?")])).1
    = Ok {| statusCode := 200;
            headers := [("Content-Type", "text/plain");
                        ("Cache-Control", "no-cache")];
            body := TextBody (join [step_header "add"; text_add;
                                    step_header "add"; text_add_x;
                                    "</step>"]) |}.
Proof.
  split; [vm_compute; reflexivity |].
  destruct (errors_swallowed world_failing (λ _, "error") true agent_executor
              (event_of "POST" "/invoke" [("content", "What is 2+3?")]))
    as (r & Hr & _ & Hraise & _); [reflexivity | reflexivity | done |].
  destruct (Hraise (TypeError "arguments")) as [_ Hbody]; [vm_compute; reflexivity |].
  rewrite Hr. f_equal.
  vm_compute in Hr. injection Hr as <-. vm_compute. reflexivity.
Defined.

(** The two secrets of the program. *)
Example secrets_scenario :
  get_ssm_parameters lambda_environ (Ok ())
    (Ok (response_of [("/streaming-agent/OPENAI_API_KEY", "sk-1");
                      ("/streaming-agent/SERPAPI_API_KEY", "key-2")]))
  = Ok (<["SERPAPI_API_KEY" := "key-2"]>
          (<["OPENAI_API_KEY" := "sk-1"]> lambda_environ))
  ∧ get_ssm_parameters lambda_environ (Ok ()) (Raise (ToolFailure "ClientError"))
    = Ok lambda_environ
  ∧ get_ssm_parameters ∅ (Raise (ToolFailure "NoRegionError"))
      (Raise (ToolFailure "ClientError"))
    = Ok ∅.
Proof. repeat split; vm_compute; reflexivity. Qed.
